(** * A shallow embedding of the discordiumjs event emitter (src/lib/Emitter.ts)

    The dispatcher is a TypeScript class over JavaScript [Map], [Set],
    function objects and promises.  The embedding keeps the object graph
    explicit: [Set] objects live in a heap and are reached by reference from
    the registry, the [listenerData] property hangs off each function object,
    and every operation threads the whole world and reports how it completed
    (normally, or abruptly with an exception). *)

From stdpp Require Import base option list gmap strings numbers.

(** ** JavaScript values *)

(** The values listeners receive and return.  Primitives compare by value,
    objects by reference.  [VThenable] stands for the objects [isPromiseLike]
    accepts (a native promise, or an object with a callable [then]);
    [VObject] for every other object.  What the [then] of such an object
    does when [emit] calls it is part of the function that returned the
    object ([result_then] below). *)
Inductive Val :=
| VUndefined
| VNull
| VBool (b : bool)
| VNum (n : Z)
| VStr (s : string)
| VObject (o : nat)
| VThenable (p : nat).

#[global] Instance Val_eq_dec : EqDecision Val.
Proof. solve_decision. Defined.

(** [isPromiseLike(data)]:
    [data && (data instanceof Promise || typeof data.then === "function")]. *)
Definition isPromiseLike (data : Val) : bool :=
  match data with
  | VThenable _ => true
  | _ => false
  end.

(** What a JavaScript call can do: return, or throw. *)
Inductive Exn :=
| TypeError (msg : string)
| Thrown (v : Val).

Inductive Completion (A : Type) :=
| Normal (a : A)
| Abrupt (e : Exn).
Arguments Normal {A} a.
Arguments Abrupt {A} e.

#[global] Instance Exn_eq_dec : EqDecision Exn.
Proof. solve_decision. Defined.
#[global] Instance Completion_eq_dec `{EqDecision A} : EqDecision (Completion A).
Proof. solve_decision. Defined.

(** ** Function objects *)

(** A listener is a reference to a function object.  [UserFn f] is the
    [f]-th function of the host program; [AsyncFn p] is the arrow function
    [onceAsync] allocates around the [resolve] of promise [p]. *)
Inductive Listener :=
| UserFn (f : nat)
| AsyncFn (p : nat).

#[global] Instance Listener_eq_dec : EqDecision Listener.
Proof. solve_decision. Defined.

#[global] Instance Listener_countable : Countable Listener.
Proof.
  refine (inj_countable'
            (λ l, match l with UserFn f => inl f | AsyncFn p => inr p end)
            (λ s, match s with inl f => UserFn f | inr p => AsyncFn p end) _).
  by intros [].
Defined.

(** What the [then] method of a promise-like result does with the callback
    [emit] hands it, before it returns to [emit]: it calls the callback
    [then_calls] times on the spot, keeps it (or not) to call it later, and
    returns or throws.  An exception of the callback leaves [then] at
    once. *)
Record ThenBehaviour := {
  then_calls : nat;
  then_keeps : bool;
  then_throws : option Exn;
}.

(** The [then] of a native promise: the callback is queued, to run once the
    promise is fulfilled; nothing runs on the spot and nothing is thrown. *)
Definition native_then : ThenBehaviour :=
  {| then_calls := 0; then_keeps := true; then_throws := None |}.

(** The immutable part of a host function: the text [String(f)] yields,
    what a call does with its arguments, and, when the result is
    promise-like, what the [then] of that result does.  Bodies are
    functions of their arguments: a body (or a [then]) that calls back
    into the dispatcher, other than through the callback it is given, is
    outside this model. *)
Record Closure := {
  source : string;
  body : list Val → Completion Val;
  result_then : list Val → ThenBehaviour;
}.

(** The text of the arrow function in [onceAsync]; every such closure
    prints the same. *)
Definition asyncSource : string :=
  "(...parameters) => { try { resolve(parameters); } catch (e) { reject(e); } }".

(** ** Properties written with [Object.defineProperty] *)

(** A boolean data property.  [frozen] marks a property that is neither
    writable nor configurable, which is what
    [Object.defineProperty(o, k, { value })] creates on a fresh key; a
    property made by assignment or an object literal is not frozen. *)
Record Slot := {
  value : bool;
  frozen : bool;
}.

#[global] Instance Slot_eq_dec : EqDecision Slot.
Proof. solve_decision. Defined.

(** [Object.defineProperty(o, k, { value: v })] on the slot of key [k];
    [None] is the TypeError raised when a frozen property would change. *)
Definition defineProperty (cur : option Slot) (v : bool) : option Slot :=
  match cur with
  | None => Some {| value := v; frozen := true |}
  | Some s =>
      if frozen s
      then (if bool_decide (value s = v) then Some s else None)
      else Some {| value := v; frozen := false |}
  end.

Definition truthy (s : option Slot) : bool :=
  match s with
  | Some p => value p
  | None => false
  end.

(** The [ListenerData] interface. *)
Module ListenerData.
Record t := {
  suspended : bool;
  once : option Slot;
  listened : option Slot;
  listenedTimes : option Z;
}.
(** The object literal [{}]. *)
Definition empty : t :=
  {| suspended := false; once := None; listened := None;
     listenedTimes := None |}.
Definition with_once (s : option Slot) (d : t) : t :=
  {| suspended := suspended d; once := s; listened := listened d;
     listenedTimes := listenedTimes d |}.
Definition with_listened (s : option Slot) (d : t) : t :=
  {| suspended := suspended d; once := once d; listened := s;
     listenedTimes := listenedTimes d |}.
Definition with_suspended (b : bool) (d : t) : t :=
  {| suspended := b; once := once d; listened := listened d;
     listenedTimes := listenedTimes d |}.
End ListenerData.

#[global] Instance ListenerData_eq_dec : EqDecision ListenerData.t.
Proof. solve_decision. Defined.

(** ** [Set] objects *)

(** The [[SetData]] list of the language specification: entries in
    insertion order, a deleted entry replaced by a hole ([None]) so that a
    running iterator keeps its index. *)
Abbreviation SetData := (list (option Listener)).

Definition set_values (s : SetData) : list Listener := omap id s.
Definition set_size (s : SetData) : nat := length (set_values s).
Definition set_has (x : Listener) (s : SetData) : bool :=
  bool_decide (Some x ∈ s).
Definition set_add (x : Listener) (s : SetData) : SetData :=
  if set_has x s then s else s ++ [Some x].
Definition set_delete (x : option Listener) (s : SetData) : SetData :=
  match x with
  | None => s
  | Some l => (λ e, if bool_decide (e = Some l) then None else e) <$> s
  end.

(** The result [Set] of [emit]: values in insertion order, no duplicates. *)
Definition result_add (v : Val) (r : list Val) : list Val :=
  if bool_decide (v ∈ r) then r else r ++ [v].

(** ** Promises and pending continuations *)

Inductive PromiseState :=
| Pending
| Fulfilled (parameters : list Val)
| Rejected (e : Exn).

#[global] Instance PromiseState_eq_dec : EqDecision PromiseState.
Proof. solve_decision. Defined.

(** A continuation [emit] attached with [callbackRes.then(...)]: it
    remembers the event name, the callback, the promise-like result and the
    result set it will add to. *)
Record ThenJob := {
  job_event : string;
  job_callback : Listener;
  job_value : Val;
  job_result : nat;
}.

(** ** The world *)

Record EmitterOptions := {
  limitWarn : option bool;
}.

(** One [process.emitWarning] message: the limit and the event name that
    fill the template. *)
Record Warning := {
  warn_limit : Z;
  warn_event : string;
}.

#[global] Instance Warning_eq_dec : EqDecision Warning.
Proof. solve_decision. Defined.

(** One invocation of a listener by [emit]. *)
Record Call := {
  call_event : string;
  call_listener : Listener;
  call_args : list Val;
}.

#[global] Instance Call_eq_dec : EqDecision Call.
Proof. solve_decision. Defined.

(** The emitter instance ([limits], [options], [listeners], [warned]), the
    heap it points into, and what the host observes. *)
Record World := {
  limits : option (gmap string Z);
  options : EmitterOptions;
  listeners : gmap string nat;
  warned : bool;
  setObjs : list SetData;
  listenerData : gmap Listener ListenerData.t;
  promises : list PromiseState;
  resultSets : list (list Val);
  thenJobs : list ThenJob;
  warnings : list Warning;
  calls : list Call;
}.

Definition with_listeners (m : gmap string nat) (w : World) : World :=
  {| limits := limits w; options := options w; listeners := m;
     warned := warned w; setObjs := setObjs w;
     listenerData := listenerData w; promises := promises w;
     resultSets := resultSets w; thenJobs := thenJobs w;
     warnings := warnings w; calls := calls w |}.
Definition with_warned (b : bool) (w : World) : World :=
  {| limits := limits w; options := options w; listeners := listeners w;
     warned := b; setObjs := setObjs w;
     listenerData := listenerData w; promises := promises w;
     resultSets := resultSets w; thenJobs := thenJobs w;
     warnings := warnings w; calls := calls w |}.
Definition with_setObjs (h : list SetData) (w : World) : World :=
  {| limits := limits w; options := options w; listeners := listeners w;
     warned := warned w; setObjs := h;
     listenerData := listenerData w; promises := promises w;
     resultSets := resultSets w; thenJobs := thenJobs w;
     warnings := warnings w; calls := calls w |}.
Definition with_listenerData (m : gmap Listener ListenerData.t) (w : World)
  : World :=
  {| limits := limits w; options := options w; listeners := listeners w;
     warned := warned w; setObjs := setObjs w;
     listenerData := m; promises := promises w;
     resultSets := resultSets w; thenJobs := thenJobs w;
     warnings := warnings w; calls := calls w |}.
Definition with_promises (ps : list PromiseState) (w : World) : World :=
  {| limits := limits w; options := options w; listeners := listeners w;
     warned := warned w; setObjs := setObjs w;
     listenerData := listenerData w; promises := ps;
     resultSets := resultSets w; thenJobs := thenJobs w;
     warnings := warnings w; calls := calls w |}.
Definition with_resultSets (rs : list (list Val)) (w : World) : World :=
  {| limits := limits w; options := options w; listeners := listeners w;
     warned := warned w; setObjs := setObjs w;
     listenerData := listenerData w; promises := promises w;
     resultSets := rs; thenJobs := thenJobs w;
     warnings := warnings w; calls := calls w |}.
Definition with_thenJobs (js : list ThenJob) (w : World) : World :=
  {| limits := limits w; options := options w; listeners := listeners w;
     warned := warned w; setObjs := setObjs w;
     listenerData := listenerData w; promises := promises w;
     resultSets := resultSets w; thenJobs := js;
     warnings := warnings w; calls := calls w |}.
Definition with_warnings (ws : list Warning) (w : World) : World :=
  {| limits := limits w; options := options w; listeners := listeners w;
     warned := warned w; setObjs := setObjs w;
     listenerData := listenerData w; promises := promises w;
     resultSets := resultSets w; thenJobs := thenJobs w;
     warnings := ws; calls := calls w |}.
Definition with_calls (cs : list Call) (w : World) : World :=
  {| limits := limits w; options := options w; listeners := listeners w;
     warned := warned w; setObjs := setObjs w;
     listenerData := listenerData w; promises := promises w;
     resultSets := resultSets w; thenJobs := thenJobs w;
     warnings := warnings w; calls := cs |}.

Definition get_set (w : World) (loc : nat) : SetData :=
  default [] (setObjs w !! loc).

(** ** Construction *)

(** Modelled from the spec: [DefaultEmitterOptions] of
    [src/lib/util/DefaultOptions], which is not among the sources; the spec
    gives the one option [limitWarn] the default [true]. *)
Definition DefaultEmitterOptions : EmitterOptions :=
  {| limitWarn := Some true |}.

(** [handleEmitterOptions]: [emitterOptions || { ...DefaultEmitterOptions }],
    then [limitWarn] filled in when it is undefined. *)
Definition handleEmitterOptions (emitterOptions : option EmitterOptions)
  : EmitterOptions :=
  let options := default DefaultEmitterOptions emitterOptions in
  match limitWarn options with
  | None => {| limitWarn := Some true |}
  | Some _ => options
  end.

(** [new Emitter(emitterOptions, limits)] in a fresh heap. *)
Definition construct (emitterOptions : option EmitterOptions)
    (limits : option (gmap string Z)) : World :=
  {| limits := limits;
     options := handleEmitterOptions emitterOptions;
     listeners := ∅;
     warned := false;
     setObjs := [];
     listenerData := ∅;
     promises := [];
     resultSets := [];
     thenJobs := [];
     warnings := [];
     calls := [] |}.

(** ** The operations of the class *)

Section Emitter.

(** The functions of the host program. *)
Variable code : nat → Closure.

Definition source_of (l : Listener) : string :=
  match l with
  | UserFn f => source (code f)
  | AsyncFn _ => asyncSource
  end.

(** [String(listener)] for an optional listener. *)
Definition ToString (listener : option Listener) : string :=
  match listener with
  | None => "undefined"
  | Some l => source_of l
  end.

(** *** Registration *)

(** [if (!listener.listenerData) listener.listenerData = {};] *)
Definition ensure_listenerData (w : World) (listener : Listener) : World :=
  match listenerData w !! listener with
  | Some _ => w
  | None =>
      with_listenerData
        (<[listener := ListenerData.empty]> (listenerData w)) w
  end.

(** [Object.defineProperty(listener.listenerData, 'once', { value: flag })] *)
Definition define_once (flag : bool) (w : World) (listener : Listener)
  : Completion World :=
  match listenerData w !! listener with
  | None => Abrupt (TypeError "Object.defineProperty called on non-object")
  | Some d =>
      match defineProperty (ListenerData.once d) flag with
      | None => Abrupt (TypeError "Cannot redefine property: once")
      | Some s =>
          Normal (with_listenerData
                    (<[listener := ListenerData.with_once (Some s) d]>
                       (listenerData w)) w)
      end
  end.

(** [this.listeners.get(eventName)?.size] *)
Definition collection_size (w : World) (eventName : string) : option nat :=
  (λ loc, set_size (get_set w loc)) <$> listeners w !! eventName.

(** [limit > size] on numbers, [false] when either side is undefined. *)
Definition exceeds (limit : option Z) (size : option nat) : bool :=
  match limit, size with
  | Some n, Some k => bool_decide (Z.of_nat k < n)%Z
  | _, _ => false
  end.

(** [this.limits !== 'undefined']: [limits] is [undefined] or an object,
    and neither is strictly equal to a string. *)
Definition limits_guard (l : option (gmap string Z)) : bool :=
  match l with
  | None => true
  | Some _ => true
  end.

(** The [if] that closes [on] and [once], and their [return this]. *)
Definition limit_check (w : World) (eventName : string)
  : World * Completion unit :=
  if limits_guard (limits w) then
    match limits w with
    | None =>
        (w, Abrupt (TypeError "Cannot read properties of undefined"))
    | Some lim =>
        if exceeds (lim !! eventName) (collection_size w eventName)
           && negb (warned w)
           && default false (limitWarn (options w))
        then
          (with_warned true
             (with_warnings
                (warnings w ++
                   [{| warn_limit := default 0%Z (lim !! eventName);
                       warn_event := eventName |}]) w),
           Normal tt)
        else (w, Normal tt)
    end
  else (w, Normal tt).

(** The [if]/[else] that opens [on] ([flag = false]) and [once]
    ([flag = true]): the metadata write, then the insertion into a new or
    into the existing [Set]. *)
Definition store_listener (flag : bool) (w : World) (eventName : string)
    (listener : Listener) : World * Completion unit :=
  match listeners w !! eventName with
  | None =>
      let w0 := ensure_listenerData w listener in
      match define_once flag w0 listener with
      | Abrupt e => (w0, Abrupt e)
      | Normal w1 =>
          let loc := length (setObjs w1) in
          let w2 := with_setObjs (setObjs w1 ++ [[Some listener]]) w1 in
          (with_listeners (<[eventName := loc]> (listeners w2)) w2, Normal tt)
      end
  | Some loc =>
      let w0 := ensure_listenerData w listener in
      match define_once flag w0 listener with
      | Abrupt e => (w0, Abrupt e)
      | Normal w1 =>
          let w2 :=
            with_setObjs
              (<[loc := set_add listener (get_set w1 loc)]> (setObjs w1))
              w1 in
          (with_listeners (<[eventName := loc]> (listeners w2)) w2, Normal tt)
      end
  end.

(** The body shared by [on] and [once]. *)
Definition register (flag : bool) (w : World) (eventName : string)
    (listener : Listener) : World * Completion unit :=
  match store_listener flag w eventName listener with
  | (w2, Normal _) => limit_check w2 eventName
  | (w0, Abrupt e) => (w0, Abrupt e)
  end.

Definition on : World → string → Listener → World * Completion unit :=
  register false.

Definition once : World → string → Listener → World * Completion unit :=
  register true.

(** *** Removal *)

(** The [for ... of] loop of [off] over the live set: [k] entries remain
    to be visited from index [i]; a match deletes [listener], not the
    visited [callback]. *)
Fixpoint off_loop (k i : nat) (listener : option Listener) (s : SetData)
  : SetData :=
  match k with
  | 0 => s
  | S k' =>
      match s !! i with
      | Some (Some callback) =>
          off_loop k' (S i) listener
            (if bool_decide (ToString listener = ToString (Some callback))
             then set_delete listener s
             else s)
      | _ => off_loop k' (S i) listener s
      end
  end.

Definition off_world (w : World) (eventName : string)
    (listener : option Listener) : World :=
  match listeners w !! eventName with
  | Some loc =>
      let s := get_set w loc in
      let w1 :=
        with_setObjs
          (<[loc := off_loop (length s) 0 listener s]> (setObjs w)) w in
      if bool_decide (0 < set_size (get_set w1 loc))
      then with_listeners (<[eventName := loc]> (listeners w1)) w1
      else with_listeners (delete eventName (listeners w1)) w1
  | None => w
  end.

Definition off (w : World) (eventName : string)
    (listener : option Listener) : World * Completion unit :=
  (off_world w eventName listener, Normal tt).

(** *** Dispatch *)

(** [callback.listenerData?.suspended] *)
Definition is_suspended (w : World) (callback : Listener) : bool :=
  match listenerData w !! callback with
  | Some d => ListenerData.suspended d
  | None => false
  end.

(** [callback.listenerData?.once] *)
Definition is_once (w : World) (callback : Listener) : bool :=
  match listenerData w !! callback with
  | Some d => truthy (ListenerData.once d)
  | None => false
  end.

(** [listeners?.listenerData?.listened] *)
Definition is_listened (w : World) (callback : Listener) : bool :=
  match listenerData w !! callback with
  | Some d => truthy (ListenerData.listened d)
  | None => false
  end.

(** [Object.defineProperty(callback.listenerData, 'listened', { value: true })] *)
Definition define_listened (w : World) (callback : Listener)
  : Completion World :=
  match listenerData w !! callback with
  | None => Abrupt (TypeError "Object.defineProperty called on non-object")
  | Some d =>
      match defineProperty (ListenerData.listened d) true with
      | None => Abrupt (TypeError "Cannot redefine property: listened")
      | Some s =>
          Normal (with_listenerData
                    (<[callback := ListenerData.with_listened (Some s) d]>
                       (listenerData w)) w)
      end
  end.

(** The three statements [emit] runs once a result is in: directly for
    an immediate value, inside the [then] callback for a promise-like
    one. *)
Definition settle (w : World) (eventName : string) (callback : Listener)
    (callbackRes : Val) (returnVal : nat) : World * Completion unit :=
  match define_listened w callback with
  | Abrupt e => (w, Abrupt e)
  | Normal w1 =>
      let w2 :=
        if is_once w1 callback
        then fst (off w1 eventName (Some callback))
        else w1 in
      (with_resultSets
         (alter (result_add callbackRes) returnVal (resultSets w2)) w2,
       Normal tt)
  end.

(** [resolve(parameters)] of promise [p]: settles it if still pending. *)
Definition resolve (w : World) (p : nat) (parameters : list Val) : World :=
  match promises w !! p with
  | Some Pending =>
      with_promises (<[p := Fulfilled parameters]> (promises w)) w
  | _ => w
  end.

Definition reject (w : World) (p : nat) (e : Exn) : World :=
  match promises w !! p with
  | Some Pending => with_promises (<[p := Rejected e]> (promises w)) w
  | _ => w
  end.

(** [callback(...args)] *)
Definition call (w : World) (callback : Listener) (args : list Val)
  : World * Completion Val :=
  match callback with
  | UserFn f => (w, body (code f) args)
  | AsyncFn p => (resolve w p args, Normal VUndefined)
  end.

(** The [then] of the result of a call of [callback] with [args]; the
    arrow function of [onceAsync] returns [undefined], which has none. *)
Definition then_of (callback : Listener) (args : list Val) : ThenBehaviour :=
  match callback with
  | UserFn f => result_then (code f) args
  | AsyncFn _ => native_then
  end.

(** The callback of [emit] called [n] times in a row by a [then]. *)
Fixpoint settle_times (n : nat) (w : World) (eventName : string)
    (callback : Listener) (callbackRes : Val) (returnVal : nat)
  : World * Completion unit :=
  match n with
  | 0 => (w, Normal tt)
  | S n' =>
      match settle w eventName callback callbackRes returnVal with
      | (w1, Normal _) =>
          settle_times n' w1 eventName callback callbackRes returnVal
      | (w1, Abrupt e) => (w1, Abrupt e)
      end
  end.

(** [callbackRes.then(() => { ... })], called by [emit] inside its loop:
    the callback runs as often as [then] calls it on the spot, it is
    remembered as a pending continuation when [then] keeps it, and the
    exception of [then], if any, is the exception of the call. *)
Definition call_then (w : World) (eventName : string) (callback : Listener)
    (callbackRes : Val) (returnVal : nat) (b : ThenBehaviour)
  : World * Completion unit :=
  match settle_times (then_calls b) w eventName callback callbackRes
          returnVal with
  | (w1, Abrupt e) => (w1, Abrupt e)
  | (w1, Normal _) =>
      let w2 :=
        if then_keeps b
        then with_thenJobs
               (thenJobs w1 ++ [{| job_event := eventName;
                                   job_callback := callback;
                                   job_value := callbackRes;
                                   job_result := returnVal |}]) w1
        else w1 in
      match then_throws b with
      | Some e => (w2, Abrupt e)
      | None => (w2, Normal tt)
      end
  end.

(** One turn of the loop of [emit] on a visited [callback]. *)
Definition emit_body (w : World) (eventName : string) (args : list Val)
    (returnVal : nat) (callback : Listener) : World * Completion unit :=
  if is_suspended w callback then (w, Normal tt)
  else
    let invoked :=
      with_calls
        (calls w ++ [{| call_event := eventName;
                        call_listener := callback;
                        call_args := args |}]) w in
    match call invoked callback args with
    | (w1, Abrupt e) => (w1, Abrupt e)
    | (w1, Normal callbackRes) =>
        if isPromiseLike callbackRes
        then call_then w1 eventName callback callbackRes returnVal
               (then_of callback args)
        else settle w1 eventName callback callbackRes returnVal
    end.

(** The [for ... of] loop of [emit] over the live [Set] object at [loc]:
    [k] entries remain to be visited from index [i].  The set is read
    from the heap at every turn, so removals made by [off] during the
    loop are seen; holes are passed over. *)
Fixpoint emit_loop (k i loc : nat) (w : World) (eventName : string)
    (args : list Val) (returnVal : nat) : World * Completion unit :=
  match k with
  | 0 => (w, Normal tt)
  | S k' =>
      match get_set w loc !! i with
      | Some (Some callback) =>
          match emit_body w eventName args returnVal callback with
          | (w', Normal _) =>
              emit_loop k' (S i) loc w' eventName args returnVal
          | (w', Abrupt e) => (w', Abrupt e)
          end
      | _ => emit_loop k' (S i) loc w eventName args returnVal
      end
  end.

(** [emit] returns a reference to the result set it allocated. *)
Definition emit (w : World) (eventName : string) (args : list Val)
  : World * Completion nat :=
  let returnVal := length (resultSets w) in
  let w0 := with_resultSets (resultSets w ++ [[]]) w in
  match listeners w0 !! eventName with
  | Some loc =>
      match emit_loop (length (get_set w0 loc)) 0 loc w0 eventName args
              returnVal with
      | (w', Normal _) => (w', Normal returnVal)
      | (w', Abrupt e) => (w', Abrupt e)
      end
  | None => (w0, Normal returnVal)
  end.

(** The [then] callback of the [k]-th pending promise-like result runs:
    the promise has been fulfilled, or the object that kept the callback
    calls it. *)
Definition run_then (w : World) (k : nat) : World * Completion unit :=
  match thenJobs w !! k with
  | Some j =>
      settle (with_thenJobs (delete k (thenJobs w)) w)
        (job_event j) (job_callback j) (job_value j) (job_result j)
  | None => (w, Normal tt)
  end.

(** *** [onceAsync] *)

(** The promise executor runs [this.once] with a fresh arrow function; an
    exception inside the executor rejects the promise. *)
Definition onceAsync (w : World) (eventName : string)
  : World * Completion nat :=
  let p := length (promises w) in
  let w0 := with_promises (promises w ++ [Pending]) w in
  match once w0 eventName (AsyncFn p) with
  | (w1, Normal _) => (w1, Normal p)
  | (w1, Abrupt e) => (reject w1 p e, Normal p)
  end.

(** *** Introspection *)

Definition hasListener (w : World) (eventName : string)
    (callback : option Listener) : bool :=
  match callback with
  | None => bool_decide (is_Some (listeners w !! eventName))
  | Some _ =>
      match listeners w !! eventName with
      | Some loc =>
          bool_decide
            (Exists (λ listener, ToString (Some listener) = ToString callback)
               (set_values (get_set w loc)))
      | None => false
      end
  end.

Definition isListened (w : World) (eventName : string) : bool :=
  match listeners w !! eventName with
  | Some loc =>
      bool_decide
        (Exists (λ l, is_listened w l = true) (set_values (get_set w loc)))
  | None => false
  end.

(** The sum of the sizes of all collections. *)
Definition total_count (w : World) : nat :=
  map_fold (λ _ loc listenerCount, listenerCount + set_size (get_set w loc))
    0 (listeners w).

(** [eventName] is [None] when the argument is left out; the branch is
    taken on its truthiness, and the empty string is falsy. *)
Definition listenerCount (w : World) (eventName : option string) : nat :=
  match eventName with
  | Some name =>
      if bool_decide (name ≠ "")
      then
        match listeners w !! name with
        | Some loc => set_size (get_set w loc)
        | None => 0
        end
      else total_count w
  | None => total_count w
  end.

(** ** Histories *)

(** The host sets [listener.listenerData.suspended]; nothing in the class
    writes that field. *)
Definition set_suspended (w : World) (listener : Listener) (b : bool)
  : World :=
  with_listenerData
    (<[listener :=
         ListenerData.with_suspended b
           (default ListenerData.empty (listenerData w !! listener))]>
       (listenerData w)) w.

Inductive Op :=
| OpOn (eventName : string) (listener : Listener)
| OpOnce (eventName : string) (listener : Listener)
| OpOnceAsync (eventName : string)
| OpOff (eventName : string) (listener : option Listener)
| OpEmit (eventName : string) (args : list Val)
| OpThen (k : nat)
| OpHasListener (eventName : string) (callback : option Listener)
| OpIsListened (eventName : string)
| OpListenerCount (eventName : option string)
| OpSuspend (listener : Listener) (b : bool).

(** The world after one operation, however it completed: an exception
    reaches the host, which may catch it and go on. *)
Definition step (w : World) (op : Op) : World :=
  match op with
  | OpOn eventName listener => fst (on w eventName listener)
  | OpOnce eventName listener => fst (once w eventName listener)
  | OpOnceAsync eventName => fst (onceAsync w eventName)
  | OpOff eventName listener => fst (off w eventName listener)
  | OpEmit eventName args => fst (emit w eventName args)
  | OpThen k => fst (run_then w k)
  | OpHasListener _ _ => w
  | OpIsListened _ => w
  | OpListenerCount _ => w
  | OpSuspend listener b => set_suspended w listener b
  end.

Definition run (w : World) (ops : list Op) : World :=
  foldl step w ops.

End Emitter.


(** ** Notions the statements use *)

Section Notions.

Variable code : nat → Closure.

(** The live members of the collection registered under a name, in
    insertion order; empty when the name is not a key. *)
Definition collection (w : World) (eventName : string) : list Listener :=
  match listeners w !! eventName with
  | Some loc => set_values (get_set w loc)
  | None => []
  end.

(** No two names share a [Set] object, and every key maps to a non-empty
    collection. *)
Definition registry_ok (w : World) : Prop :=
  (∀ n1 n2 loc,
     listeners w !! n1 = Some loc → listeners w !! n2 = Some loc → n1 = n2)
  ∧ (∀ n loc, listeners w !! n = Some loc → 0 < set_size (get_set w loc)).

(** The [once] property of a function object. *)
Definition once_slot (w : World) (l : Listener) : option Slot :=
  listenerData w !! l ≫= ListenerData.once.

(** The [listened] property of a function object. *)
Definition listened_slot (w : World) (l : Listener) : option Slot :=
  listenerData w !! l ≫= ListenerData.listened.

(** What a call of a listener returns or throws; it does not depend on the
    world. *)
Definition outcome (l : Listener) (args : list Val) : Completion Val :=
  match l with
  | UserFn f => body (code f) args
  | AsyncFn _ => Normal VUndefined
  end.

(** During [emit] on the [Set] at [loc]: the name still maps to that set,
    or the set has been emptied and the name deleted. *)
Definition still_registered (eventName : string) (loc : nat) (w : World)
  : Prop :=
  listeners w !! eventName = Some loc
  ∨ (listeners w !! eventName = None ∧ set_size (get_set w loc) = 0).

(** [emit] can record a result for the listener: its [listenerData] exists
    and [listened] can be defined as [true]. *)
Definition recordable (w : World) (l : Listener) : Prop :=
  ∃ d, listenerData w !! l = Some d
       ∧ defineProperty (ListenerData.listened d) true ≠ None.

(** The listener returns on [args] and [emit] can then record it. *)
Definition runs (w : World) (args : list Val) (l : Listener) : Prop :=
  (∃ v, outcome l args = Normal v) ∧ recordable w l.

(** Whether the result of a call is settled (marked, removed if one-time,
    added to the result set) before [emit] goes on: an immediate value
    always, a promise-like one when its [then] runs the callback on the
    spot; nothing is settled for a listener that throws. *)
Definition settles_now (l : Listener) (args : list Val) : bool :=
  match outcome l args with
  | Normal v =>
      if isPromiseLike v
      then bool_decide (0 < then_calls (then_of code l args))
      else true
  | Abrupt _ => false
  end.

(** [emit] removes a listener it visits when the listener is not
    suspended, its [once] is truthy and its result is settled on the
    spot. *)
Definition removes (w : World) (args : list Val) (l : Listener) : bool :=
  negb (is_suspended w l) && is_once w l && settles_now l args.

(** The listener returns on [args], [emit] can record its result, and the
    [then] of a promise-like result does not throw. *)
Definition completes (w : World) (args : list Val) (l : Listener) : Prop :=
  runs w args l
  ∧ ∀ v, outcome l args = Normal v → isPromiseLike v = true →
         then_throws (then_of code l args) = None.

(** The call of the listener on [args] returns and, when its result is
    promise-like, so does the [then] of the result. *)
Definition returns (args : list Val) (l : Listener) : Prop :=
  ∃ v, outcome l args = Normal v
       ∧ (isPromiseLike v = true → then_throws (then_of code l args) = None).

(** How a turn of the loop of [emit] ends on a listener it calls and whose
    result it can record: with the exception of the listener, with the
    exception of the [then] of its promise-like result, or normally. *)
Definition turn_end (l : Listener) (args : list Val) : Completion unit :=
  match outcome l args with
  | Normal v =>
      if isPromiseLike v
      then match then_throws (then_of code l args) with
           | Some e => Abrupt e
           | None => Normal tt
           end
      else Normal tt
  | Abrupt e => Abrupt e
  end.

(** An entry of the [Set] after [emit] has visited it. *)
Definition after_emit (w : World) (args : list Val) (entry : option Listener)
  : option Listener :=
  match entry with
  | Some l => if removes w args l then None else Some l
  | None => None
  end.

(** The listeners [emit] invokes: the members that are not suspended. *)
Definition active (w : World) (ls : list Listener) : list Listener :=
  filter (λ l, is_suspended w l = false) ls.

(** The calls of [l] for event [e] in a log. *)
Definition calls_of (e : string) (l : Listener) (cs : list Call) : nat :=
  length (filter (λ c, call_event c = e ∧ call_listener c = l) cs).



(** The promises after a call of [l] with [args]: the arrow function of
    [onceAsync] resolves its promise if that is still pending. *)
Definition resolved_by (args : list Val) (ps : list PromiseState)
    (l : Listener) : list PromiseState :=
  match l with
  | AsyncFn p =>
      match ps !! p with
      | Some Pending => <[p := Fulfilled args]> ps
      | _ => ps
      end
  | UserFn _ => ps
  end.

(** What registration and dispatch maintain of the heap: no [Set] holds a
    listener twice, every [listened] property can be defined as [true], and
    every member of a [Set] has its [listenerData]. *)
Definition heap_ok (w : World) : Prop :=
  (∀ loc, NoDup (set_values (get_set w loc)))
  ∧ (∀ l d, listenerData w !! l = Some d →
            defineProperty (ListenerData.listened d) true ≠ None)
  ∧ (∀ loc l, Some l ∈ get_set w loc → is_Some (listenerData w !! l)).

(** The results of the listeners [ls] that are settled on the spot. *)
Definition settled_results (args : list Val) (ls : list Listener)
  : list Val :=
  omap (λ l, match outcome l args with
             | Normal v => if settles_now l args then Some v else None
             | Abrupt _ => None
             end) ls.

(** A result set built by adding [vs] in order to [r]. *)
Definition add_all (vs : list Val) (r : list Val) : list Val :=
  foldl (λ acc v, result_add v acc) r vs.

End Notions.

(** ** Elementary mutations *)

Section Mutations.

Variable code : nat → Closure.

(** The writes [emit], [off] and the [then] callbacks are made of. *)
Inductive dispatch_mutation : World → World → Prop :=
| mut_call w c :
    dispatch_mutation w (with_calls (calls w ++ [c]) w)
| mut_resolve w p parameters :
    dispatch_mutation w (resolve w p parameters)
| mut_jobs w js :
    dispatch_mutation w (with_thenJobs js w)
| mut_results w rs :
    dispatch_mutation w (with_resultSets rs w)
| mut_listened w callback w' :
    define_listened w callback = Normal w' → dispatch_mutation w w'
| mut_off w eventName listener :
    dispatch_mutation w (off_world code w eventName listener).

(** Every write of the class, and the host's write of [suspended]. *)
Inductive mutation : World → World → Prop :=
| mut_dispatch w w' :
    dispatch_mutation w w' → mutation w w'
| mut_new_promise w :
    mutation w (with_promises (promises w ++ [Pending]) w)
| mut_reject w p e :
    mutation w (reject w p e)
| mut_ensure w listener :
    mutation w (ensure_listenerData w listener)
| mut_once flag w listener w' :
    define_once flag w listener = Normal w' → mutation w w'
| mut_new_set w eventName listener :
    listeners w !! eventName = None →
    is_Some (listenerData w !! listener) →
    mutation w
      (with_listeners (<[eventName := length (setObjs w)]> (listeners w))
         (with_setObjs (setObjs w ++ [[Some listener]]) w))
| mut_add w eventName loc listener :
    listeners w !! eventName = Some loc →
    is_Some (listenerData w !! listener) →
    mutation w
      (with_listeners (<[eventName := loc]> (listeners w))
         (with_setObjs
            (<[loc := set_add listener (get_set w loc)]> (setObjs w)) w))
| mut_warn w m :
    warned w = false →
    mutation w (with_warned true (with_warnings (warnings w ++ [m]) w))
| mut_suspend w listener b :
    mutation w (set_suspended w listener b).

(** Operations that register nothing. *)
Definition registers (op : Op) : bool :=
  match op with
  | OpOn _ _ | OpOnce _ _ | OpOnceAsync _ => true
  | _ => false
  end.

End Mutations.

(** ** Notions for warnings, delivery and pending results *)

(** A warning as the check that closes [on] and [once] emits it in world
    [w]: warnings are switched on, and the event has a limit, which the
    message carries and which is greater than 1. *)
Definition configured_warning (w : World) (m : Warning) : Prop :=
  limitWarn (options w) = Some true
  ∧ ∃ lim, limits w = Some lim
           ∧ lim !! warn_event m = Some (warn_limit m)
           ∧ (1 < warn_limit m)%Z.

(** The operations that run listeners or their [then] callbacks. *)
Definition delivers (op : Op) : bool :=
  match op with
  | OpEmit _ _ | OpThen _ => true
  | _ => false
  end.

(** The continuation that stays pending after a call whose result is
    promise-like and whose [then] keeps the callback; none for an immediate
    value or an exception. *)
Definition job_of (code : nat → Closure) (returnVal : nat) (c : Call)
  : option ThenJob :=
  match outcome code (call_listener c) (call_args c) with
  | Normal v =>
      if isPromiseLike v
         && then_keeps (then_of code (call_listener c) (call_args c))
      then Some {| job_event := call_event c; job_callback := call_listener c;
                   job_value := v; job_result := returnVal |}
      else None
  | Abrupt _ => None
  end.

(** Case analysis on an elementary mutation. *)
Ltac mutation_cases H :=
  let Hd := fresh "Hd" in
  let Hm := fresh "Hm" in
  destruct H as
    [w w' Hd|w|w p e|w l|flag w l w' Hd|w n l Hd Hm|w n loc l Hd Hm|w m Hd
    |w l b];
  [destruct Hd as [w c|w p ps|w js|w rs|w cb w' Hd|w n l]|..].

(** ** Sample programs *)

(** Seven host functions: the two listeners of the README, two distinct
    arrow functions with the same text, one returning a native promise, one
    returning an object whose [then] calls its argument on the spot, one
    returning an object whose [then] throws; every other index is a
    function that throws. *)
Definition demo_code (f : nat) : Closure :=
  match f with
  | 0 => {| source := "(food) => { console.log(food); return 'doner' }";
            body := λ _, Normal (VStr "doner");
            result_then := λ _, native_then |}
  | 1 => {| source := "(food) => { console.log(food); return 'kebab' }";
            body := λ _, Normal (VStr "kebab");
            result_then := λ _, native_then |}
  | 2 => {| source := "() => 1"; body := λ _, Normal (VNum 1);
            result_then := λ _, native_then |}
  | 3 => {| source := "() => 1"; body := λ _, Normal (VNum 1);
            result_then := λ _, native_then |}
  | 4 => {| source := "async () => {}"; body := λ _, Normal (VThenable 0);
            result_then := λ _, native_then |}
  | 5 => {| source := "() => ({ then(cb) { cb() } })";
            body := λ _, Normal (VThenable 1);
            result_then := λ _, {| then_calls := 1; then_keeps := false;
                                   then_throws := None |} |}
  | 6 => {| source := "() => ({ then() { throw 0 } })";
            body := λ _, Normal (VThenable 2);
            result_then := λ _, {| then_calls := 0; then_keeps := false;
                                   then_throws := Some (Thrown (VNum 0)) |} |}
  | _ => {| source := "() => { throw 0 }";
            body := λ _, Abrupt (Thrown (VNum 0));
            result_then := λ _, native_then |}
  end.

(** [new Emitter()] *)
Definition bare : World := construct None None.

(** [new Emitter({ limitWarn: true }, {})] *)
Definition unlimited : World :=
  construct (Some {| limitWarn := Some true |}) (Some ∅).

(** [new Emitter({ limitWarn: true }, { foo: n })] *)
Definition limited (n : Z) : World :=
  construct (Some {| limitWarn := Some true |}) (Some {[ "foo" := n ]}).

(** The README's program up to its [emit]: two listeners on "foo". *)
Definition readme_world : World :=
  run demo_code (limited 5) [OpOn "foo" (UserFn 0); OpOn "foo" (UserFn 1)].

(** Two one-time listeners with the same text, then a plain one. *)
Definition twins_world : World :=
  run demo_code unlimited
    [OpOnce "foo" (UserFn 2); OpOnce "foo" (UserFn 3); OpOn "foo" (UserFn 0)].

(** * Properties *)

(** ** [Set] objects *)

Lemma set_delete_length x s : length (set_delete x s) = length s.
Proof. destruct x; simpl; [apply length_fmap | done]. Qed.

Lemma set_delete_lookup l (s : SetData) i :
  set_delete (Some l) s !! i
  = (λ e, if bool_decide (e = Some l) then None else e) <$> s !! i.
Proof. apply list_lookup_fmap. Qed.

Lemma set_delete_idem x s : set_delete x (set_delete x s) = set_delete x s.
Proof.
  destruct x as [l|]; simpl; [|done].
  rewrite <- list_fmap_compose. apply list_fmap_ext.
  intros i e _. simpl. destruct (decide (e = Some l)) as [->|Hne].
  - rewrite (bool_decide_eq_true_2 (Some l = Some l)) by done.
    by case_bool_decide.
  - by rewrite !(bool_decide_eq_false_2 _ Hne).
Qed.

Lemma set_delete_absent l (s : SetData) :
  Some l ∉ s → set_delete (Some l) s = s.
Proof.
  intros H. simpl. rewrite <- (list_fmap_id s) at 2.
  apply list_fmap_ext. intros i e He. simpl.
  case_bool_decide; [|done]. subst e.
  exfalso. apply H. eapply list_elem_of_lookup_2, He.
Qed.

Lemma set_values_delete l (s : SetData) :
  set_values (set_delete (Some l) s) = filter (λ x, x ≠ l) (set_values s).
Proof.
  unfold set_values. induction s as [|[x|] s IH]; simpl; [done| |done].
  case_bool_decide as Hx.
  - inversion Hx; subst. rewrite filter_cons_False by (intros ?; done). done.
  - rewrite filter_cons_True by congruence. simpl. by f_equal.
Qed.

Lemma elem_of_set_values l (s : SetData) : l ∈ set_values s ↔ Some l ∈ s.
Proof.
  unfold set_values. rewrite list_elem_of_omap. split.
  - intros ([x|] & Hin & Hx); simpl in Hx; by simplify_eq.
  - intros Hin. exists (Some l). done.
Qed.

Lemma set_delete_not_elem l (s : SetData) : Some l ∉ set_delete (Some l) s.
Proof.
  rewrite <- elem_of_set_values, set_values_delete, list_elem_of_filter.
  by intros [? _].
Qed.

Lemma set_delete_elem l x (s : SetData) :
  Some x ∈ set_delete (Some l) s ↔ x ≠ l ∧ Some x ∈ s.
Proof.
  rewrite <- !elem_of_set_values, set_values_delete, list_elem_of_filter.
  done.
Qed.

Lemma set_values_add l (s : SetData) :
  set_values (set_add l s)
  = if bool_decide (l ∈ set_values s) then set_values s
    else set_values s ++ [l].
Proof.
  unfold set_add, set_has.
  rewrite (bool_decide_ext _ _ (elem_of_set_values l s)).
  case_bool_decide; [done|].
  unfold set_values. by rewrite omap_app.
Qed.

Lemma set_size_add_pos l s : 0 < set_size (set_add l s).
Proof.
  unfold set_size. rewrite set_values_add.
  case_bool_decide as H.
  - destruct (set_values s); [by apply elem_of_nil in H | simpl; lia].
  - rewrite length_app. simpl. lia.
Qed.

Lemma set_values_add_NoDup l s :
  NoDup (set_values s) → NoDup (set_values (set_add l s)).
Proof.
  intros H. rewrite set_values_add. case_bool_decide as Hin; [done|].
  apply list.NoDup_app. split_and!; [done| |apply NoDup_singleton].
  intros x Hx Hx'. apply list_elem_of_singleton in Hx'. by subst.
Qed.

(** ** The loop of [off] *)

Section OffLoop.

Variable code : nat → Closure.

Lemma off_loop_omitted k i s : off_loop code k i None s = s.
Proof.
  revert i. induction k as [|k IH]; intros i; simpl; [done|].
  destruct (s !! i) as [[callback|]|]; [|done..].
  case_bool_decide; apply IH.
Qed.

Lemma off_loop_settled k i l s :
  off_loop code k i (Some l) (set_delete (Some l) s) = set_delete (Some l) s.
Proof.
  revert i. induction k as [|k IH]; intros i; [done|].
  cbn [off_loop].
  destruct (set_delete (Some l) s !! i) as [[callback|]|]; [|done..].
  case_bool_decide; [|done]. by rewrite set_delete_idem.
Qed.

Lemma off_loop_from k i l (s : SetData) :
  i + k = length s → Some l ∉ take i s →
  off_loop code k i (Some l) s = set_delete (Some l) s.
Proof.
  revert i. induction k as [|k IH]; intros i Hlen Hpre.
  - rewrite take_ge in Hpre by lia. cbn [off_loop].
    by rewrite set_delete_absent.
  - cbn [off_loop].
    destruct (lookup_lt_is_Some_2 s i) as [e He]; [lia|]. rewrite He.
    assert (Hnext : e ≠ Some l → Some l ∉ take (S i) s).
    { intros Hne. rewrite (take_S_r _ _ _ He), elem_of_app, list_elem_of_singleton.
      intros [?|?]; [done|congruence]. }
    destruct e as [callback|]; [|apply IH; [lia | by apply Hnext]].
    case_bool_decide as Hsrc; [apply off_loop_settled|].
    apply IH; [lia|]. apply Hnext. intros [= ->]. done.
Qed.

(** The loop as a whole deletes the supplied listener by reference, and
    nothing else. *)
Lemma off_loop_delete listener (s : SetData) :
  off_loop code (length s) 0 listener s = set_delete listener s.
Proof.
  destruct listener as [l|]; [|apply off_loop_omitted].
  apply off_loop_from; [done|]. rewrite take_0. apply not_elem_of_nil.
Qed.

End OffLoop.

(** ** The heap of [Set] objects *)

Lemma get_set_alloc w s loc :
  get_set (with_setObjs (setObjs w ++ [s]) w) loc
  = if decide (loc = length (setObjs w)) then s else get_set w loc.
Proof.
  unfold get_set; simpl. case_decide as Hloc.
  - subst. by rewrite list_lookup_middle.
  - destruct (decide (loc < length (setObjs w))).
    + by rewrite lookup_app_l.
    + rewrite !lookup_ge_None_2; [done|lia|rewrite length_app; simpl; lia].
Qed.

Lemma get_set_store w loc loc' s :
  get_set (with_setObjs (<[loc := s]> (setObjs w)) w) loc'
  = if decide (loc = loc' ∧ loc < length (setObjs w)) then s
    else get_set w loc'.
Proof.
  unfold get_set; simpl. case_decide as H.
  - destruct H as [-> ?]. by rewrite list_lookup_insert_eq.
  - destruct (decide (loc = loc')) as [->|].
    + by rewrite list_insert_ge by lia.
    + by rewrite list_lookup_insert_ne.
Qed.

Lemma get_set_store_delete w loc x :
  get_set (with_setObjs (<[loc := set_delete x (get_set w loc)]> (setObjs w)) w)
    loc
  = set_delete x (get_set w loc).
Proof.
  rewrite get_set_store. case_decide as H; [done|].
  unfold get_set. rewrite lookup_ge_None_2.
  2:{ destruct (decide (loc < length (setObjs w))); [|lia]. by destruct H. }
  by destruct x.
Qed.

Lemma store_same w loc :
  <[loc := get_set w loc]> (setObjs w) = setObjs w.
Proof.
  unfold get_set. destruct (setObjs w !! loc) as [s|] eqn:E; simpl.
  - by apply list_insert_id.
  - apply list_insert_ge. by apply lookup_ge_None.
Qed.

Lemma set_size_pos_lookup w loc :
  0 < set_size (get_set w loc) → loc < length (setObjs w).
Proof.
  unfold get_set. intros H. apply lookup_lt_is_Some.
  destruct (setObjs w !! loc); [done|]. simpl in H. unfold set_size in H.
  simpl in H. lia.
Qed.

(** ** [off] on the world *)

Section OffWorld.

Variable code : nat → Closure.

(** [off] with its loop read as one deletion. *)
Lemma off_world_delete w eventName listener :
  off_world code w eventName listener
  = match listeners w !! eventName with
    | Some loc =>
        let s := set_delete listener (get_set w loc) in
        with_listeners
          (if bool_decide (0 < set_size s)
           then <[eventName := loc]> (listeners w)
           else delete eventName (listeners w))
          (with_setObjs (<[loc := s]> (setObjs w)) w)
    | None => w
    end.
Proof.
  unfold off_world. destruct (listeners w !! eventName) as [loc|]; [|done].
  cbv zeta. rewrite off_loop_delete, get_set_store_delete.
  by case_bool_decide.
Qed.

Lemma off_world_frame w eventName listener :
  let w' := off_world code w eventName listener in
  limits w' = limits w ∧ options w' = options w ∧ warned w' = warned w
  ∧ listenerData w' = listenerData w ∧ promises w' = promises w
  ∧ resultSets w' = resultSets w ∧ thenJobs w' = thenJobs w
  ∧ warnings w' = warnings w ∧ calls w' = calls w
  ∧ length (setObjs w') = length (setObjs w).
Proof.
  cbv zeta. rewrite off_world_delete.
  destruct (listeners w !! eventName) as [loc|]; [|done].
  cbv zeta. case_bool_decide; simpl; by rewrite length_insert.
Qed.

Lemma off_world_listeners w eventName listener n :
  listeners (off_world code w eventName listener) !! n
  = if decide (n = eventName)
    then match listeners w !! eventName with
         | Some loc =>
             if bool_decide
                  (0 < set_size (set_delete listener (get_set w loc)))
             then Some loc else None
         | None => None
         end
    else listeners w !! n.
Proof.
  rewrite off_world_delete.
  destruct (listeners w !! eventName) as [loc|] eqn:E.
  - cbv zeta. case_bool_decide; simpl; case_decide; subst;
      by rewrite ?lookup_insert_eq, ?lookup_insert_ne, ?lookup_delete_eq,
                 ?lookup_delete_ne.
  - case_decide; by subst.
Qed.

Lemma off_world_get_set w eventName listener loc' :
  get_set (off_world code w eventName listener) loc'
  = if decide (listeners w !! eventName = Some loc')
    then set_delete listener (get_set w loc')
    else get_set w loc'.
Proof.
  rewrite off_world_delete.
  destruct (listeners w !! eventName) as [loc|] eqn:E.
  - cbv zeta.
    assert (get_set
              (with_setObjs
                 (<[loc := set_delete listener (get_set w loc)]> (setObjs w)) w)
              loc'
            = if decide (Some loc = Some loc')
              then set_delete listener (get_set w loc') else get_set w loc')
      as Hget.
    { case_decide as Hl.
      - injection Hl as ->. apply get_set_store_delete.
      - rewrite get_set_store. case_decide as H'; [|done].
        destruct H' as [-> _]. done. }
    case_bool_decide; exact Hget.
  - by case_decide.
Qed.

End OffWorld.

(** ** Removal: what [off] does to the registry *)

(** C5: [off] evaluated where the claimed removal rule and the code part.
    Two distinct listeners [f] and [g] with the same source text are
    registered under "foo".  [off("foo", f)] compares the text of every
    member with the text of [f], yet each match deletes the reference [f]
    and not the matching member: [g], whose string representation equals
    that of [f], stays in the collection, and [hasListener("foo", f)], which
    uses the same text comparison, still answers [true].  With only [g]
    registered, [off("foo", f)] meets a member of equal text and removes
    nothing. *)
Lemma off_keeps_equal_text_member :
  let f := UserFn 2 in
  let g := UserFn 3 in
  let w := run demo_code unlimited [OpOn "foo" f; OpOn "foo" g] in
  let w' := fst (off demo_code w "foo" (Some f)) in
  let v := run demo_code unlimited [OpOn "foo" g] in
  ToString demo_code (Some g) = ToString demo_code (Some f)
  ∧ collection w "foo" = [f; g]
  ∧ collection w' "foo" = [g]
  ∧ hasListener demo_code w' "foo" (Some f) = true
  ∧ collection (fst (off demo_code v "foo" (Some f))) "foo" = [g].
Proof. vm_compute. repeat split; reflexivity. Qed.

(** What [off] does, in every world: [off(name, listener)] completes
    normally, returning the dispatcher, and the collection of [name] loses
    exactly the supplied reference: every other member stays, in order,
    whatever its text.  The name stays a key exactly when members remain;
    other names keep their entry.  When no collection exists for the name,
    or when the listener is omitted (on a non-empty collection), the world
    is unchanged. *)
Theorem off_removes_by_reference (code : nat → Closure) w eventName listener :
  let w' := off_world code w eventName listener in
  off code w eventName listener = (w', Normal tt)
  ∧ collection w' eventName
    = match listener with
      | Some l => filter (λ x, x ≠ l) (collection w eventName)
      | None => collection w eventName
      end
  ∧ (is_Some (listeners w' !! eventName) ↔ collection w' eventName ≠ [])
  ∧ (∀ n, n ≠ eventName → listeners w' !! n = listeners w !! n)
  ∧ (listeners w !! eventName = None → w' = w)
  ∧ (listener = None → collection w eventName ≠ [] → w' = w).
Proof.
  cbv zeta. split; [done|].
  assert (Hcoll : collection (off_world code w eventName listener) eventName
                  = set_values (set_delete listener
                                  (default [] (get_set w <$> listeners w !! eventName)))).
  { unfold collection. rewrite off_world_listeners, decide_True by done.
    destruct (listeners w !! eventName) as [loc|] eqn:E; simpl.
    - case_bool_decide as Hsz.
      + by rewrite off_world_get_set, decide_True.
      + unfold set_size in Hsz.
        destruct (set_values (set_delete listener (get_set w loc)));
          [done | simpl in Hsz; lia].
    - by destruct listener. }
  split_and!.
  - rewrite Hcoll. unfold collection.
    destruct (listeners w !! eventName) as [loc|]; simpl.
    + destruct listener as [l|]; [apply set_values_delete | done].
    + destruct listener as [l|]; done.
  - rewrite Hcoll, off_world_listeners, decide_True by done.
    destruct (listeners w !! eventName) as [loc|]; simpl.
    + unfold set_size. case_bool_decide as Hsz.
      * split; [|by eauto]. intros _ Hnil. rewrite Hnil in Hsz. simpl in Hsz. lia.
      * split; [by intros [? [=]]|]. intros Hne.
        destruct (set_values (set_delete listener (get_set w loc)));
          [done | simpl in Hsz; lia].
    + split; [by intros [? [=]]|]. by destruct listener.
  - intros n Hn. by rewrite off_world_listeners, decide_False.
  - intros E. unfold off_world. by rewrite E.
  - intros -> Hne. rewrite off_world_delete. unfold collection in Hne.
    destruct (listeners w !! eventName) as [loc|] eqn:E; [|done].
    cbv zeta. simpl set_delete. rewrite store_same.
    rewrite bool_decide_eq_true_2.
    + rewrite insert_id by done. by destruct w.
    + unfold set_size. destruct (set_values (get_set w loc)); [done|simpl; lia].
Qed.

(** ** Counting *)

(** With one listener under the empty name and two under "foo", the count
    for the empty name is 3, not the 1 of its own collection. *)
Example listenerCount_empty_name_total :
  let w := run demo_code unlimited
             [OpOn "" (UserFn 0); OpOn "foo" (UserFn 0); OpOn "foo" (UserFn 1)] in
  listenerCount w (Some "") = 3 ∧ length (collection w "") = 1
  ∧ listenerCount w (Some "foo") = 2.
Proof. vm_compute. done. Qed.

(** ** The metadata writes *)

Lemma define_listened_inv w callback w' :
  define_listened w callback = Normal w' →
  ∃ d s, listenerData w !! callback = Some d
         ∧ defineProperty (ListenerData.listened d) true = Some s
         ∧ w' = with_listenerData
                  (<[callback := ListenerData.with_listened (Some s) d]>
                     (listenerData w)) w.
Proof.
  unfold define_listened. intros H.
  destruct (listenerData w !! callback) as [d|]; [|done].
  destruct (defineProperty (ListenerData.listened d) true) as [s|] eqn:E;
    [|done].
  injection H as <-. eauto.
Qed.

Lemma define_once_inv flag w listener w' :
  define_once flag w listener = Normal w' →
  ∃ d s, listenerData w !! listener = Some d
         ∧ defineProperty (ListenerData.once d) flag = Some s
         ∧ w' = with_listenerData
                  (<[listener := ListenerData.with_once (Some s) d]>
                     (listenerData w)) w.
Proof.
  unfold define_once. intros H.
  destruct (listenerData w !! listener) as [d|]; [|done].
  destruct (defineProperty (ListenerData.once d) flag) as [s|] eqn:E; [|done].
  injection H as <-. eauto.
Qed.

Lemma defineProperty_frozen s v s' :
  frozen s = true → defineProperty (Some s) v = Some s' → s' = s.
Proof.
  unfold defineProperty. intros ->. case_bool_decide; congruence.
Qed.

Lemma defineProperty_true_again cur s :
  defineProperty cur true = Some s → defineProperty (Some s) true ≠ None.
Proof.
  unfold defineProperty. destruct cur as [[v [|]]|]; simpl.
  - case_bool_decide; [|done]. intros [= <-]. simpl.
    by rewrite bool_decide_eq_true_2.
  - by intros [= <-].
  - by intros [= <-].
Qed.

(** ** The callback of [emit] is idempotent *)

Lemma defineProperty_true_fix cur s :
  defineProperty cur true = Some s → defineProperty (Some s) true = Some s.
Proof.
  unfold defineProperty. destruct cur as [[v [|]]|]; simpl.
  - case_bool_decide; [|done]. intros [= <-]. simpl.
    by rewrite bool_decide_eq_true_2.
  - by intros [= <-].
  - by intros [= <-].
Qed.

Lemma result_add_idem v r : result_add v (result_add v r) = result_add v r.
Proof.
  unfold result_add. destruct (decide (v ∈ r)) as [Hv|Hv].
  - by rewrite !(bool_decide_eq_true_2 _ Hv).
  - rewrite (bool_decide_eq_false_2 _ Hv).
    rewrite bool_decide_eq_true_2; [done|]. apply elem_of_app. right. left.
Qed.

Lemma with_listenerData_same w : with_listenerData (listenerData w) w = w.
Proof. by destruct w. Qed.

Lemma with_resultSets_same w : with_resultSets (resultSets w) w = w.
Proof. by destruct w. Qed.

Section Idempotent.

Variable code : nat → Closure.

(** [off] of a listener that is not in the collection changes nothing. *)
Lemma off_world_absent w eventName l :
  (∀ loc, listeners w !! eventName = Some loc →
          (Some l ∉ get_set w loc) ∧ 0 < set_size (get_set w loc)) →
  off_world code w eventName (Some l) = w.
Proof.
  intros H. rewrite off_world_delete.
  destruct (listeners w !! eventName) as [loc|] eqn:E; [|done].
  destruct (H loc eq_refl) as [Hout Hpos]. cbv zeta.
  rewrite set_delete_absent by done. rewrite store_same.
  rewrite bool_decide_eq_true_2 by done.
  rewrite insert_id by done. by destruct w.
Qed.

(** A second run of the callback, right after the first, changes
    nothing. *)
Lemma settle_again w eventName callback v returnVal w1 :
  settle code w eventName callback v returnVal = (w1, Normal tt) →
  settle code w1 eventName callback v returnVal = (w1, Normal tt).
Proof.
  unfold settle at 1. intros H.
  destruct (define_listened w callback) as [wa|] eqn:Hd; [|done].
  apply define_listened_inv in Hd as (d & s & Hd & Hs & ->).
  set (wa := with_listenerData _ w) in H.
  set (wb := if is_once wa callback
             then fst (off code wa eventName (Some callback)) else wa) in H.
  injection H as <-.
  assert (Hdata : listenerData wb = listenerData wa).
  { unfold wb. destruct (is_once wa callback); [|done]. simpl.
    pose proof (off_world_frame code wa eventName (Some callback)) as F.
    cbv zeta in F. by destruct F as (_ & _ & _ & -> & _). }
  assert (Hcb : listenerData wb !! callback
                = Some (ListenerData.with_listened (Some s) d)).
  { rewrite Hdata. unfold wa. simpl. by rewrite lookup_insert_eq. }
  set (w1 := with_resultSets _ wb).
  assert (Hdef : define_listened w1 callback = Normal w1).
  { unfold define_listened. change (listenerData w1) with (listenerData wb).
    rewrite Hcb. cbn [ListenerData.listened ListenerData.with_listened].
    rewrite (defineProperty_true_fix _ _ Hs).
    f_equal. rewrite insert_id; [exact (with_listenerData_same w1)|].
    rewrite Hcb. by destruct d. }
  assert (Honce : is_once w1 callback = is_once wa callback).
  { unfold is_once. change (listenerData w1) with (listenerData wb).
    by rewrite Hdata. }
  assert (Hoff : is_once wa callback = true →
                 off_world code w1 eventName (Some callback) = w1).
  { intros Ho. apply off_world_absent. intros loc.
    change (listeners w1) with (listeners wb).
    change (get_set w1 loc) with (get_set wb loc).
    unfold wb. rewrite Ho. cbn [off fst].
    rewrite off_world_listeners, decide_True by done.
    destruct (listeners wa !! eventName) as [loc0|] eqn:E; [|done].
    case_bool_decide as Hsz; [|done]. intros [= <-].
    rewrite off_world_get_set, decide_True by done.
    split; [apply set_delete_not_elem | done]. }
  unfold settle. rewrite Hdef, Honce.
  assert (Hres : alter (result_add v) returnVal (resultSets w1)
                 = resultSets w1).
  { unfold w1. simpl. rewrite list_alter_alter_eq.
    apply list_alter_ext; [|done]. intros r _. simpl.
    apply result_add_idem. }
  destruct (is_once wa callback) eqn:Ho.
  - cbn [off fst]. rewrite (Hoff eq_refl), Hres.
    by rewrite with_resultSets_same.
  - rewrite Hres. by rewrite with_resultSets_same.
Qed.

Lemma settle_times_S n w eventName callback v returnVal :
  settle_times code (S n) w eventName callback v returnVal
  = settle code w eventName callback v returnVal.
Proof.
  cbn [settle_times].
  destruct (settle code w eventName callback v returnVal) as [w1 [[]|e]] eqn:E;
    [|done].
  apply settle_again in E. induction n as [|n IH]; [done|].
  cbn [settle_times]. by rewrite E.
Qed.

(** [then] seen from [emit]: the callback runs at most once to any effect. *)
Lemma call_then_unfold w eventName callback v returnVal b :
  call_then code w eventName callback v returnVal b
  = match (if bool_decide (0 < then_calls b)
           then settle code w eventName callback v returnVal
           else (w, Normal tt)) with
    | (w1, Abrupt e) => (w1, Abrupt e)
    | (w1, Normal _) =>
        let w2 :=
          if then_keeps b
          then with_thenJobs
                 (thenJobs w1 ++ [{| job_event := eventName;
                                     job_callback := callback;
                                     job_value := v;
                                     job_result := returnVal |}]) w1
          else w1 in
        match then_throws b with
        | Some e => (w2, Abrupt e)
        | None => (w2, Normal tt)
        end
    end.
Proof.
  unfold call_then. destruct (then_calls b) as [|n].
  - by rewrite bool_decide_eq_false_2 by lia.
  - by rewrite settle_times_S, bool_decide_eq_true_2 by lia.
Qed.

End Idempotent.

(** ** Every operation is a sequence of elementary mutations *)

Section Evolution.

Variable code : nat → Closure.

Local Abbreviation dispatches := (rtc (dispatch_mutation code)).
Local Abbreviation evolves := (rtc (mutation code)).

Lemma dispatches_evolves w w' : dispatches w w' → evolves w w'.
Proof.
  induction 1 as [|w w1 w2 H _ IH]; [done|].
  eapply rtc_l; [by apply mut_dispatch | done].
Qed.

Lemma call_dispatches w callback args :
  dispatches w (fst (call code w callback args)).
Proof.
  destruct callback; simpl; [done|]. apply rtc_once, mut_resolve.
Qed.

Lemma settle_dispatches w eventName callback v returnVal :
  dispatches w (fst (settle code w eventName callback v returnVal)).
Proof.
  unfold settle. destruct (define_listened w callback) as [w1|] eqn:E; [|done].
  simpl. eapply rtc_l; [by eapply mut_listened|].
  eapply rtc_r; [|apply mut_results].
  destruct (is_once w1 callback); [|done]. apply rtc_once, mut_off.
Qed.

Lemma call_then_dispatches w eventName callback v returnVal b :
  dispatches w (fst (call_then code w eventName callback v returnVal b)).
Proof.
  rewrite call_then_unfold.
  assert (Hs : dispatches w
                 (fst (if bool_decide (0 < then_calls b)
                       then settle code w eventName callback v returnVal
                       else (w, Normal tt)))).
  { case_bool_decide; [apply settle_dispatches | done]. }
  destruct (if bool_decide (0 < then_calls b)
            then settle code w eventName callback v returnVal
            else (w, Normal tt)) as [w1 [[]|e]]; simpl in Hs; [|done].
  cbv zeta.
  assert (Hk : dispatches w
                 (if then_keeps b
                  then with_thenJobs
                         (thenJobs w1 ++ [{| job_event := eventName;
                                             job_callback := callback;
                                             job_value := v;
                                             job_result := returnVal |}]) w1
                  else w1)).
  { destruct (then_keeps b); [|done].
    eapply rtc_r; [exact Hs | apply mut_jobs]. }
  by destruct (then_throws b).
Qed.

Lemma emit_body_dispatches w eventName args returnVal callback :
  dispatches w (fst (emit_body code w eventName args returnVal callback)).
Proof.
  unfold emit_body. destruct (is_suspended w callback); [done|].
  eapply rtc_l; [apply mut_call|].
  match goal with |- context [call code ?w0 callback args] =>
    pose proof (call_dispatches w0 callback args) as Hcall;
    destruct (call code w0 callback args) as [w1 [v|e]]
  end; simpl in Hcall; [|done].
  etrans; [exact Hcall|].
  destruct (isPromiseLike v).
  - apply call_then_dispatches.
  - apply settle_dispatches.
Qed.

Lemma emit_loop_dispatches k i loc w eventName args returnVal :
  dispatches w (fst (emit_loop code k i loc w eventName args returnVal)).
Proof.
  revert i w. induction k as [|k IH]; intros i w; [done|].
  cbn [emit_loop].
  destruct (get_set w loc !! i) as [[callback|]|]; [|apply IH..].
  pose proof (emit_body_dispatches w eventName args returnVal callback) as Hb.
  destruct (emit_body code w eventName args returnVal callback) as [w1 [[]|e]];
    simpl in Hb; [|done].
  etrans; [exact Hb | apply IH].
Qed.

Lemma emit_dispatches w eventName args :
  dispatches w (fst (emit code w eventName args)).
Proof.
  unfold emit. eapply rtc_l; [apply mut_results|].
  match goal with |- context [listeners ?w0 !! eventName] =>
    destruct (listeners w0 !! eventName) as [loc|]; [|apply rtc_refl];
    pose proof (emit_loop_dispatches (length (get_set w0 loc)) 0 loc w0
                  eventName args (length (resultSets w))) as Hl;
    destruct (emit_loop code (length (get_set w0 loc)) 0 loc w0 eventName args
                (length (resultSets w))) as [w1 [[]|e]]
  end; exact Hl.
Qed.

Lemma run_then_dispatches w k : dispatches w (fst (run_then code w k)).
Proof.
  unfold run_then. destruct (thenJobs w !! k) as [j|]; [|done].
  eapply rtc_l; [apply mut_jobs | apply settle_dispatches].
Qed.

Lemma store_listener_evolves flag w eventName listener :
  evolves w (fst (store_listener flag w eventName listener)).
Proof.
  unfold store_listener.
  assert (listeners (ensure_listenerData w listener) = listeners w) as Hl
    by (unfold ensure_listenerData; by destruct (listenerData w !! listener)).
  assert (Hw1 : ∀ w1,
            define_once flag (ensure_listenerData w listener) listener
            = Normal w1 →
            listeners w1 = listeners w ∧ is_Some (listenerData w1 !! listener)).
  { intros w1 (d & s & _ & _ & ->)%define_once_inv. simpl.
    by rewrite lookup_insert_eq. }
  destruct (listeners w !! eventName) as [loc|] eqn:E.
  - eapply rtc_l; [apply mut_ensure|].
    destruct (define_once flag (ensure_listenerData w listener) listener)
      as [w1|] eqn:E1; [|apply rtc_refl].
    eapply rtc_l; [by eapply mut_once|]. apply rtc_once.
    destruct (Hw1 w1 eq_refl) as [Hl1 Hd1]. cbn [fst].
    apply (mut_add code w1 eventName loc listener); [by rewrite Hl1 | done].
  - eapply rtc_l; [apply mut_ensure|].
    destruct (define_once flag (ensure_listenerData w listener) listener)
      as [w1|] eqn:E1; [|apply rtc_refl].
    eapply rtc_l; [by eapply mut_once|]. apply rtc_once.
    destruct (Hw1 w1 eq_refl) as [Hl1 Hd1]. cbn [fst].
    apply (mut_new_set code w1 eventName listener); [by rewrite Hl1 | done].
Qed.

Lemma limit_check_evolves w eventName :
  evolves w (fst (limit_check w eventName)).
Proof.
  unfold limit_check. simpl.
  destruct (limits_guard (limits w)); [|done].
  destruct (limits w) as [lim|]; [|done].
  destruct (warned w) eqn:Hw.
  - by rewrite andb_false_r.
  - destruct (_ && _ && _); [|done]. by apply rtc_once, mut_warn.
Qed.

Lemma register_evolves flag w eventName listener :
  evolves w (fst (register flag w eventName listener)).
Proof.
  unfold register.
  pose proof (store_listener_evolves flag w eventName listener) as Hs.
  destruct (store_listener flag w eventName listener) as [w2 [[]|e]];
    simpl in Hs; [|exact Hs].
  etrans; [exact Hs | apply limit_check_evolves].
Qed.

Lemma onceAsync_evolves w eventName :
  evolves w (fst (onceAsync w eventName)).
Proof.
  unfold onceAsync, once. eapply rtc_l; [apply mut_new_promise|].
  match goal with |- context [register true ?w0 eventName ?l] =>
    pose proof (register_evolves true w0 eventName l) as Hr;
    destruct (register true w0 eventName l) as [w1 [[]|e]]
  end; simpl in *; [done|].
  eapply rtc_r; [exact Hr | apply mut_reject].
Qed.

Lemma step_evolves w op : evolves w (step code w op).
Proof.
  destruct op; simpl; try done.
  - apply register_evolves.
  - apply register_evolves.
  - apply onceAsync_evolves.
  - apply rtc_once, mut_dispatch, mut_off.
  - apply dispatches_evolves, emit_dispatches.
  - apply dispatches_evolves, run_then_dispatches.
  - apply rtc_once, mut_suspend.
Qed.

Lemma run_evolves w ops : evolves w (run code w ops).
Proof.
  revert w. induction ops as [|op ops IH]; intros w; [done|].
  simpl. etrans; [apply step_evolves | apply IH].
Qed.

End Evolution.

(** ** What the elementary mutations preserve *)

Section Preservation.

Variable code : nat → Closure.

(** [limits] and [options] are fixed at construction; once [warned] is
    set it stays set and no warning is added. *)
Lemma mutation_config w w' :
  mutation code w w' →
  limits w' = limits w ∧ options w' = options w
  ∧ (warned w = true → warned w' = true ∧ warnings w' = warnings w).
Proof.
  intros H. mutation_cases H; simpl; try done.
  - unfold resolve. by destruct (promises w !! p) as [[]|].
  - apply define_listened_inv in Hd as (d & s & _ & _ & ->). done.
  - pose proof (off_world_frame code w n l) as F. cbv zeta in F.
    destruct F as (-> & -> & -> & _ & _ & _ & _ & -> & _). done.
  - unfold reject. by destruct (promises w !! p) as [[]|].
  - unfold ensure_listenerData. by destruct (listenerData w !! l).
  - apply define_once_inv in Hd as (d & s & _ & _ & ->). done.
  - split_and!; [done..|]. congruence.
Qed.

(** A frozen [once] property keeps its value. *)
Lemma mutation_once_frozen w w' x s :
  mutation code w w' →
  once_slot w x = Some s → frozen s = true → once_slot w' x = Some s.
Proof.
  unfold once_slot. intros H Hs Hf. mutation_cases H; simpl; try done.
  - unfold resolve. by destruct (promises w !! p) as [[]|].
  - apply define_listened_inv in Hd as (d & s' & Hd & _ & ->). simpl.
    destruct (decide (cb = x)) as [->|Hne].
    + rewrite lookup_insert_eq. rewrite Hd in Hs. done.
    + by rewrite lookup_insert_ne.
  - pose proof (off_world_frame code w n l) as F. cbv zeta in F.
    destruct F as (_ & _ & _ & -> & _). done.
  - unfold reject. by destruct (promises w !! p) as [[]|].
  - unfold ensure_listenerData.
    destruct (listenerData w !! l) eqn:E; [done|]. simpl.
    destruct (decide (l = x)) as [->|Hne].
    + rewrite E in Hs. done.
    + by rewrite lookup_insert_ne.
  - apply define_once_inv in Hd as (d & s' & Hd & Hdef & ->). simpl.
    destruct (decide (l = x)) as [->|Hne].
    + rewrite lookup_insert_eq. rewrite Hd in Hs. simpl in *.
      rewrite Hs in Hdef. by rewrite (defineProperty_frozen _ _ _ Hf Hdef).
    + by rewrite lookup_insert_ne.
  - unfold set_suspended. simpl.
    destruct (decide (l = x)) as [->|Hne].
    + rewrite lookup_insert_eq.
      destruct (listenerData w !! x); [done|]. done.
    + by rewrite lookup_insert_ne.
Qed.

(** A settled promise never changes. *)
Lemma mutation_settled w w' q st :
  mutation code w w' →
  promises w !! q = Some st → st ≠ Pending → promises w' !! q = Some st.
Proof.
  intros H Hp Hst. mutation_cases H; simpl; try done.
  - unfold resolve. destruct (promises w !! p) as [[]|] eqn:E; try done.
    simpl. destruct (decide (p = q)) as [->|]; [congruence|].
    by rewrite list_lookup_insert_ne.
  - apply define_listened_inv in Hd as (d & s' & _ & _ & ->). done.
  - pose proof (off_world_frame code w n l) as F. cbv zeta in F.
    destruct F as (_ & _ & _ & _ & -> & _). done.
  - by apply lookup_app_l_Some.
  - unfold reject. destruct (promises w !! p) as [[]|] eqn:E; try done.
    simpl. destruct (decide (p = q)) as [->|]; [congruence|].
    by rewrite list_lookup_insert_ne.
  - unfold ensure_listenerData. by destruct (listenerData w !! l).
  - apply define_once_inv in Hd as (d & s' & _ & _ & ->). done.
Qed.

End Preservation.

(** ** The registry invariant *)

Section Registry.

Variable code : nat → Closure.

Lemma registry_ok_same w w' :
  listeners w' = listeners w → setObjs w' = setObjs w →
  registry_ok w → registry_ok w'.
Proof.
  unfold registry_ok, get_set. intros -> ->. done.
Qed.

Lemma registry_ok_off w eventName listener :
  registry_ok w → registry_ok (off_world code w eventName listener).
Proof.
  intros [Hinj Hne]. split.
  - intros n1 n2 loc. rewrite !off_world_listeners.
    intros H1 H2. apply (Hinj n1 n2 loc).
    + destruct (decide (n1 = eventName)) as [->|]; [|done].
      destruct (listeners w !! eventName); [|done]. by case_bool_decide.
    + destruct (decide (n2 = eventName)) as [->|]; [|done].
      destruct (listeners w !! eventName); [|done]. by case_bool_decide.
  - intros n loc. rewrite off_world_listeners, off_world_get_set.
    destruct (decide (n = eventName)) as [->|Hn].
    + destruct (listeners w !! eventName) as [loc0|] eqn:E; [|done].
      case_bool_decide as Hsz; [|done]. intros [= <-].
      by rewrite decide_True.
    + intros Hl. rewrite decide_False; [by eapply Hne|].
      intros He. apply Hn. by eapply Hinj.
Qed.

Lemma registry_ok_new_set w eventName listener :
  listeners w !! eventName = None → registry_ok w →
  registry_ok
    (with_listeners (<[eventName := length (setObjs w)]> (listeners w))
       (with_setObjs (setObjs w ++ [[Some listener]]) w)).
Proof.
  intros Hnew [Hinj Hne].
  assert (Hfresh : ∀ n, listeners w !! n ≠ Some (length (setObjs w))).
  { intros n Hn. apply Hne, set_size_pos_lookup in Hn. lia. }
  split.
  - intros n1 n2 loc; simpl. rewrite !lookup_insert.
    repeat case_decide; subst; try done.
    + intros [= <-] H2. by apply Hfresh in H2.
    + intros H1 [= <-]. by apply Hfresh in H1.
    + apply Hinj.
  - intros n loc.
    change (<[eventName := length (setObjs w)]> (listeners w) !! n = Some loc
            → 0 < set_size
                  (get_set (with_setObjs (setObjs w ++ [[Some listener]]) w)
                     loc)).
    rewrite lookup_insert, get_set_alloc. case_decide; subst.
    + intros [= <-]. rewrite decide_True by done. unfold set_size. simpl. lia.
    + intros Hl. rewrite decide_False; [by eapply Hne|].
      intros ->. by apply Hfresh in Hl.
Qed.

Lemma registry_ok_add w eventName loc listener :
  listeners w !! eventName = Some loc → registry_ok w →
  registry_ok
    (with_listeners (<[eventName := loc]> (listeners w))
       (with_setObjs
          (<[loc := set_add listener (get_set w loc)]> (setObjs w)) w)).
Proof.
  intros Hloc [Hinj Hne]. split.
  - simpl. rewrite insert_id by done. apply Hinj.
  - intros n loc'.
    change (<[eventName := loc]> (listeners w) !! n = Some loc'
            → 0 < set_size
                  (get_set
                     (with_setObjs
                        (<[loc := set_add listener (get_set w loc)]>
                           (setObjs w)) w) loc')).
    rewrite insert_id by done. intros Hl. rewrite get_set_store.
    case_decide; [apply set_size_add_pos | by eapply Hne].
Qed.

Lemma mutation_registry_ok w w' :
  mutation code w w' → registry_ok w → registry_ok w'.
Proof.
  intros H Hok. mutation_cases H;
    try (by apply (registry_ok_same w); [done..|]).
  - eapply registry_ok_same; [| |exact Hok];
      unfold resolve; by destruct (promises w !! p) as [[]|].
  - apply define_listened_inv in Hd as (d & s' & _ & _ & ->).
    by apply (registry_ok_same w).
  - by apply registry_ok_off.
  - eapply registry_ok_same; [| |exact Hok];
      unfold reject; by destruct (promises w !! p) as [[]|].
  - eapply registry_ok_same; [| |exact Hok];
      unfold ensure_listenerData; by destruct (listenerData w !! l).
  - apply define_once_inv in Hd as (d & s' & _ & _ & ->).
    by apply (registry_ok_same w).
  - by apply registry_ok_new_set.
  - by apply registry_ok_add.
Qed.

Lemma evolves_registry_ok w w' :
  rtc (mutation code) w w' → registry_ok w → registry_ok w'.
Proof.
  induction 1; [done|]. intros. eauto using mutation_registry_ok.
Qed.

Lemma registry_ok_construct emitterOptions lims :
  registry_ok (construct emitterOptions lims).
Proof. split; intros *; simpl; by rewrite lookup_empty. Qed.

End Registry.

(** ** Registration *)

Lemma store_listener_inv flag w eventName listener w2 :
  store_listener flag w eventName listener = (w2, Normal tt) →
  limits w2 = limits w ∧ options w2 = options w ∧ warned w2 = warned w
  ∧ warnings w2 = warnings w ∧ is_Some (listeners w2 !! eventName).
Proof.
  unfold store_listener. intros H.
  assert (Hens : ∀ w0, w0 = ensure_listenerData w listener →
            limits w0 = limits w ∧ options w0 = options w
            ∧ warned w0 = warned w ∧ warnings w0 = warnings w).
  { intros w0 ->. unfold ensure_listenerData.
    by destruct (listenerData w !! listener). }
  destruct (Hens _ eq_refl) as (El & Eo & Ew & Ews).
  destruct (listeners w !! eventName) as [loc|];
    destruct (define_once flag (ensure_listenerData w listener) listener)
      as [w1|] eqn:E1; try done;
    apply define_once_inv in E1 as (d & s & _ & _ & ->);
    injection H as <-; simpl; rewrite lookup_insert_eq; eauto 10.
Qed.

Lemma store_listener_abrupt flag w eventName listener w0 e :
  store_listener flag w eventName listener = (w0, Abrupt e) →
  ∃ msg, e = TypeError msg.
Proof.
  unfold store_listener, define_once. intros H.
  destruct (listeners w !! eventName);
    destruct (listenerData (ensure_listenerData w listener) !! listener);
    try destruct (defineProperty _ _); simplify_eq; eauto.
Qed.

Lemma evolves_warned (code : nat → Closure) w w' :
  rtc (mutation code) w w' →
  warned w = true → warned w' = true ∧ warnings w' = warnings w.
Proof.
  induction 1 as [|w w1 w2 H _ IH]; [done|]. intros Hw.
  destruct (mutation_config code _ _ H) as (_ & _ & Hkeep).
  destruct (Hkeep Hw) as [Hw1 Hws]. destruct (IH Hw1) as [? ?].
  split; congruence.
Qed.

(** C3: on a dispatcher constructed without a limits mapping, [on] and
    [once] never return: both end in a TypeError, raised at the latest by
    the limit check, which reads a property of [undefined]. *)
Theorem register_without_limits_throws w eventName listener
    (Habsent : limits w = None) :
  (∃ msg, snd (on w eventName listener) = Abrupt (TypeError msg))
  ∧ (∃ msg, snd (once w eventName listener) = Abrupt (TypeError msg)).
Proof.
  assert (H : ∀ flag, ∃ msg,
            snd (register flag w eventName listener) = Abrupt (TypeError msg)).
  { intros flag. unfold register.
    destruct (store_listener flag w eventName listener) as [w2 [[]|e]] eqn:E.
    - apply store_listener_inv in E as (El & _).
      unfold limit_check. rewrite El, Habsent. simpl. eauto.
    - apply store_listener_abrupt in E as [msg ->]. simpl. eauto. }
  split; apply H.
Qed.

Lemma register_without_limits_throws_witness :
  (∃ msg, snd (on bare "foo" (UserFn 0)) = Abrupt (TypeError msg))
  ∧ (∃ msg, snd (once bare "foo" (UserFn 0)) = Abrupt (TypeError msg)).
Proof.
  exact (register_without_limits_throws bare "foo" (UserFn 0) eq_refl).
Defined.

(** The README's first example: [new Emitter()] followed by [on]. *)
Example on_bare_emitter :
  on bare "foo" (UserFn 0)
  = (fst (store_listener false bare "foo" (UserFn 0)),
     Abrupt (TypeError "Cannot read properties of undefined"))
  ∧ collection (fst (on bare "foo" (UserFn 0))) "foo" = [UserFn 0].
Proof. split; reflexivity. Qed.

(** C4: on a registration that reaches the insertion, the warning is
    emitted exactly when a limit is configured for the name, that limit is
    strictly greater than the size of the collection after the insertion,
    the instance has not warned yet and [limitWarn] is true; it then
    carries the limit and the name and sets [warned], after which no
    operation adds a warning. *)
Theorem limit_warning_iff (code : nat → Closure) flag w eventName listener w2
    (Hstored : store_listener flag w eventName listener = (w2, Normal tt)) :
  let w' := fst (register flag w eventName listener) in
  let due :=
    ∃ lim k, limits w = Some lim ∧ lim !! eventName = Some k
             ∧ (Z.of_nat (length (collection w2 eventName)) < k)%Z
             ∧ warned w = false ∧ limitWarn (options w) = Some true in
  (due ↔ ∃ m, warnings w' = warnings w ++ [m])
  ∧ (due → ∃ k, limits w ≫= (.!! eventName) = Some k
               ∧ warnings w'
                 = warnings w ++ [{| warn_limit := k; warn_event := eventName |}]
               ∧ warned w' = true)
  ∧ (¬ due → warnings w' = warnings w ∧ warned w' = warned w)
  ∧ (warned w' = true → ∀ ops, warnings (run code w' ops) = warnings w').
Proof.
  cbv zeta. unfold register. rewrite Hstored.
  apply store_listener_inv in Hstored as (El & Eo & Ew & Ews & [loc Hloc]).
  assert (Hsize : collection_size w2 eventName
                  = Some (length (collection w2 eventName))).
  { unfold collection_size, collection. by rewrite Hloc. }
  set (due := ∃ lim k, limits w = Some lim ∧ lim !! eventName = Some k
             ∧ (Z.of_nat (length (collection w2 eventName)) < k)%Z
             ∧ warned w = false ∧ limitWarn (options w) = Some true).
  assert (Hcheck :
    (due ∧ ∃ k, limits w ≫= (.!! eventName) = Some k
        ∧ warnings (fst (limit_check w2 eventName))
          = warnings w ++ [{| warn_limit := k; warn_event := eventName |}]
        ∧ warned (fst (limit_check w2 eventName)) = true)
    ∨ (¬ due ∧ warnings (fst (limit_check w2 eventName)) = warnings w
       ∧ warned (fst (limit_check w2 eventName)) = warned w)).
  { unfold limit_check. rewrite El, Ew, Eo, Ews, Hsize. simpl.
    destruct (limits w) as [lim|] eqn:Elim; simpl.
    2:{ right. split; [|by rewrite ?Ews, ?Ew]. by intros (? & ? & [=] & _). }
    destruct (lim !! eventName) as [k|] eqn:Ek; simpl.
    2:{ right. split; [|by rewrite ?Ews, ?Ew].
        intros (? & ? & [= <-] & ? & _). congruence. }
    case_bool_decide as Hlt; simpl.
    2:{ right. split; [|by rewrite ?Ews, ?Ew].
        intros (? & ? & [= <-] & ? & ? & _). simplify_eq. lia. }
    destruct (warned w) eqn:Ewd; simpl.
    { right. split; [|by rewrite ?Ews, ?Ew]. by intros (? & ? & _ & _ & _ & [=] & _). }
    destruct (limitWarn (options w)) as [[|]|] eqn:Elw; simpl.
    - left. split; [by exists lim, k|]. by exists k.
    - right. split; [|by rewrite ?Ews, ?Ew]. by intros (? & ? & _ & _ & _ & _ & [=]).
    - right. split; [|by rewrite ?Ews, ?Ew]. by intros (? & ? & _ & _ & _ & _ & [=]). }
  split_and!.
  - destruct Hcheck as [[Hd (k & _ & -> & _)]|[Hn [-> _]]].
    + split; eauto.
    + split; [done|]. intros [m Hm].
      apply (f_equal length) in Hm. rewrite length_app in Hm. simpl in Hm. lia.
  - intros Hd. destruct Hcheck as [[_ ?]|[Hn _]]; done.
  - intros Hn. destruct Hcheck as [[Hd _]|[_ ?]]; done.
  - intros Hw ops.
    by destruct (evolves_warned code _ _ (run_evolves code _ ops) Hw).
Qed.

Lemma limit_warning_iff_witness :
  ∃ k, limits (limited 5) ≫= (.!! "foo") = Some k
       ∧ warnings (fst (register false (limited 5) "foo" (UserFn 0)))
         = warnings (limited 5) ++ [{| warn_limit := k; warn_event := "foo" |}]
       ∧ warned (fst (register false (limited 5) "foo" (UserFn 0))) = true.
Proof.
  refine (proj1 (proj2 (limit_warning_iff demo_code false (limited 5) "foo"
                          (UserFn 0) _ _)) _).
  - vm_compute. reflexivity.
  - exists {[ "foo" := 5%Z ]}, 5%Z. vm_compute. done.
Defined.

(** The scenario of the spec: with [limits = { foo: 1 }] neither the first
    nor the second registration on "foo" warns. *)
Example limit_one_never_warns :
  let w := run demo_code (limited 1)
             [OpOn "foo" (UserFn 0); OpOn "foo" (UserFn 1)] in
  warnings w = [] ∧ warned w = false ∧ collection w "foo" = [UserFn 0; UserFn 1].
Proof. vm_compute. done. Qed.

(** The README's emitter ([foo: 5]) warns on its first registration, and
    only then. *)
Example limit_five_warns_at_once :
  let w := run demo_code (limited 5)
             [OpOn "foo" (UserFn 0); OpOn "foo" (UserFn 1)] in
  warnings (step demo_code (limited 5) (OpOn "foo" (UserFn 0)))
  = [{| warn_limit := 5; warn_event := "foo" |}]
  ∧ warnings w = [{| warn_limit := 5; warn_event := "foo" |}].
Proof. vm_compute. done. Qed.

(** ** The [once] field *)

Lemma register_listenerData flag w eventName listener :
  listenerData (fst (register flag w eventName listener))
  = listenerData (fst (store_listener flag w eventName listener)).
Proof.
  unfold register.
  destruct (store_listener flag w eventName listener) as [w2 [[]|e]]; [|done].
  unfold limit_check. simpl. destruct (limits_guard _); [|done].
  destruct (limits w2); [|done]. by destruct (_ && _ && _).
Qed.

Lemma store_listener_once_slot flag w eventName listener :
  once_slot w listener = None →
  once_slot (fst (store_listener flag w eventName listener)) listener
  = Some {| value := flag; frozen := true |}.
Proof.
  unfold once_slot, store_listener, define_once, ensure_listenerData.
  intros Hfresh.
  destruct (listeners w !! eventName);
    destruct (listenerData w !! listener) as [d|] eqn:Ed; simpl in *;
    rewrite ?Ed, ?lookup_insert_eq; simpl; rewrite ?Hfresh; simpl;
    by rewrite lookup_insert_eq.
Qed.

Lemma on_frozen_once_throws w eventName f :
  once_slot w f = Some {| value := true; frozen := true |} →
  on w eventName f
  = (w, Abrupt (TypeError "Cannot redefine property: once")).
Proof.
  unfold once_slot, on, register, store_listener, define_once,
    ensure_listenerData.
  destruct (listenerData w !! f) as [d|] eqn:Ed; [|done]. simpl. intros Hs.
  destruct (listeners w !! eventName); rewrite Ed, Hs; done.
Qed.

(** [once("a", f)] followed by [on("b", f)]: the second call does not
    return the dispatcher, it raises a TypeError. *)
Example on_after_once_does_not_return :
  snd (on (fst (once unlimited "a" (UserFn 0))) "b" (UserFn 0))
  = Abrupt (TypeError "Cannot redefine property: once").
Proof. vm_compute. reflexivity. Qed.

(** C6: once [once(e, f)] has given a callback without a [once] field the
    value [true], the field keeps that value through every later
    operation, as the claim says; but a later [on(e', f)], instead of
    completing normally and returning the dispatcher, raises a TypeError
    before it inserts anything, leaving the world as it was. *)
Theorem once_field_is_write_once (code : nat → Closure) w eventName f
    (Hfresh : once_slot w f = None) :
  ∀ ops eventName',
    let w2 := run code (fst (once w eventName f)) ops in
    once_slot w2 f = Some {| value := true; frozen := true |}
    ∧ on w2 eventName' f
      = (w2, Abrupt (TypeError "Cannot redefine property: once")).
Proof.
  intros ops eventName'. cbv zeta.
  assert (Hset : once_slot (fst (once w eventName f)) f
                 = Some {| value := true; frozen := true |}).
  { unfold once_slot, once. rewrite register_listenerData.
    by apply store_listener_once_slot. }
  assert (Hkeep : once_slot (run code (fst (once w eventName f)) ops) f
                  = Some {| value := true; frozen := true |}).
  { pose proof (run_evolves code (fst (once w eventName f)) ops) as Hev.
    induction Hev as [|w0 w1 w3 Hm _ IH]; [done|].
    apply IH. by eapply mutation_once_frozen. }
  split; [done|]. by apply on_frozen_once_throws.
Qed.

Lemma once_field_is_write_once_witness :
  let w2 := run demo_code (fst (once unlimited "a" (UserFn 0)))
              [OpEmit "a" []; OpOn "a" (UserFn 1)] in
  once_slot w2 (UserFn 0) = Some {| value := true; frozen := true |}
  ∧ on w2 "b" (UserFn 0)
    = (w2, Abrupt (TypeError "Cannot redefine property: once")).
Proof.
  exact (once_field_is_write_once demo_code unlimited "a" (UserFn 0) eq_refl
           [OpEmit "a" []; OpOn "a" (UserFn 1)] "b").
Defined.

(** ** The registry invariant through every operation *)

Lemma registry_ok_keys w :
  registry_ok w →
  ∀ name, is_Some (listeners w !! name) ↔ collection w name ≠ [].
Proof.
  intros [_ Hne] name. unfold collection.
  destruct (listeners w !! name) as [loc|] eqn:E.
  - split; [|by eauto]. intros _ Hnil. apply Hne in E.
    unfold set_size in E. rewrite Hnil in E. simpl in E. lia.
  - split; [by intros [? [=]] | done].
Qed.

(** C9: every operation, however it completes, keeps the registry
    invariant, and under it a name is a key of the registry exactly when
    its collection is non-empty. *)
Theorem registry_invariant_preserved (code : nat → Closure) w op
    (Hok : registry_ok w) :
  registry_ok (step code w op)
  ∧ ∀ name, is_Some (listeners (step code w op) !! name)
            ↔ collection (step code w op) name ≠ [].
Proof.
  assert (registry_ok (step code w op))
    by (eapply evolves_registry_ok; [apply step_evolves | done]).
  split; [done | by apply registry_ok_keys].
Qed.

Lemma registry_invariant_preserved_witness :
  let w := step demo_code (limited 5) (OpOnce "foo" (UserFn 0)) in
  registry_ok (step demo_code w (OpEmit "foo" [VStr "pide"]))
  ∧ ∀ name, is_Some (listeners (step demo_code w (OpEmit "foo" [VStr "pide"]))
                       !! name)
            ↔ collection (step demo_code w (OpEmit "foo" [VStr "pide"])) name
              ≠ [].
Proof.
  apply registry_invariant_preserved.
  apply registry_invariant_preserved.
  apply registry_ok_construct.
Defined.

(** Every world reached from a fresh dispatcher satisfies the invariant. *)
Lemma registry_ok_reachable (code : nat → Closure) emitterOptions lims ops :
  registry_ok (run code (construct emitterOptions lims) ops).
Proof.
  eapply evolves_registry_ok; [apply run_evolves|].
  apply registry_ok_construct.
Qed.

(** ** Dispatch: one turn of the loop *)

Section Dispatch.

Variable code : nat → Closure.

Lemma call_spec w callback args :
  let w' := fst (call code w callback args) in
  snd (call code w callback args) = outcome code callback args
  ∧ listeners w' = listeners w ∧ setObjs w' = setObjs w
  ∧ listenerData w' = listenerData w ∧ resultSets w' = resultSets w
  ∧ thenJobs w' = thenJobs w ∧ calls w' = calls w
  ∧ promises w' = resolved_by args (promises w) callback.
Proof.
  destruct callback as [f|p]; simpl; [done|].
  unfold resolve. by destruct (promises w !! p) as [[]|].
Qed.

Lemma off_world_same_registry w1 w eventName listener :
  listeners w1 = listeners w → setObjs w1 = setObjs w →
  listeners (off_world code w1 eventName listener)
  = listeners (off_world code w eventName listener)
  ∧ setObjs (off_world code w1 eventName listener)
    = setObjs (off_world code w eventName listener).
Proof.
  intros Hl Hs. rewrite !off_world_delete, Hl.
  assert (Hg : ∀ loc, get_set w1 loc = get_set w loc)
    by (intros; unfold get_set; by rewrite Hs).
  destruct (listeners w !! eventName) as [loc|]; [|done].
  cbv zeta. rewrite Hg. case_bool_decide; simpl; by rewrite Hs.
Qed.

Lemma is_suspended_data w w' :
  (∀ l, ListenerData.suspended <$> listenerData w' !! l
        = ListenerData.suspended <$> listenerData w !! l) →
  ∀ l, is_suspended w' l = is_suspended w l.
Proof.
  intros H l. specialize (H l). unfold is_suspended.
  destruct (listenerData w' !! l), (listenerData w !! l); simpl in H; congruence.
Qed.

(** The callback of [emit] on a listener whose result can be recorded. *)
Lemma settle_spec w eventName callback v returnVal d :
  listenerData w !! callback = Some d →
  defineProperty (ListenerData.listened d) true ≠ None →
  ∃ w', settle code w eventName callback v returnVal = (w', Normal tt)
    ∧ calls w' = calls w
    ∧ resultSets w' = alter (result_add v) returnVal (resultSets w)
    ∧ (∀ l, is_suspended w' l = is_suspended w l)
    ∧ (∀ l, is_once w' l = is_once w l)
    ∧ (∀ l a, runs code w a l → runs code w' a l)
    ∧ listeners w'
      = listeners (if truthy (ListenerData.once d)
                   then off_world code w eventName (Some callback) else w)
    ∧ setObjs w'
      = setObjs (if truthy (ListenerData.once d)
                 then off_world code w eventName (Some callback) else w)
    ∧ promises w' = promises w
    ∧ thenJobs w' = thenJobs w.
Proof.
  intros Hd Hdef. unfold settle, define_listened. rewrite Hd.
  destruct (defineProperty (ListenerData.listened d) true) as [s|] eqn:Es;
    [|done].
  set (w2 := with_listenerData _ w).
  assert (Honce : is_once w2 callback = truthy (ListenerData.once d)).
  { unfold is_once, w2. simpl. by rewrite lookup_insert_eq. }
  rewrite Honce.
  assert (Hdata : ∀ l, listenerData w2 !! l
            = if decide (callback = l)
              then Some (ListenerData.with_listened (Some s) d)
              else listenerData w !! l).
  { intros l. unfold w2. simpl. rewrite lookup_insert.
    by case_decide. }
  set (w3 := if truthy (ListenerData.once d)
             then fst (off code w2 eventName (Some callback)) else w2).
  assert (Hframe : listenerData w3 = listenerData w2
                   ∧ calls w3 = calls w2 ∧ resultSets w3 = resultSets w2
                   ∧ promises w3 = promises w2 ∧ thenJobs w3 = thenJobs w2).
  { unfold w3. destruct (truthy _); [|done]. simpl.
    pose proof (off_world_frame code w2 eventName (Some callback)) as F.
    cbv zeta in F.
    by destruct F as (_ & _ & _ & -> & -> & -> & -> & _ & -> & _). }
  destruct Hframe as (Hd3 & Hc3 & Hr3 & Hp3 & Hj3).
  eexists. split; [done|].
  split_and!.
  - simpl. by rewrite Hc3.
  - simpl. by rewrite Hr3.
  - intros l. unfold is_suspended. simpl. rewrite Hd3, Hdata.
    case_decide; [subst; by rewrite Hd | done].
  - intros l. unfold is_once. simpl. rewrite Hd3, Hdata.
    case_decide; [subst; by rewrite Hd | done].
  - intros l a (Ho & d' & Hd' & Hdef'). split; [done|].
    unfold recordable. simpl. rewrite Hd3, Hdata. case_decide.
    + subst. eexists. split; [done|]. simpl.
      by eapply defineProperty_true_again.
    + eauto.
  - simpl. unfold w3. destruct (truthy _); [|done].
    simpl. by apply off_world_same_registry.
  - simpl. unfold w3. destruct (truthy _); [|done].
    simpl. by apply off_world_same_registry.
  - simpl. by rewrite Hp3.
  - simpl. by rewrite Hj3.
Qed.

(** The effect of visiting a listener that is not suspended and
    returns. *)
Lemma emit_body_returns w eventName args returnVal callback v :
  is_suspended w callback = false →
  outcome code callback args = Normal v →
  runs code w args callback →
  ∃ w', emit_body code w eventName args returnVal callback
        = (w', turn_end code callback args)
    ∧ calls w'
      = calls w ++ [{| call_event := eventName; call_listener := callback;
                       call_args := args |}]
    ∧ resultSets w'
      = (if settles_now code callback args
         then alter (result_add v) returnVal (resultSets w)
         else resultSets w)
    ∧ (∀ l, is_suspended w' l = is_suspended w l)
    ∧ (∀ l, is_once w' l = is_once w l)
    ∧ (∀ l a, runs code w a l → runs code w' a l)
    ∧ listeners w'
      = listeners (if removes code w args callback
                   then off_world code w eventName (Some callback) else w)
    ∧ setObjs w'
      = setObjs (if removes code w args callback
                 then off_world code w eventName (Some callback) else w)
    ∧ promises w' = resolved_by args (promises w) callback.
Proof.
  intros Hsus Hout (_ & d & Hd & Hdef).
  unfold emit_body, turn_end. rewrite Hsus.
  match goal with |- context [call code ?w0 callback args] =>
    pose proof (call_spec w0 callback args) as Hc;
    destruct (call code w0 callback args) as [w1 r]
  end.
  cbv zeta in Hc. simpl in Hc.
  destruct Hc as (-> & Hl1 & Hs1 & Hd1 & Hr1 & Hj1 & Hc1 & Hp1). rewrite Hout.
  assert (Hrem : removes code w args callback
                 = settles_now code callback args
                   && truthy (ListenerData.once d)).
  { unfold removes, is_once. rewrite Hsus, Hd. simpl. apply andb_comm. }
  set (P := λ (flag : bool) (w' : World),
         calls w'
         = calls w ++ [{| call_event := eventName; call_listener := callback;
                          call_args := args |}]
         ∧ resultSets w'
           = (if flag then alter (result_add v) returnVal (resultSets w)
              else resultSets w)
         ∧ (∀ l, is_suspended w' l = is_suspended w l)
         ∧ (∀ l, is_once w' l = is_once w l)
         ∧ (∀ l a, runs code w a l → runs code w' a l)
         ∧ listeners w'
           = listeners (if flag && truthy (ListenerData.once d)
                        then off_world code w eventName (Some callback) else w)
         ∧ setObjs w'
           = setObjs (if flag && truthy (ListenerData.once d)
                      then off_world code w eventName (Some callback) else w)
         ∧ promises w' = resolved_by args (promises w) callback).
  assert (Hplain : P false w1).
  { unfold P. simpl. split_and!; try done.
    - intros l. unfold is_suspended. by rewrite Hd1.
    - intros l. unfold is_once. by rewrite Hd1.
    - intros l a. unfold runs, recordable. by rewrite Hd1. }
  assert (Hsettled : ∃ ws, settle code w1 eventName callback v returnVal
                           = (ws, Normal tt) ∧ P true ws).
  { destruct (settle_spec w1 eventName callback v returnVal d)
      as (ws & Hsettle & Sc & Sr & Ss & So & Sruns & Sl & Sset & Sp & _);
      [by rewrite Hd1 | done |].
    destruct Hplain as (Pc & Pr & Ps & Po & Pruns & _).
    exists ws. split; [done|]. unfold P. simpl.
    split_and!.
    - by rewrite Sc.
    - by rewrite Sr, Hr1.
    - intros l. by rewrite Ss.
    - intros l. by rewrite So.
    - intros l a Hl. by apply Sruns, Pruns.
    - rewrite Sl. destruct (truthy _); [|done].
      by apply off_world_same_registry.
    - rewrite Sset. destruct (truthy _); [|done].
      by apply off_world_same_registry.
    - by rewrite Sp. }
  assert (Hjobs : ∀ flag w' js, P flag w' → P flag (with_thenJobs js w'))
    by (intros flag w' js H; exact H).
  assert (Hend : ∀ w', P (settles_now code callback args) w' →
            calls w'
            = calls w ++ [{| call_event := eventName;
                             call_listener := callback; call_args := args |}]
            ∧ resultSets w'
              = (if settles_now code callback args
                 then alter (result_add v) returnVal (resultSets w)
                 else resultSets w)
            ∧ (∀ l, is_suspended w' l = is_suspended w l)
            ∧ (∀ l, is_once w' l = is_once w l)
            ∧ (∀ l a, runs code w a l → runs code w' a l)
            ∧ listeners w'
              = listeners (if removes code w args callback
                           then off_world code w eventName (Some callback)
                           else w)
            ∧ setObjs w'
              = setObjs (if removes code w args callback
                         then off_world code w eventName (Some callback)
                         else w)
            ∧ promises w' = resolved_by args (promises w) callback).
  { intros w' H. rewrite Hrem. exact H. }
  destruct Hsettled as (ws & Hsettle & Hws).
  destruct (isPromiseLike v) eqn:Hp.
  - rewrite call_then_unfold.
    assert (Hnow : settles_now code callback args
                   = bool_decide (0 < then_calls (then_of code callback args))).
    { unfold settles_now. by rewrite Hout, Hp. }
    rewrite Hnow in Hend |- *.
    destruct (bool_decide (0 < then_calls (then_of code callback args))).
    + rewrite Hsettle. cbv zeta.
      destruct (then_throws (then_of code callback args));
        (eexists; split; [done|]; apply Hend;
         destruct (then_keeps _); [by apply Hjobs | done]).
    + cbv zeta.
      destruct (then_throws (then_of code callback args));
        (eexists; split; [done|]; apply Hend;
         destruct (then_keeps _); [by apply Hjobs | done]).
  - assert (Hnow : settles_now code callback args = true)
      by (unfold settles_now; by rewrite Hout, Hp).
    rewrite Hnow in Hend |- *.
    rewrite Hsettle. exists ws. split; [done|]. by apply Hend.
Qed.

Lemma turn_end_completes w args l :
  completes code w args l → turn_end code l args = Normal tt.
Proof.
  intros [[[v Hv] _] Hthen]. unfold turn_end. rewrite Hv.
  destruct (isPromiseLike v) eqn:Hp; [|done]. by rewrite (Hthen v Hv Hp).
Qed.

(** The effect of visiting a listener that is not suspended and
    completes. *)
Lemma emit_body_active w eventName args returnVal callback v :
  is_suspended w callback = false →
  outcome code callback args = Normal v →
  completes code w args callback →
  ∃ w', emit_body code w eventName args returnVal callback = (w', Normal tt)
    ∧ calls w'
      = calls w ++ [{| call_event := eventName; call_listener := callback;
                       call_args := args |}]
    ∧ resultSets w'
      = (if settles_now code callback args
         then alter (result_add v) returnVal (resultSets w)
         else resultSets w)
    ∧ (∀ l, is_suspended w' l = is_suspended w l)
    ∧ (∀ l, is_once w' l = is_once w l)
    ∧ (∀ l a, runs code w a l → runs code w' a l)
    ∧ listeners w'
      = listeners (if removes code w args callback
                   then off_world code w eventName (Some callback) else w)
    ∧ setObjs w'
      = setObjs (if removes code w args callback
                 then off_world code w eventName (Some callback) else w)
    ∧ promises w' = resolved_by args (promises w) callback.
Proof.
  intros Hsus Hout Hc.
  rewrite <- (turn_end_completes w args callback Hc).
  apply emit_body_returns; [done..|]. by destruct Hc.
Qed.

Lemma emit_body_suspended w eventName args returnVal callback :
  is_suspended w callback = true →
  emit_body code w eventName args returnVal callback = (w, Normal tt).
Proof. unfold emit_body. by intros ->. Qed.

End Dispatch.

(** ** Dispatch: the loop *)

Lemma set_values_app (s1 s2 : SetData) :
  set_values (s1 ++ s2) = set_values s1 ++ set_values s2.
Proof. apply omap_app. Qed.

(** In a set without duplicates, deleting the member at index [i] punches
    a hole at [i] and touches nothing else. *)
Lemma set_delete_at (s : SetData) i l :
  NoDup (set_values s) → s !! i = Some (Some l) →
  set_delete (Some l) s = <[i := None]> s.
Proof.
  intros Hnd Hi.
  rewrite <- (take_drop_middle s i (Some l) Hi) in Hnd |- * at 1.
  rewrite set_values_app in Hnd. change (set_values (Some l :: ?t)) with
    (l :: set_values t) in Hnd.
  apply list.NoDup_app in Hnd as (_ & Hpre & Hnd).
  apply list.NoDup_cons in Hnd as [Hpost _].
  assert (Hsplit : ∀ a b : SetData,
            set_delete (Some l) (a ++ Some l :: b)
            = set_delete (Some l) a ++ None :: set_delete (Some l) b).
  { intros a b. simpl. rewrite fmap_app. simpl.
    by rewrite bool_decide_eq_true_2. }
  rewrite Hsplit, !set_delete_absent.
  - rewrite insert_take_drop by (by eapply lookup_lt_Some). done.
  - by rewrite <- elem_of_set_values.
  - rewrite <- elem_of_set_values. intros Hin. apply (Hpre l Hin). left.
Qed.

Lemma set_delete_NoDup x (s : SetData) :
  NoDup (set_values s) → NoDup (set_values (set_delete x s)).
Proof.
  destruct x as [l|]; [|done]. rewrite set_values_delete.
  apply list.NoDup_filter.
Qed.

Section Loop.

Variable code : nat → Closure.
Variables (eventName : string) (args : list Val) (returnVal loc : nat).

Local Abbreviation mk_call :=
  (λ l, {| call_event := eventName; call_listener := l; call_args := args |}).

Lemma emit_loop_spec k : ∀ i w,
  i + k = length (get_set w loc) →
  still_registered eventName loc w →
  NoDup (set_values (get_set w loc)) →
  (∀ l, Some l ∈ drop i (get_set w loc) → is_suspended w l = false →
        completes code w args l) →
  ∃ w', emit_loop code k i loc w eventName args returnVal = (w', Normal tt)
    ∧ calls w'
      = calls w ++ (mk_call <$> active w (set_values (drop i (get_set w loc))))
    ∧ resultSets w'
      = alter (add_all (settled_results code args
                          (active w (set_values (drop i (get_set w loc))))))
          returnVal (resultSets w)
    ∧ get_set w' loc
      = take i (get_set w loc)
        ++ (after_emit code w args <$> drop i (get_set w loc))
    ∧ still_registered eventName loc w'
    ∧ (∀ l, is_suspended w' l = is_suspended w l)
    ∧ (∀ l, is_once w' l = is_once w l)
    ∧ promises w'
      = foldl (resolved_by args) (promises w)
          (active w (set_values (drop i (get_set w loc)))).
Proof.
  induction k as [|k IH]; intros i w Hlen Hreg Hnd Hruns.
  - exists w. rewrite drop_ge, take_ge by lia. simpl.
    rewrite !app_nil_r. split_and!; try done.
    unfold settled_results, add_all. simpl.
    by rewrite list_alter_id.
  - cbn [emit_loop].
    destruct (lookup_lt_is_Some_2 (get_set w loc) i) as [entry Hi]; [lia|].
    rewrite Hi. pose proof (drop_S _ _ _ Hi) as Hdrop.
    assert (Hnext : ∀ l, Some l ∈ drop (S i) (get_set w loc) →
              Some l ∈ drop i (get_set w loc)).
    { intros l. rewrite Hdrop. apply list_elem_of_further. }
    destruct entry as [callback|].
    2:{ destruct (IH (S i) w) as (w' & Hrun & Hc & Hr & Hg & Hreg' & Hs' & Ho' & Hp');
          [lia|done|done|by eauto|].
        exists w'. rewrite Hdrop. simpl.
        split_and!; try done.
        rewrite Hg, (take_S_r _ _ _ Hi). by rewrite <- app_assoc. }
    destruct (is_suspended w callback) eqn:Hsus.
    { rewrite emit_body_suspended by done.
      destruct (IH (S i) w) as (w' & Hrun & Hc & Hr & Hg & Hreg' & Hs' & Ho' & Hp');
        [lia|done|done|by eauto|].
      exists w'. rewrite Hdrop.
      change (set_values (Some callback :: ?t)) with (callback :: set_values t).
      unfold active. rewrite filter_cons_False by congruence.
      split_and!; try done.
      rewrite Hg, (take_S_r _ _ _ Hi), <- app_assoc. simpl.
      unfold removes. by rewrite Hsus. }
    assert (Hcb : completes code w args callback).
    { apply Hruns; [|done]. rewrite Hdrop. left. }
    destruct (Hcb) as [[[v Hv] _] _].
    destruct (emit_body_active code w eventName args returnVal callback v
                Hsus Hv Hcb)
      as (w1 & -> & Hc1 & Hr1 & Hs1 & Ho1 & Hruns1 & Hl1 & Hset1 & Hp1).
    assert (Hg1 : get_set w1 loc
                  = <[i := after_emit code w args (Some callback)]>
                      (get_set w loc)).
    { unfold get_set at 1. rewrite Hset1. simpl.
      destruct (removes code w args callback).
      - fold (get_set (off_world code w eventName (Some callback)) loc).
        rewrite off_world_get_set.
        destruct Hreg as [Hreg|[_ Hz]].
        + rewrite decide_True by done. by apply set_delete_at.
        + exfalso. unfold set_size in Hz.
          assert (callback ∈ set_values (get_set w loc)) as Hin.
          { apply elem_of_set_values. by eapply list_elem_of_lookup_2. }
          destruct (set_values (get_set w loc)); [by apply elem_of_nil in Hin|].
          done.
      - fold (get_set w loc). by rewrite list_insert_id. }
    assert (Hreg1 : still_registered eventName loc w1).
    { unfold still_registered. rewrite Hl1, Hg1. unfold after_emit.
      destruct (removes code w args callback) eqn:Hrm.
      - rewrite off_world_listeners, decide_True by done.
        destruct Hreg as [Hreg|[Hreg Hz]].
        + rewrite Hreg.
          rewrite (set_delete_at _ i) by done.
          case_bool_decide as Hsz; [by left|]. right. split; [done|]. lia.
        + rewrite Hreg. right. split; [done|].
          exfalso. unfold set_size in Hz.
          assert (callback ∈ set_values (get_set w loc)) as Hin.
          { apply elem_of_set_values. by eapply list_elem_of_lookup_2. }
          destruct (set_values (get_set w loc)); [by apply elem_of_nil in Hin|].
          done.
      - by rewrite list_insert_id. }
    assert (Hnd1 : NoDup (set_values (get_set w1 loc))).
    { rewrite Hg1. unfold after_emit.
      destruct (removes code w args callback).
      - rewrite <- (set_delete_at _ i callback) by done.
        by apply set_delete_NoDup.
      - by rewrite list_insert_id. }
    assert (Hdrop1 : drop (S i) (get_set w1 loc) = drop (S i) (get_set w loc)).
    { rewrite Hg1. apply drop_insert_lt. lia. }
    destruct (IH (S i) w1)
      as (w' & Hrun & Hc & Hr & Hg & Hreg' & Hs' & Ho' & Hp').
    { rewrite Hg1, length_insert. lia. }
    { done. }
    { done. }
    { rewrite Hdrop1. intros l Hl Hsl.
      destruct (Hruns l) as [Hrl Hcl]; [by eauto|by rewrite <- Hs1|].
      split; [by apply Hruns1 | done]. }
    assert (Hact : ∀ ls, active w1 ls = active w ls).
    { intros ls. unfold active. apply list_filter_iff. intros l.
      by rewrite Hs1. }
    assert (Hafter : ∀ en, after_emit code w1 args en = after_emit code w args en).
    { intros [l|]; [|done]. unfold after_emit, removes.
      by rewrite Hs1, Ho1. }
    exists w'. rewrite Hdrop.
    change (set_values (Some callback :: ?t)) with (callback :: set_values t).
    assert (Hcons : active w (callback :: set_values (drop (S i) (get_set w loc)))
                    = callback :: active w (set_values (drop (S i) (get_set w loc))))
      by (unfold active; by rewrite filter_cons_True).
    rewrite !Hcons.
    split_and!.
    + done.
    + rewrite Hc, Hc1, Hdrop1, Hact, <- app_assoc. done.
    + rewrite Hr, Hr1, Hdrop1, Hact.
      unfold settled_results at 2. simpl. rewrite Hv.
      fold (settled_results code args
              (active w (set_values (drop (S i) (get_set w loc))))).
      destruct (settles_now code callback args); [|done].
      rewrite list_alter_alter_eq. done.
    + rewrite Hg, Hdrop1, Hg1.
      rewrite (take_S_r _ i (after_emit code w args (Some callback))).
      2:{ apply list_lookup_insert_eq. by eapply lookup_lt_Some. }
      rewrite take_insert_ge by lia.
      rewrite <- app_assoc. simpl. f_equal. f_equal.
      apply list_fmap_ext. intros ? ? _. apply Hafter.
    + done.
    + intros l. by rewrite Hs', Hs1.
    + intros l. by rewrite Ho', Ho1.
    + by rewrite Hp', Hp1, Hdrop1, Hact.
Qed.

End Loop.

(** ** Dispatch: [emit] as a whole *)

Lemma set_values_after_emit (code : nat → Closure) w args (s : SetData) :
  set_values (after_emit code w args <$> s)
  = filter (λ l, removes code w args l = false) (set_values s).
Proof.
  unfold set_values. induction s as [|[l|] s IH]; simpl; [done| |done].
  destruct (removes code w args l) eqn:E; simpl.
  - by rewrite filter_cons_False by congruence.
  - rewrite filter_cons_True by done. by f_equal.
Qed.

Lemma elem_of_add_all vs r v : v ∈ add_all vs r ↔ v ∈ r ∨ v ∈ vs.
Proof.
  unfold add_all. revert r. induction vs as [|x vs IH]; intros r; simpl.
  - rewrite elem_of_nil. tauto.
  - rewrite IH, elem_of_cons. unfold result_add.
    case_bool_decide as Hx; rewrite ?elem_of_app, ?list_elem_of_singleton.
    + split; [tauto|]. intros [?|[->|?]]; tauto.
    + tauto.
Qed.

Lemma add_all_NoDup vs r : NoDup r → NoDup (add_all vs r).
Proof.
  unfold add_all. revert r. induction vs as [|x vs IH]; intros r Hr; [done|].
  simpl. apply IH. unfold result_add. case_bool_decide as Hx; [done|].
  apply list.NoDup_app. split_and!; [done| |apply NoDup_singleton].
  intros y Hy Hy'. apply list_elem_of_singleton in Hy'. by subst.
Qed.

Lemma elem_of_settled_results (code : nat → Closure) args ls v :
  v ∈ settled_results code args ls
  ↔ ∃ l, l ∈ ls ∧ outcome code l args = Normal v
         ∧ settles_now code l args = true.
Proof.
  unfold settled_results. rewrite list_elem_of_omap. split.
  - intros (l & Hl & Hv). exists l. split; [done|].
    destruct (outcome code l args) as [x|]; [|done].
    destruct (settles_now code l args) eqn:E; by simplify_eq.
  - intros (l & Hl & Hv & Hp). exists l. by rewrite Hv, Hp.
Qed.

Lemma completes_intro (code : nat → Closure) w args l :
  returns code args l → recordable w l → completes code w args l.
Proof.
  intros (v & Hv & Hthen) Hrec. split; [split; [by eexists | done]|].
  intros v' Hv'. rewrite Hv in Hv'. by simplify_eq.
Qed.

Lemma count_NoDup (ls : list Listener) l :
  NoDup ls →
  length (filter (λ x, x = l) ls) = if bool_decide (l ∈ ls) then 1 else 0.
Proof.
  induction 1 as [|x ls Hx Hnd IH]; [done|].
  destruct (decide (x = l)) as [->|Hne].
  - rewrite filter_cons_True by done. simpl. rewrite IH.
    rewrite (bool_decide_eq_false_2 _ Hx).
    by rewrite bool_decide_eq_true_2 by left.
  - rewrite filter_cons_False by done. rewrite IH.
    apply (f_equal (λ b : bool, if b then 1 else 0)).
    apply bool_decide_ext. rewrite elem_of_cons.
    split; [tauto|]. intros [?|?]; [congruence|done].
Qed.

Section Emit.

Variable code : nat → Closure.

Lemma emit_spec w eventName args :
  NoDup (collection w eventName) →
  (∀ l, l ∈ collection w eventName → is_suspended w l = false →
        completes code w args l) →
  ∃ w', emit code w eventName args = (w', Normal (length (resultSets w)))
    ∧ calls w'
      = calls w
        ++ ((λ l, {| call_event := eventName; call_listener := l;
                     call_args := args |})
              <$> active w (collection w eventName))
    ∧ resultSets w'
      = resultSets w
        ++ [add_all (settled_results code args
                       (active w (collection w eventName))) []]
    ∧ collection w' eventName
      = filter (λ l, removes code w args l = false) (collection w eventName)
    ∧ (∀ l, is_suspended w' l = is_suspended w l)
    ∧ (∀ l, is_once w' l = is_once w l)
    ∧ promises w'
      = foldl (resolved_by args) (promises w)
          (active w (collection w eventName)).
Proof.
  intros Hnd Hruns. unfold emit, collection in *.
  set (w0 := with_resultSets (resultSets w ++ [[]]) w).
  change (listeners w0) with (listeners w).
  destruct (listeners w !! eventName) as [loc|] eqn:Eloc.
  - destruct (emit_loop_spec code eventName args (length (resultSets w)) loc
                (length (get_set w0 loc)) 0 w0)
      as (w' & -> & Hc & Hr & Hg & Hreg & Hs & Ho & Hp).
    { done. }
    { by left. }
    { done. }
    { intros l Hl. rewrite drop_0 in Hl. apply Hruns.
      by apply elem_of_set_values. }
    rewrite drop_0 in Hc, Hr, Hg, Hp. rewrite take_0 in Hg. simpl in Hg.
    exists w'. split_and!; try done.
    + rewrite Hr. simpl.
      rewrite <- (Nat.add_0_r (length (resultSets w))) at 1.
      by rewrite alter_app_r.
    + assert (Hvals : set_values (get_set w' loc)
                = filter (λ l, removes code w args l = false)
                    (set_values (get_set w loc))).
      { rewrite Hg. apply (set_values_after_emit code w0). }
      destruct Hreg as [->|[-> Hz]]; [done|].
      rewrite <- Hvals. unfold set_size in Hz.
      by destruct (set_values (get_set w' loc)).
  - exists w0. split_and!; try done.
    + simpl. by rewrite app_nil_r.
    + change (listeners w0) with (listeners w). by rewrite Eloc.
Qed.

End Emit.

(** C1: when no collection exists for the name, [emit] returns an empty
    result set and calls nothing; otherwise, provided the listeners that
    are not suspended return and the [then] of a promise-like result does
    not throw, it invokes exactly those, once each, in insertion order,
    with the arguments of [emit], and the result set it returns holds every
    immediate value they returned; besides these it holds exactly the
    promise-like results whose [then] ran the callback before returning. *)
Theorem emit_invokes_in_order (code : nat → Closure) w eventName args
    (Hset : NoDup (collection w eventName))
    (Hruns : ∀ l, l ∈ collection w eventName → is_suspended w l = false →
                  completes code w args l) :
  ∃ w' returnVal results,
    emit code w eventName args = (w', Normal returnVal)
    ∧ resultSets w' !! returnVal = Some results
    ∧ calls w'
      = calls w
        ++ ((λ l, {| call_event := eventName; call_listener := l;
                     call_args := args |})
              <$> filter (λ l, is_suspended w l = false)
                    (collection w eventName))
    ∧ results
      = add_all (settled_results code args
                   (filter (λ l, is_suspended w l = false)
                      (collection w eventName))) []
    ∧ NoDup results
    ∧ (∀ l v, l ∈ collection w eventName → is_suspended w l = false →
              outcome code l args = Normal v → isPromiseLike v = false →
              v ∈ results)
    ∧ (∀ v, v ∈ results
            ↔ ∃ l, l ∈ collection w eventName ∧ is_suspended w l = false
                   ∧ outcome code l args = Normal v
                   ∧ (isPromiseLike v = false
                      ∨ 0 < then_calls (then_of code l args)))
    ∧ (listeners w !! eventName = None → results = [] ∧ calls w' = calls w).
Proof.
  destruct (emit_spec code w eventName args Hset Hruns)
    as (w' & Hemit & Hc & Hr & _).
  exists w', (length (resultSets w)), (add_all (settled_results code args
                   (active w (collection w eventName))) []).
  assert (Hin : ∀ v, v ∈ add_all (settled_results code args
                                    (active w (collection w eventName))) []
            ↔ ∃ l, l ∈ collection w eventName ∧ is_suspended w l = false
                   ∧ outcome code l args = Normal v
                   ∧ (isPromiseLike v = false
                      ∨ 0 < then_calls (then_of code l args))).
  { intros v. rewrite elem_of_add_all, elem_of_settled_results, elem_of_nil.
    unfold active. split.
    - intros [[]|(l & (Hs & Hl)%list_elem_of_filter & Hv & Hp)].
      exists l. split_and!; try done.
      unfold settles_now in Hp. rewrite Hv in Hp.
      destruct (isPromiseLike v); [|by left].
      right. by apply bool_decide_eq_true in Hp.
    - intros (l & Hl & Hs & Hv & Hp). right. exists l.
      rewrite list_elem_of_filter. split_and!; try done.
      unfold settles_now. rewrite Hv.
      destruct (isPromiseLike v); [|done].
      destruct Hp as [?|Hp]; [done|]. by apply bool_decide_eq_true. }
  split_and!; try done.
  - rewrite Hr. by rewrite list_lookup_middle.
  - apply add_all_NoDup, NoDup_nil_2.
  - intros l v Hl Hs Hv Hp. apply Hin. exists l. eauto.
  - intros Hnone. unfold collection in Hc |- *. rewrite Hnone in Hc |- *.
    simpl in Hc. rewrite app_nil_r in Hc. done.
Qed.

Lemma demo_runs w args l :
  is_Some (listenerData w !! l) → listened_slot w l = None →
  match l with UserFn f => f < 5 | AsyncFn _ => True end →
  runs demo_code w args l.
Proof.
  unfold listened_slot. intros [d Hd] Hl Hf. rewrite Hd in Hl. split.
  - destruct l as [f|p]; [|by eexists].
    do 5 (destruct f as [|f]; [by eexists|]). simpl in Hf. lia.
  - exists d. split; [done|]. simpl in Hl. by rewrite Hl.
Qed.

Lemma demo_completes w args l :
  is_Some (listenerData w !! l) → listened_slot w l = None →
  match l with UserFn f => f < 6 | AsyncFn _ => True end →
  completes demo_code w args l.
Proof.
  unfold listened_slot. intros [d Hd] Hl Hf. rewrite Hd in Hl.
  split; [split|].
  - destruct l as [f|p]; [|by eexists].
    do 6 (destruct f as [|f]; [by eexists|]). simpl in Hf. lia.
  - exists d. split; [done|]. simpl in Hl. by rewrite Hl.
  - intros v _ _. destruct l as [f|p]; [|done].
    do 6 (destruct f as [|f]; [done|]). simpl in Hf. lia.
Qed.

Lemma emit_invokes_in_order_witness :
  ∃ w' returnVal,
    emit demo_code readme_world "foo" [VStr "pide"] = (w', Normal returnVal)
    ∧ resultSets w' !! returnVal = Some [VStr "doner"; VStr "kebab"].
Proof.
  destruct (emit_invokes_in_order demo_code readme_world "foo" [VStr "pide"])
    as (w' & returnVal & results & Hemit & Hres & _ & Hval & _).
  - by apply (bool_decide_unpack _); vm_compute.
  - intros l Hl _. vm_compute in Hl.
    apply elem_of_cons in Hl as [->|Hl];
      [|apply list_elem_of_singleton in Hl as ->];
      apply demo_completes; vm_compute; eauto 10.
  - exists w', returnVal. split; [done|]. rewrite Hres, Hval.
    vm_compute. reflexivity.
Defined.

(** The scenario of the spec and the README: listeners returning "doner"
    and "kebab", called in that order with "pide". *)
Example emit_doner_kebab :
  let '(w', r) := emit demo_code readme_world "foo" [VStr "pide"] in
  r = Normal 0
  ∧ resultSets w' !! 0 = Some [VStr "doner"; VStr "kebab"]
  ∧ calls w'
    = [{| call_event := "foo"; call_listener := UserFn 0;
          call_args := [VStr "pide"] |};
       {| call_event := "foo"; call_listener := UserFn 1;
          call_args := [VStr "pide"] |}].
Proof. vm_compute. done. Qed.

(** ** Removal during the loop *)

Lemma calls_of_fmap eventName args (ls : list Listener) l :
  calls_of eventName l
    ((λ x, {| call_event := eventName; call_listener := x; call_args := args |})
       <$> ls)
  = length (filter (λ x, x = l) ls).
Proof.
  unfold calls_of. induction ls as [|x ls IH]; [done|]. rewrite fmap_cons.
  destruct (decide (x = l)) as [->|Hne].
  - rewrite !filter_cons_True by done. cbn [length]. by rewrite IH.
  - rewrite !filter_cons_False; [done|done|]. simpl. by intros [_ ?].
Qed.

(** C7: in an [emit] whose listeners return (the [then] of a promise-like
    result returning too), every member that is not suspended is invoked
    exactly once and no other listener is invoked, whatever is removed on
    the way and whatever the texts of the listeners; afterwards the
    collection has lost exactly the one-time listeners among them whose
    result was settled during the [emit]: an immediate value, or a
    promise-like one whose [then] ran the callback before returning. *)
Theorem emit_skips_no_sibling (code : nat → Closure) w eventName args
    (Hset : NoDup (collection w eventName))
    (Hruns : ∀ l, l ∈ collection w eventName → is_suspended w l = false →
                  completes code w args l) :
  let w' := fst (emit code w eventName args) in
  (∀ l, calls_of eventName l (drop (length (calls w)) (calls w'))
        = if bool_decide (l ∈ collection w eventName
                          ∧ is_suspended w l = false)
          then 1 else 0)
  ∧ (∀ l e, e ≠ eventName →
            calls_of e l (drop (length (calls w)) (calls w')) = 0)
  ∧ collection w' eventName
    = filter (λ l, removes code w args l = false) (collection w eventName).
Proof.
  destruct (emit_spec code w eventName args Hset Hruns)
    as (w' & Hemit & Hc & _ & Hcoll & _).
  cbv zeta. rewrite Hemit. simpl. rewrite Hc, drop_app_length.
  split_and!; [| |done].
  - intros l. rewrite calls_of_fmap, count_NoDup
      by (by apply list.NoDup_filter).
    apply (f_equal (λ b : bool, if b then 1 else 0)).
    apply bool_decide_ext. unfold active. by rewrite list_elem_of_filter, (comm and).
  - intros l e He. unfold calls_of. clear Hc.
    induction (active w (collection w eventName)) as [|x ls IH]; [done|].
    rewrite fmap_cons, filter_cons_False; [done|]. simpl. by intros [? _].
Qed.

Lemma emit_skips_no_sibling_witness :
  let w' := fst (emit demo_code twins_world "foo" []) in
  (∀ l, calls_of "foo" l (drop (length (calls twins_world)) (calls w'))
        = if bool_decide (l ∈ collection twins_world "foo"
                          ∧ is_suspended twins_world l = false)
          then 1 else 0)
  ∧ (∀ l e, e ≠ "foo" →
            calls_of e l (drop (length (calls twins_world)) (calls w')) = 0)
  ∧ collection w' "foo"
    = filter (λ l, removes demo_code twins_world [] l = false)
        (collection twins_world "foo").
Proof.
  apply emit_skips_no_sibling.
  - by apply (bool_decide_unpack _); vm_compute.
  - intros l Hl _. vm_compute in Hl.
    repeat (apply elem_of_cons in Hl as [->|Hl]);
      [..|by apply elem_of_nil in Hl];
      apply demo_completes; vm_compute; eauto 10.
Defined.

(** Two one-time listeners with the same text and a third listener: one
    [emit] calls all three in order, removes the first two and keeps the
    third. *)
Example emit_twins :
  let w' := fst (emit demo_code twins_world "foo" []) in
  ToString demo_code (Some (UserFn 2)) = ToString demo_code (Some (UserFn 3))
  ∧ call_listener <$> calls w' = [UserFn 2; UserFn 3; UserFn 0]
  ∧ collection w' "foo" = [UserFn 0].
Proof. vm_compute. done. Qed.

(** ** One-time listeners *)

Section Once.

Variable code : nat → Closure.

(** What the callback of [emit] can change, however it completes. *)
Lemma settle_effect w eventName callback v returnVal :
  let w' := fst (settle code w eventName callback v returnVal) in
  calls w' = calls w
  ∧ (∀ x, x ≠ callback → listenerData w' !! x = listenerData w !! x)
  ∧ ((listeners w' = listeners w ∧ setObjs w' = setObjs w)
     ∨ (listeners w'
        = listeners (off_world code w eventName (Some callback))
        ∧ setObjs w'
          = setObjs (off_world code w eventName (Some callback)))).
Proof.
  cbv zeta. unfold settle.
  destruct (define_listened w callback) as [w2|err] eqn:E; simpl.
  2:{ eauto. }
  apply define_listened_inv in E as (d & s & Hd & Hdef & ->).
  set (w2 := with_listenerData _ w).
  pose proof (off_world_frame code w2 eventName (Some callback)) as F.
  cbv zeta in F. destruct F as (_ & _ & _ & Fd & _ & _ & _ & _ & Fc & _).
  destruct (off_world_same_registry code w2 w eventName (Some callback))
    as [Fl Fs]; [done..|].
  destruct (is_once w2 callback); simpl.
  - rewrite Fc, Fd, Fl, Fs. unfold w2. simpl.
    split_and!; [done| |by right].
    intros x Hx. by rewrite lookup_insert_ne.
  - unfold w2. simpl.
    split_and!; [done| |by left].
    intros x Hx. by rewrite lookup_insert_ne.
Qed.

Lemma call_then_effect w eventName callback v returnVal b :
  let w' := fst (call_then code w eventName callback v returnVal b) in
  calls w' = calls w
  ∧ (∀ x, x ≠ callback → listenerData w' !! x = listenerData w !! x)
  ∧ ((listeners w' = listeners w ∧ setObjs w' = setObjs w)
     ∨ (listeners w'
        = listeners (off_world code w eventName (Some callback))
        ∧ setObjs w'
          = setObjs (off_world code w eventName (Some callback)))).
Proof.
  cbv zeta. rewrite call_then_unfold.
  pose proof (settle_effect w eventName callback v returnVal) as H.
  cbv zeta in H.
  destruct (bool_decide (0 < then_calls b)).
  - destruct (settle code w eventName callback v returnVal) as [w1 [[]|e]];
      simpl in H |- *; [|done].
    by destruct (then_keeps b), (then_throws b).
  - destruct (then_keeps b), (then_throws b); simpl; eauto.
Qed.

(** What one turn of the loop can change, whatever the listener does. *)
Lemma emit_body_effect w eventName args returnVal callback :
  let w' := fst (emit_body code w eventName args returnVal callback) in
  calls w'
  = calls w
    ++ (if is_suspended w callback then []
        else [{| call_event := eventName; call_listener := callback;
                 call_args := args |}])
  ∧ (∀ x, x ≠ callback → listenerData w' !! x = listenerData w !! x)
  ∧ ((listeners w' = listeners w ∧ setObjs w' = setObjs w)
     ∨ (listeners w'
        = listeners (off_world code w eventName (Some callback))
        ∧ setObjs w'
          = setObjs (off_world code w eventName (Some callback)))).
Proof.
  cbv zeta. unfold emit_body.
  destruct (is_suspended w callback).
  { simpl. rewrite app_nil_r. eauto. }
  match goal with |- context [call code ?w0 callback args] =>
    pose proof (call_spec code w0 callback args) as Hc;
    destruct (call code w0 callback args) as [w1 r]
  end.
  cbv zeta in Hc. simpl in Hc.
  destruct Hc as (_ & Hl1 & Hs1 & Hd1 & Hr1 & Hj1 & Hc1 & _).
  destruct r as [v|err]; simpl.
  2:{ rewrite Hc1, Hd1, Hl1, Hs1. eauto. }
  destruct (off_world_same_registry code w1 w eventName (Some callback))
    as [Fl Fs]; [done..|].
  assert (H : let w' := fst (if isPromiseLike v
                  then call_then code w1 eventName callback v returnVal
                         (then_of code callback args)
                  else settle code w1 eventName callback v returnVal) in
              calls w' = calls w1
              ∧ (∀ x, x ≠ callback →
                      listenerData w' !! x = listenerData w1 !! x)
              ∧ ((listeners w' = listeners w1 ∧ setObjs w' = setObjs w1)
                 ∨ (listeners w'
                    = listeners (off_world code w1 eventName (Some callback))
                    ∧ setObjs w'
                      = setObjs (off_world code w1 eventName
                                   (Some callback))))).
  { destruct (isPromiseLike v);
      [apply call_then_effect | apply settle_effect]. }
  cbv zeta in H. destruct H as (Hc & Hd & Hreg).
  rewrite Hc, Hc1. split_and!; [done| |].
  - intros x Hx. by rewrite Hd, Hd1.
  - destruct Hreg as [[-> ->]|[-> ->]]; [left|right]; by rewrite ?Fl, ?Fs.
Qed.

Lemma get_set_same w w' loc :
  setObjs w' = setObjs w → get_set w' loc = get_set w loc.
Proof. unfold get_set. by intros ->. Qed.

Lemma still_registered_same eventName loc w w' :
  listeners w' = listeners w → setObjs w' = setObjs w →
  still_registered eventName loc w → still_registered eventName loc w'.
Proof.
  unfold still_registered. intros Hl Hs.
  by rewrite Hl, (get_set_same w w' loc Hs).
Qed.

Lemma still_registered_off eventName loc w x :
  still_registered eventName loc w →
  still_registered eventName loc (off_world code w eventName x).
Proof.
  unfold still_registered.
  rewrite off_world_listeners, off_world_get_set, decide_True by done.
  intros [H|[H Hz]]; rewrite H.
  - rewrite decide_True by done.
    case_bool_decide; [by left | right; split; [done|lia]].
  - rewrite decide_False by done. by right.
Qed.

Lemma off_world_get_set_shrinks w eventName x loc l :
  Some l ∈ get_set (off_world code w eventName x) loc → Some l ∈ get_set w loc.
Proof.
  rewrite off_world_get_set. case_decide; [|done].
  destruct x as [y|]; [|done]. rewrite set_delete_elem. by intros [_ ?].
Qed.

Lemma off_world_shrinks w eventName x e l :
  l ∈ collection (off_world code w eventName x) e → l ∈ collection w e.
Proof.
  unfold collection. rewrite off_world_listeners.
  case_decide as He.
  - subst e. destruct (listeners w !! eventName) as [loc|]; [|done].
    case_bool_decide; [|by intros ?%elem_of_nil].
    rewrite !elem_of_set_values. apply off_world_get_set_shrinks.
  - destruct (listeners w !! e) as [loc|]; [|done].
    rewrite !elem_of_set_values. apply off_world_get_set_shrinks.
Qed.

End Once.

Lemma calls_of_snoc e l cs c :
  calls_of e l (cs ++ [c])
  = calls_of e l cs
    + (if decide (call_event c = e ∧ call_listener c = l) then 1 else 0).
Proof.
  unfold calls_of. rewrite list.filter_app, length_app. f_equal.
  case_decide; [by rewrite filter_cons_True | by rewrite filter_cons_False].
Qed.

Section OncePending.

Variable code : nat → Closure.
Variables (e : string) (l : Listener) (c0 : nat).
Hypothesis Himm :
  ∀ args, ∃ v, outcome code l args = Normal v ∧ isPromiseLike v = false.




(** What [emit], [off] and the [then] callbacks keep of a listener. *)
Lemma dispatch_mutation_keeps w w' :
  dispatch_mutation code w w' →
  (is_once w l = true → is_once w' l = true)
  ∧ (recordable w l → recordable w' l)
  ∧ (l ∈ collection w' e → l ∈ collection w e).
Proof.
  intros H.
  destruct H as [w c|w p ps|w js|w rs|w cb w' Hd|w n x]; try done.
  - unfold resolve. by destruct (promises w !! p) as [[]|].
  - apply define_listened_inv in Hd as (d & s & Hd & Hdef & ->).
    unfold is_once, recordable. simpl.
    destruct (decide (cb = l)) as [->|Hne].
    + rewrite lookup_insert_eq, Hd. simpl. split_and!; [done| |done].
      intros _. eexists. split; [done|]. simpl.
      by eapply defineProperty_true_again.
    + by rewrite lookup_insert_ne.
  - pose proof (off_world_frame code w n x) as F. cbv zeta in F.
    destruct F as (_ & _ & _ & Fd & _).
    unfold is_once, recordable. rewrite Fd.
    split_and!; [done..|]. apply off_world_shrinks.
Qed.

Lemma dispatches_keeps w w' :
  rtc (dispatch_mutation code) w w' →
  (is_once w l = true → is_once w' l = true)
  ∧ (recordable w l → recordable w' l)
  ∧ (l ∈ collection w' e → l ∈ collection w e).
Proof.
  induction 1 as [|w w1 w2 H _ IH]; [done|].
  apply dispatch_mutation_keeps in H as (H1 & H2 & H3).
  destruct IH as (I1 & I2 & I3). split_and!; eauto.
Qed.

Lemma emit_loop_calls_other e' loc args returnVal k : ∀ i w,
  e' ≠ e →
  calls_of e l (calls (fst (emit_loop code k i loc w e' args returnVal)))
  = calls_of e l (calls w).
Proof.
  induction k as [|k IH]; intros i w He; [done|].
  cbn [emit_loop].
  destruct (get_set w loc !! i) as [[callback|]|]; [|by apply IH..].
  pose proof (emit_body_effect code w e' args returnVal callback) as F.
  cbv zeta in F. destruct F as (Hc & _).
  assert (Hb : calls_of e l
                 (calls (fst (emit_body code w e' args returnVal callback)))
               = calls_of e l (calls w)).
  { rewrite Hc. destruct (is_suspended w callback).
    - by rewrite app_nil_r.
    - rewrite calls_of_snoc, decide_False by (simpl; by intros [? _]). lia. }
  destruct (emit_body code w e' args returnVal callback) as [w1 [[]|err]];
    simpl in *; [|done].
  by rewrite IH.
Qed.

Lemma emit_calls_other e' args w :
  e' ≠ e →
  calls_of e l (calls (fst (emit code w e' args))) = calls_of e l (calls w).
Proof.
  intros He. unfold emit.
  set (w0 := with_resultSets (resultSets w ++ [[]]) w).
  change (listeners w0) with (listeners w).
  destruct (listeners w !! e') as [loc|]; [|done].
  pose proof (emit_loop_calls_other e' loc args (length (resultSets w))
                (length (get_set w0 loc)) 0 w0 He) as Hl.
  by destruct (emit_loop code (length (get_set w0 loc)) 0 loc w0 e' args
                 (length (resultSets w))) as [w' [[]|err]].
Qed.

Lemma run_then_calls w k : calls (fst (run_then code w k)) = calls w.
Proof.
  unfold run_then. destruct (thenJobs w !! k) as [j|]; [|done].
  unfold settle.
  match goal with |- context [define_listened ?w0 ?cb] =>
    destruct (define_listened w0 cb) as [w1|err] eqn:E; [|done];
    apply define_listened_inv in E as (d & s & _ & _ & ->)
  end.
  simpl. destruct (is_once _ _); [|done]. simpl.
  match goal with |- context [off_world code ?w0 ?n ?x] =>
    pose proof (off_world_frame code w0 n x) as F
  end.
  cbv zeta in F. by destruct F as (_ & _ & _ & _ & _ & _ & _ & _ & -> & _).
Qed.




End OncePending.




(** A one-time listener over two [emit] calls: called by the first, gone
    before the second. *)
Example once_then_two_emits :
  let w := run demo_code unlimited
             [OpOnce "foo" (UserFn 0); OpEmit "foo" []; OpEmit "foo" []] in
  calls_of "foo" (UserFn 0) (calls w) = 1
  ∧ collection w "foo" = [] ∧ listeners w !! "foo" = None.
Proof. vm_compute. done. Qed.

(** ** [onceAsync] *)

Lemma register_promises flag w eventName listener :
  promises (fst (register flag w eventName listener)) = promises w.
Proof.
  assert (Hs : promises (fst (store_listener flag w eventName listener))
               = promises w).
  { unfold store_listener.
    assert (He : promises (ensure_listenerData w listener) = promises w).
    { unfold ensure_listenerData. by destruct (listenerData w !! listener). }
    destruct (listeners w !! eventName);
      destruct (define_once flag (ensure_listenerData w listener) listener)
        as [w1|] eqn:E; simpl; try done;
      apply define_once_inv in E as (d & s & _ & _ & ->); done. }
  unfold register.
  destruct (store_listener flag w eventName listener) as [w2 [[]|e]];
    simpl in Hs; [|done].
  unfold limit_check. destruct (limits_guard (limits w2)); [|done].
  destruct (limits w2); [|done].
  match goal with |- context [if ?b then _ else _] => by destruct b end.
Qed.

Lemma register_no_limits flag w eventName listener :
  limits w = None →
  ∃ msg, snd (register flag w eventName listener) = Abrupt (TypeError msg).
Proof.
  intros Habsent. unfold register.
  destruct (store_listener flag w eventName listener) as [w2 [[]|e]] eqn:E.
  - apply store_listener_inv in E as (El & _).
    unfold limit_check. rewrite El, Habsent. simpl. eauto.
  - apply store_listener_abrupt in E as [msg ->]. simpl. eauto.
Qed.

(** C8: on a dispatcher constructed without limits the future returned by
    [onceAsync] is rejected with a TypeError before [onceAsync] returns,
    and no later operation, [emit] included, resolves it. *)
Theorem onceAsync_without_limits_rejects (code : nat → Closure) w eventName
    (Habsent : limits w = None) :
  let p := length (promises w) in
  let w1 := fst (onceAsync w eventName) in
  snd (onceAsync w eventName) = Normal p
  ∧ ∃ msg, promises w1 !! p = Some (Rejected (TypeError msg))
           ∧ ∀ ops, promises (run code w1 ops) !! p
                    = Some (Rejected (TypeError msg)).
Proof.
  cbv zeta. unfold onceAsync, once.
  set (w0 := with_promises (promises w ++ [Pending]) w).
  destruct (register_no_limits true w0 eventName
              (AsyncFn (length (promises w))) Habsent) as [msg Hmsg].
  pose proof (register_promises true w0 eventName
                (AsyncFn (length (promises w)))) as Hp.
  destruct (register true w0 eventName (AsyncFn (length (promises w))))
    as [w1 r]. simpl in Hmsg, Hp. subst r. simpl.
  split; [done|]. exists msg.
  assert (Hrej : promises (reject w1 (length (promises w)) (TypeError msg))
                   !! length (promises w)
                 = Some (Rejected (TypeError msg))).
  { unfold reject. rewrite Hp. unfold w0. simpl.
    rewrite list_lookup_middle by done. simpl.
    apply list_lookup_insert_eq.
    rewrite length_app. simpl. lia. }
  split; [done|]. intros ops.
  pose proof (run_evolves code (reject w1 (length (promises w))
                                  (TypeError msg)) ops) as Hev.
  induction Hev as [|wa wb wc Hm _ IH]; [done|].
  apply IH. by eapply mutation_settled.
Qed.

Lemma onceAsync_without_limits_rejects_witness :
  let w1 := fst (onceAsync bare "x") in
  snd (onceAsync bare "x") = Normal 0
  ∧ ∃ msg, promises w1 !! 0 = Some (Rejected (TypeError msg))
           ∧ ∀ ops, promises (run demo_code w1 ops) !! 0
                    = Some (Rejected (TypeError msg)).
Proof.
  exact (onceAsync_without_limits_rejects demo_code bare "x" eq_refl).
Defined.

(** [onceAsync("x")] before [emit("x", 42)] on [new Emitter()]: the
    listener is called with 42 and removed, the future stays rejected. *)
Example onceAsync_bare_emit :
  let w := run demo_code bare [OpOnceAsync "x"; OpEmit "x" [VNum 42]] in
  promises w = [Rejected (TypeError "Cannot read properties of undefined")]
  ∧ calls w = [{| call_event := "x"; call_listener := AsyncFn 0;
                  call_args := [VNum 42] |}]
  ∧ collection w "x" = [].
Proof. vm_compute. done. Qed.

(** With a limits object both futures pending at one [emit] resolve with
    its arguments. *)
Example onceAsync_two_pending :
  let w := run demo_code unlimited
             [OpOnceAsync "x"; OpOnceAsync "x"; OpEmit "x" [VNum 42]] in
  promises w = [Fulfilled [VNum 42]; Fulfilled [VNum 42]]
  ∧ collection w "x" = [].
Proof. vm_compute. done. Qed.

(** ** The heap invariant *)

Section Heap.

Variable code : nat → Closure.

Lemma heap_ok_same w w' :
  setObjs w' = setObjs w → listenerData w' = listenerData w →
  heap_ok w → heap_ok w'.
Proof. unfold heap_ok, get_set. by intros -> ->. Qed.

Lemma heap_ok_data w m :
  (∀ loc, NoDup (set_values (get_set w loc))) →
  (∀ x d, m !! x = Some d →
          defineProperty (ListenerData.listened d) true ≠ None) →
  (∀ x, is_Some (listenerData w !! x) → is_Some (m !! x)) →
  (∀ loc x, Some x ∈ get_set w loc → is_Some (listenerData w !! x)) →
  heap_ok (with_listenerData m w).
Proof. intros H1 H2 H3 H4. split_and!; [done|done|]. intros. eauto. Qed.

Lemma mutation_heap_ok w w' :
  mutation code w w' → heap_ok w → heap_ok w'.
Proof.
  intros H (Hnd & Hdef & Hmem). mutation_cases H;
    try (by apply (heap_ok_same w); [done..|]).
  - apply (heap_ok_same w); [| |done];
      unfold resolve; by destruct (promises w !! p) as [[]|].
  - apply define_listened_inv in Hd as (d & s & Hd & Hs & ->).
    apply heap_ok_data; [done| | |done].
    + intros x d' Hx. destruct (decide (cb = x)) as [->|Hne].
      * rewrite lookup_insert_eq in Hx. injection Hx as <-. simpl.
        by eapply defineProperty_true_again.
      * rewrite lookup_insert_ne in Hx by done. eauto.
    + intros x Hx. destruct (decide (cb = x)) as [->|Hne].
      * by rewrite lookup_insert_eq.
      * by rewrite lookup_insert_ne.
  - pose proof (off_world_frame code w n l) as F. cbv zeta in F.
    destruct F as (_ & _ & _ & Fd & _).
    split_and!.
    + intros loc. rewrite off_world_get_set.
      case_decide; [by apply set_delete_NoDup | done].
    + by rewrite Fd.
    + intros loc x Hx. rewrite Fd. apply (Hmem loc).
      by eapply off_world_get_set_shrinks.
  - apply (heap_ok_same w); [| |done];
      unfold reject; by destruct (promises w !! p) as [[]|].
  - unfold ensure_listenerData. destruct (listenerData w !! l) eqn:E; [done|].
    apply heap_ok_data; [done| | |done].
    + intros x d' Hx. destruct (decide (l = x)) as [->|Hne].
      * rewrite lookup_insert_eq in Hx. by injection Hx as <-.
      * rewrite lookup_insert_ne in Hx by done. eauto.
    + intros x Hx. destruct (decide (l = x)) as [->|Hne].
      * by rewrite lookup_insert_eq.
      * by rewrite lookup_insert_ne.
  - apply define_once_inv in Hd as (d & s & Hd & Hs & ->).
    apply heap_ok_data; [done| | |done].
    + intros x d' Hx. destruct (decide (l = x)) as [->|Hne].
      * rewrite lookup_insert_eq in Hx. injection Hx as <-. simpl. eauto.
      * rewrite lookup_insert_ne in Hx by done. eauto.
    + intros x Hx. destruct (decide (l = x)) as [->|Hne].
      * by rewrite lookup_insert_eq.
      * by rewrite lookup_insert_ne.
  - split_and!; [| done |].
    + intros loc.
      change (NoDup (set_values
                (get_set (with_setObjs (setObjs w ++ [[Some l]]) w) loc))).
      rewrite get_set_alloc. case_decide; [|done].
      apply NoDup_singleton.
    + intros loc x.
      change (Some x ∈ get_set (with_setObjs (setObjs w ++ [[Some l]]) w) loc
              → is_Some (listenerData w !! x)).
      rewrite get_set_alloc. case_decide; [|apply Hmem].
      intros Hx. apply list_elem_of_singleton in Hx. by simplify_eq.
  - split_and!; [| done |].
    + intros loc'.
      change (NoDup (set_values
                (get_set
                   (with_setObjs
                      (<[loc := set_add l (get_set w loc)]> (setObjs w)) w)
                   loc'))).
      rewrite get_set_store. case_decide; [|done].
      by apply set_values_add_NoDup.
    + intros loc' x.
      change (Some x ∈ get_set
                         (with_setObjs
                            (<[loc := set_add l (get_set w loc)]> (setObjs w))
                            w) loc'
              → is_Some (listenerData w !! x)).
      rewrite get_set_store. case_decide; [|apply Hmem].
      rewrite <- elem_of_set_values, set_values_add.
      case_bool_decide.
      * rewrite elem_of_set_values. apply Hmem.
      * rewrite elem_of_app, list_elem_of_singleton, elem_of_set_values.
        intros [?| ->]; [by eapply Hmem | done].
  - unfold set_suspended. apply heap_ok_data; [done| | |done].
    + intros x d' Hx. destruct (decide (l = x)) as [->|Hne].
      * rewrite lookup_insert_eq in Hx. injection Hx as <-. simpl.
        destruct (listenerData w !! x) eqn:E; simpl; [eauto | done].
      * rewrite lookup_insert_ne in Hx by done. eauto.
    + intros x Hx. destruct (decide (l = x)) as [->|Hne].
      * by rewrite lookup_insert_eq.
      * by rewrite lookup_insert_ne.
Qed.

Lemma evolves_heap_ok w w' :
  rtc (mutation code) w w' → heap_ok w → heap_ok w'.
Proof. induction 1; eauto using mutation_heap_ok. Qed.

Lemma heap_ok_construct emitterOptions lims :
  heap_ok (construct emitterOptions lims).
Proof.
  split_and!.
  - intros loc. unfold get_set. simpl. apply NoDup_nil_2.
  - intros ? ?. simpl. by rewrite lookup_empty.
  - intros loc x. unfold get_set. simpl. by intros ?%elem_of_nil.
Qed.

Lemma heap_ok_ready w eventName :
  heap_ok w →
  NoDup (collection w eventName)
  ∧ ∀ l, l ∈ collection w eventName → recordable w l.
Proof.
  intros (Hnd & Hdef & Hmem). unfold collection.
  destruct (listeners w !! eventName) as [loc|].
  - split; [done|]. intros l Hl%elem_of_set_values.
    destruct (Hmem loc l Hl) as [d Hd]. exists d. eauto.
  - split; [apply NoDup_nil_2 | by intros ? ?%elem_of_nil].
Qed.

End Heap.

(** ** Futures of [onceAsync] *)

Lemma resolved_by_other args ps l p :
  l ≠ AsyncFn p → resolved_by args ps l !! p = ps !! p.
Proof.
  intros Hne. destruct l as [f|q]; [done|]. simpl.
  destruct (ps !! q) as [[]|] eqn:E; try done.
  apply list_lookup_insert_ne. congruence.
Qed.

Lemma resolved_by_settled args ps l p st :
  ps !! p = Some st → st ≠ Pending → resolved_by args ps l !! p = Some st.
Proof.
  intros Hp Hst. destruct l as [f|q]; [done|]. simpl.
  destruct (ps !! q) as [[]|] eqn:E; try done.
  rewrite list_lookup_insert_ne; [done|]. congruence.
Qed.

Lemma foldl_resolved_settled args ls : ∀ ps p st,
  ps !! p = Some st → st ≠ Pending →
  foldl (resolved_by args) ps ls !! p = Some st.
Proof.
  induction ls as [|l ls IH]; intros ps p st Hp Hst; [done|].
  simpl. apply IH; [|done]. by apply resolved_by_settled.
Qed.

Lemma foldl_resolved_pending args ls : ∀ ps p,
  AsyncFn p ∈ ls → ps !! p = Some Pending →
  foldl (resolved_by args) ps ls !! p = Some (Fulfilled args).
Proof.
  induction ls as [|l ls IH]; intros ps p Hin Hp.
  { by apply elem_of_nil in Hin. }
  simpl. destruct (decide (l = AsyncFn p)) as [->|Hne].
  - apply foldl_resolved_settled; [|done]. simpl. rewrite Hp.
    apply list_lookup_insert_eq. by eapply lookup_lt_Some.
  - apply IH.
    + apply elem_of_cons in Hin as [?|?]; [congruence | done].
    + by rewrite resolved_by_other.
Qed.

Lemma evolves_settled (code : nat → Closure) w w' p st :
  rtc (mutation code) w w' →
  promises w !! p = Some st → st ≠ Pending → promises w' !! p = Some st.
Proof.
  induction 1 as [|wa wb wc Hm _ IH]; [done|]. intros Hp Hst.
  apply IH; [|done]. by eapply mutation_settled.
Qed.

Lemma limit_check_frame w eventName :
  let w' := fst (limit_check w eventName) in
  listeners w' = listeners w ∧ setObjs w' = setObjs w
  ∧ listenerData w' = listenerData w ∧ promises w' = promises w
  ∧ (is_Some (limits w) → snd (limit_check w eventName) = Normal tt).
Proof.
  cbv zeta. unfold limit_check. destruct (limits_guard (limits w)).
  - destruct (limits w) as [lim|]; [|by split_and!; [..|intros [? [=]]]].
    match goal with |- context [if ?b then _ else _] => by destruct b end.
  - done.
Qed.

(** [onceAsync] on a dispatcher with a limits object: the new arrow
    function joins the collection as its last member, once and not
    suspended, and its promise is pending. *)
Lemma onceAsync_spec w eventName :
  is_Some (limits w) → registry_ok w → heap_ok w →
  listenerData w !! AsyncFn (length (promises w)) = None →
  ∃ w1, onceAsync w eventName = (w1, Normal (length (promises w)))
    ∧ promises w1 = promises w ++ [Pending]
    ∧ collection w1 eventName
      = collection w eventName ++ [AsyncFn (length (promises w))]
    ∧ is_suspended w1 (AsyncFn (length (promises w))) = false
    ∧ is_once w1 (AsyncFn (length (promises w))) = true
    ∧ (∀ l, l ≠ AsyncFn (length (promises w)) →
            listenerData w1 !! l = listenerData w !! l).
Proof.
  intros Hlim [_ Hne] (_ & _ & Hmem) Hfresh.
  set (p := length (promises w)) in *.
  unfold onceAsync, once, register. fold p.
  set (w0 := with_promises (promises w ++ [Pending]) w).
  assert (Hstore : ∃ w2,
    store_listener true w0 eventName (AsyncFn p) = (w2, Normal tt)
    ∧ promises w2 = promises w ++ [Pending]
    ∧ collection w2 eventName = collection w eventName ++ [AsyncFn p]
    ∧ listenerData w2
      = <[AsyncFn p := ListenerData.with_once
                         (Some {| value := true; frozen := true |})
                         ListenerData.empty]> (listenerData w)
    ∧ limits w2 = limits w).
  { unfold store_listener, ensure_listenerData, define_once.
    change (listeners w0) with (listeners w).
    change (listenerData w0) with (listenerData w).
    rewrite Hfresh. simpl. rewrite lookup_insert_eq. simpl.
    unfold collection.
    destruct (listeners w !! eventName) as [loc|] eqn:E.
    - eexists. split; [done|]. simpl. rewrite lookup_insert_eq.
      rewrite insert_insert_eq. split_and!; [done| |done|done].
      match goal with |- set_values (get_set ?wx loc) = _ =>
        change (get_set wx loc)
          with (get_set (with_setObjs
                           (<[loc := set_add (AsyncFn p) (get_set w loc)]>
                              (setObjs w)) w) loc)
      end.
      rewrite get_set_store, decide_True.
      2:{ split; [done|]. by eapply set_size_pos_lookup, Hne. }
      rewrite set_values_add, bool_decide_eq_false_2; [done|].
      intros Hin%elem_of_set_values. apply Hmem in Hin as [d Hd].
      congruence.
    - eexists. split; [done|]. simpl. rewrite lookup_insert_eq.
      rewrite insert_insert_eq. split_and!; [done| |done|done].
      match goal with |- set_values (get_set ?wx ?l0) = _ =>
        change (get_set wx l0)
          with (get_set (with_setObjs (setObjs w ++ [[Some (AsyncFn p)]]) w)
                  (length (setObjs w)))
      end.
      by rewrite get_set_alloc, decide_True. }
  destruct Hstore as (w2 & -> & Hp2 & Hc2 & Hd2 & Hl2).
  pose proof (limit_check_frame w2 eventName) as F. cbv zeta in F.
  destruct F as (Fl & Fs & Fd & Fp & Fr).
  destruct (limit_check w2 eventName) as [w1 r]. simpl in *.
  rewrite Fr by (by rewrite Hl2). exists w1.
  split_and!; try done.
  - congruence.
  - unfold collection in *. rewrite Fl.
    destruct (listeners w2 !! eventName) as [loc|]; [|done].
    by rewrite (get_set_same w2 w1 loc Fs).
  - unfold is_suspended. by rewrite Fd, Hd2, lookup_insert_eq.
  - unfold is_once. by rewrite Fd, Hd2, lookup_insert_eq.
  - intros l Hl. by rewrite Fd, Hd2, lookup_insert_ne.
Qed.

Lemma emit_resolves (code : nat → Closure) w eventName args p :
  NoDup (collection w eventName) →
  (∀ l, l ∈ collection w eventName → is_suspended w l = false →
        completes code w args l) →
  AsyncFn p ∈ collection w eventName →
  is_suspended w (AsyncFn p) = false →
  promises w !! p = Some Pending →
  let w' := fst (emit code w eventName args) in
  promises w' !! p = Some (Fulfilled args)
  ∧ (is_once w (AsyncFn p) = true → AsyncFn p ∉ collection w' eventName)
  ∧ ∀ ops, promises (run code w' ops) !! p = Some (Fulfilled args).
Proof.
  intros Hset Hruns Hin Hsus Hpend.
  destruct (emit_spec code w eventName args Hset Hruns)
    as (w' & Hemit & _ & _ & Hcoll & _ & _ & Hp).
  cbv zeta. rewrite Hemit. simpl.
  assert (Hful : promises w' !! p = Some (Fulfilled args)).
  { rewrite Hp. apply foldl_resolved_pending; [|done].
    unfold active. by apply list_elem_of_filter. }
  split_and!; [done| |].
  - intros Ho. rewrite Hcoll, list_elem_of_filter. intros [Hrm _].
    unfold removes, settles_now in Hrm. by rewrite Hsus, Ho in Hrm.
  - intros ops. by eapply evolves_settled; [apply run_evolves|..].
Qed.

(** In an [emit] whose listeners that are not suspended return (the [then]
    of a promise-like result returning too), every future of [onceAsync]
    that is pending and whose listener is a member and not suspended is
    fulfilled with the arguments of the [emit]; its listener, when
    one-time as [onceAsync] registers it, leaves the collection; and
    nothing changes the future afterwards.  This holds for any number of
    futures pending at the same [emit]. *)
Theorem emit_fulfils_pending_futures (code : nat → Closure) w eventName args p
    (Hset : NoDup (collection w eventName))
    (Hruns : ∀ l, l ∈ collection w eventName → is_suspended w l = false →
                  completes code w args l)
    (Hin : AsyncFn p ∈ collection w eventName)
    (Hsus : is_suspended w (AsyncFn p) = false)
    (Hpend : promises w !! p = Some Pending) :
  let w' := fst (emit code w eventName args) in
  promises w' !! p = Some (Fulfilled args)
  ∧ (is_once w (AsyncFn p) = true → AsyncFn p ∉ collection w' eventName)
  ∧ ∀ ops, promises (run code w' ops) !! p = Some (Fulfilled args).
Proof. by apply emit_resolves. Qed.

(** On a dispatcher constructed with a limits object, [onceAsync(e)]
    returns a pending future which the next [emit(e, ...args)] fulfils
    with [args], provided the other listeners of [e] return (the [then] of
    a promise-like result returning too); the future then stays as it
    is. *)
Theorem onceAsync_resolves_on_next_emit (code : nat → Closure) w eventName args
    (Hlim : is_Some (limits w))
    (Hreg : registry_ok w)
    (Hheap : heap_ok w)
    (Hfresh : listenerData w !! AsyncFn (length (promises w)) = None)
    (Hret : ∀ l, l ∈ collection w eventName → is_suspended w l = false →
                 returns code args l) :
  let p := length (promises w) in
  let w1 := fst (onceAsync w eventName) in
  let w2 := fst (emit code w1 eventName args) in
  snd (onceAsync w eventName) = Normal p
  ∧ promises w1 !! p = Some Pending
  ∧ promises w2 !! p = Some (Fulfilled args)
  ∧ (AsyncFn p ∉ collection w2 eventName)
  ∧ ∀ ops, promises (run code w2 ops) !! p = Some (Fulfilled args).
Proof.
  cbv zeta.
  destruct (onceAsync_spec w eventName Hlim Hreg Hheap Hfresh)
    as (w1 & Honce & Hp1 & Hc1 & Hs1 & Ho1 & Hd1).
  assert (Hheap1 : heap_ok w1).
  { eapply (evolves_heap_ok code); [|exact Hheap].
    pose proof (onceAsync_evolves code w eventName) as Hev.
    by rewrite Honce in Hev. }
  rewrite Honce. simpl.
  destruct (heap_ok_ready w1 eventName Hheap1) as [Hnd Hrec].
  assert (Hpend : promises w1 !! length (promises w) = Some Pending).
  { rewrite Hp1. by apply list_lookup_middle. }
  destruct (emit_resolves code w1 eventName args (length (promises w)))
    as (Hful & Hgone & Hstay); try done.
  - intros l Hl Hsl. apply completes_intro; [|by apply Hrec].
    destruct (decide (l = AsyncFn (length (promises w)))) as [->|Hne].
    { by eexists. }
    apply Hret.
    + rewrite Hc1, elem_of_app, list_elem_of_singleton in Hl.
      by destruct Hl.
    + unfold is_suspended in *. by rewrite <- Hd1.
  - rewrite Hc1, elem_of_app, list_elem_of_singleton. by right.
  - split_and!; try done. by apply Hgone.
Qed.

Lemma onceAsync_resolves_on_next_emit_witness :
  let w1 := fst (onceAsync unlimited "x") in
  let w2 := fst (emit demo_code w1 "x" [VNum 42]) in
  snd (onceAsync unlimited "x") = Normal 0
  ∧ promises w1 !! 0 = Some Pending
  ∧ promises w2 !! 0 = Some (Fulfilled [VNum 42])
  ∧ (AsyncFn 0 ∉ collection w2 "x")
  ∧ ∀ ops, promises (run demo_code w2 ops) !! 0 = Some (Fulfilled [VNum 42]).
Proof.
  apply (onceAsync_resolves_on_next_emit demo_code unlimited "x" [VNum 42]).
  - by eexists.
  - apply registry_ok_construct.
  - apply heap_ok_construct.
  - reflexivity.
  - intros l Hl. by apply elem_of_nil in Hl.
Defined.

Lemma emit_fulfils_pending_futures_witness :
  let w := run demo_code unlimited [OpOnceAsync "x"; OpOnceAsync "x"] in
  let w' := fst (emit demo_code w "x" [VNum 42]) in
  promises w' !! 1 = Some (Fulfilled [VNum 42])
  ∧ (is_once w (AsyncFn 1) = true → AsyncFn 1 ∉ collection w' "x")
  ∧ ∀ ops, promises (run demo_code w' ops) !! 1 = Some (Fulfilled [VNum 42]).
Proof.
  apply emit_fulfils_pending_futures.
  - by apply (bool_decide_unpack _); vm_compute.
  - intros l Hl _. vm_compute in Hl.
    repeat (apply elem_of_cons in Hl as [->|Hl]);
      [..|by apply elem_of_nil in Hl];
      apply demo_completes; vm_compute; eauto 10.
  - by apply (bool_decide_unpack _); vm_compute.
  - vm_compute. reflexivity.
  - vm_compute. reflexivity.
Defined.

(** ** Dispatch in the worlds a program can reach *)

Lemma heap_ok_reachable (code : nat → Closure) emitterOptions lims ops :
  heap_ok (run code (construct emitterOptions lims) ops).
Proof.
  eapply evolves_heap_ok; [apply run_evolves | apply heap_ok_construct].
Qed.

(** In every world reached from a fresh dispatcher by any sequence of
    operations, an [emit] whose non-suspended listeners return (the [then]
    of a promise-like result returning too) calls exactly those listeners,
    once each, in insertion order, returns the set of the results settled
    during the [emit] (the immediate values, and the promise-like results
    whose [then] ran the callback before returning), and removes exactly
    the one-time listeners among them whose result was so settled. *)
Theorem emit_in_reachable_world (code : nat → Closure) emitterOptions lims ops
    eventName args
    (Hret : ∀ l,
       l ∈ collection (run code (construct emitterOptions lims) ops) eventName →
       is_suspended (run code (construct emitterOptions lims) ops) l = false →
       returns code args l) :
  let w := run code (construct emitterOptions lims) ops in
  ∃ w', emit code w eventName args = (w', Normal (length (resultSets w)))
    ∧ calls w'
      = calls w
        ++ ((λ l, {| call_event := eventName; call_listener := l;
                     call_args := args |})
              <$> active w (collection w eventName))
    ∧ resultSets w' !! (length (resultSets w))
      = Some (add_all (settled_results code args
                         (active w (collection w eventName))) [])
    ∧ collection w' eventName
      = filter (λ l, removes code w args l = false) (collection w eventName).
Proof.
  cbv zeta.
  destruct (heap_ok_ready _ eventName
              (heap_ok_reachable code emitterOptions lims ops)) as [Hnd Hrec].
  destruct (emit_spec code _ eventName args Hnd)
    as (w' & Hemit & Hc & Hr & Hcoll & _).
  { intros l Hl Hs. apply completes_intro; [by apply Hret | by apply Hrec]. }
  exists w'. split_and!; try done.
  rewrite Hr. by apply list_lookup_middle.
Qed.

Lemma emit_in_reachable_world_witness :
  ∃ w', emit demo_code readme_world "foo" [VStr "pide"]
        = (w', Normal (length (resultSets readme_world)))
    ∧ calls w'
      = calls readme_world
        ++ ((λ l, {| call_event := "foo"; call_listener := l;
                     call_args := [VStr "pide"] |})
              <$> active readme_world (collection readme_world "foo"))
    ∧ resultSets w' !! (length (resultSets readme_world))
      = Some (add_all (settled_results demo_code [VStr "pide"]
                         (active readme_world (collection readme_world "foo")))
                [])
    ∧ collection w' "foo"
      = filter (λ l, removes demo_code readme_world [VStr "pide"] l = false)
          (collection readme_world "foo").
Proof.
  apply (emit_in_reachable_world demo_code
           (Some {| limitWarn := Some true |}) (Some {[ "foo" := 5%Z ]})
           [OpOn "foo" (UserFn 0); OpOn "foo" (UserFn 1)] "foo" [VStr "pide"]).
  intros l Hl _. vm_compute in Hl.
  repeat (apply elem_of_cons in Hl as [->|Hl]);
    [..|by apply elem_of_nil in Hl]; by eexists.
Defined.

(** ** Suspended listeners *)

Section Skipped.

Variable code : nat → Closure.
Variables (e : string) (l : Listener) (base : list Call).

(** A turn of the loop of [emit], however it ends, leaves a suspended
    member as it is. *)
Lemma suspended_kept_body loc args returnVal w callback :
  is_suspended w l = true → Some l ∈ get_set w loc →
  still_registered e loc w →
  (∃ cs, calls w = base ++ cs ∧ calls_of e l cs = 0) →
  let w' := fst (emit_body code w e args returnVal callback) in
  is_suspended w' l = true ∧ Some l ∈ get_set w' loc
  ∧ still_registered e loc w'
  ∧ ∃ cs, calls w' = base ++ cs ∧ calls_of e l cs = 0.
Proof.
  intros Hsus Hin Hreg (cs & Hcs & Hzero). cbv zeta.
  destruct (is_suspended w callback) eqn:Hsc.
  { rewrite emit_body_suspended by done. simpl. split_and!; try done. eauto. }
  assert (Hne : l ≠ callback) by congruence.
  pose proof (emit_body_effect code w e args returnVal callback) as F.
  cbv zeta in F. rewrite Hsc in F. destruct F as (Hc & Hd & Hsets).
  split_and!.
  - unfold is_suspended in *. by rewrite Hd.
  - destruct Hsets as [[Hl Hs]|[Hl Hs]];
      rewrite (get_set_same _ _ loc Hs); [done|].
    rewrite off_world_get_set. case_decide; [|done].
    by apply set_delete_elem.
  - destruct Hsets as [[Hl Hs]|[Hl Hs]].
    + by eapply still_registered_same.
    + eapply still_registered_same; [done..|]. by apply still_registered_off.
  - eexists. rewrite Hc, Hcs, <- app_assoc. split; [done|].
    rewrite calls_of_snoc, decide_False by (simpl; by intros [_ ?]). lia.
Qed.

Lemma suspended_kept_loop loc args returnVal k : ∀ i w,
  is_suspended w l = true → Some l ∈ get_set w loc →
  still_registered e loc w →
  (∃ cs, calls w = base ++ cs ∧ calls_of e l cs = 0) →
  let w' := fst (emit_loop code k i loc w e args returnVal) in
  is_suspended w' l = true ∧ Some l ∈ get_set w' loc
  ∧ still_registered e loc w'
  ∧ ∃ cs, calls w' = base ++ cs ∧ calls_of e l cs = 0.
Proof.
  induction k as [|k IH]; intros i w Hsus Hin Hreg Hcs; [done|].
  cbn [emit_loop].
  destruct (get_set w loc !! i) as [[callback|]|]; [|by apply IH..].
  pose proof (suspended_kept_body loc args returnVal w callback
                Hsus Hin Hreg Hcs) as Hb.
  cbv zeta in Hb.
  destruct (emit_body code w e args returnVal callback) as [w1 [[]|err]];
    simpl in Hb; [|done].
  destruct Hb as (? & ? & ? & ?). by apply IH.
Qed.

End Skipped.

Lemma suspended_kept_emit (code : nat → Closure) w e args l :
  l ∈ collection w e → is_suspended w l = true →
  let w' := fst (emit code w e args) in
  is_suspended w' l = true ∧ l ∈ collection w' e
  ∧ ∃ cs, calls w' = calls w ++ cs ∧ calls_of e l cs = 0.
Proof.
  intros Hin Hsus. cbv zeta. unfold emit.
  set (w0 := with_resultSets (resultSets w ++ [[]]) w).
  change (listeners w0) with (listeners w).
  unfold collection in Hin.
  destruct (listeners w !! e) as [loc|] eqn:Eloc;
    [|by apply elem_of_nil in Hin].
  apply elem_of_set_values in Hin.
  pose proof (suspended_kept_loop code e l (calls w) loc args
                (length (resultSets w)) (length (get_set w0 loc)) 0 w0)
    as Hl.
  cbv zeta in Hl.
  destruct Hl as (Hs' & Hin' & Hreg' & Hcs'); [done|done|by left| |].
  { exists []. by rewrite app_nil_r. }
  assert (Hw : fst (match emit_loop code (length (get_set w0 loc)) 0 loc w0 e
                            args (length (resultSets w)) with
                    | (w', Normal _) => (w', Normal (length (resultSets w)))
                    | (w', Abrupt err) => (w', Abrupt err)
                    end)
               = fst (emit_loop code (length (get_set w0 loc)) 0 loc w0 e
                        args (length (resultSets w)))).
  { by destruct (emit_loop code (length (get_set w0 loc)) 0 loc w0 e args
                   (length (resultSets w))) as [w' [[]|err]]. }
  rewrite Hw. split_and!; [done| |done].
  unfold collection.
  destruct Hreg' as [->|[_ Hz]].
  - by apply elem_of_set_values.
  - exfalso. apply elem_of_set_values in Hin'. unfold set_size in Hz.
    match type of Hin' with _ ∈ ?x => destruct x end;
      [by apply elem_of_nil in Hin' | done].
Qed.

(** A suspended listener is passed over by [emit] and stays registered:
    it is not called, it remains a member and suspended, and the name
    remains a key that [hasListener] and [listenerCount] report. *)
Theorem suspended_listener_skipped_and_kept (code : nat → Closure) w eventName
    args l
    (Hset : NoDup (collection w eventName))
    (Hruns : ∀ x, x ∈ collection w eventName → is_suspended w x = false →
                  runs code w args x)
    (Hin : l ∈ collection w eventName)
    (Hsus : is_suspended w l = true) :
  let w' := fst (emit code w eventName args) in
  calls_of eventName l (drop (length (calls w)) (calls w')) = 0
  ∧ l ∈ collection w' eventName
  ∧ is_suspended w' l = true
  ∧ hasListener code w' eventName None = true
  ∧ (eventName ≠ "" →
     listenerCount w' (Some eventName) = length (collection w' eventName)
     ∧ 0 < listenerCount w' (Some eventName)).
Proof.
  pose proof (suspended_kept_emit code w eventName args l Hin Hsus) as Hk.
  cbv zeta in Hk |- *.
  destruct (emit code w eventName args) as [w' r]. cbn [fst] in *.
  destruct Hk as (Hs & Hkept & cs & Hc & Hzero).
  assert (Hkey : is_Some (listeners w' !! eventName)).
  { unfold collection in Hkept.
    destruct (listeners w' !! eventName); [done | by apply elem_of_nil in Hkept]. }
  split_and!.
  - by rewrite Hc, drop_app_length.
  - done.
  - done.
  - simpl. by apply bool_decide_eq_true_2.
  - intros Hname.
    assert (Hcount : listenerCount w' (Some eventName)
                     = length (collection w' eventName)).
    { unfold listenerCount, collection.
      rewrite bool_decide_eq_true_2 by done.
      by destruct (listeners w' !! eventName). }
    split; [done|]. rewrite Hcount.
    destruct (collection w' eventName); [by apply elem_of_nil in Hkept|].
    simpl. lia.
Qed.

Lemma suspended_listener_skipped_and_kept_witness :
  let w := set_suspended readme_world (UserFn 0) true in
  let w' := fst (emit demo_code w "foo" [VStr "pide"]) in
  calls_of "foo" (UserFn 0) (drop (length (calls w)) (calls w')) = 0
  ∧ UserFn 0 ∈ collection w' "foo"
  ∧ is_suspended w' (UserFn 0) = true
  ∧ hasListener demo_code w' "foo" None = true
  ∧ ("foo" ≠ "" →
     listenerCount w' (Some "foo") = length (collection w' "foo")
     ∧ 0 < listenerCount w' (Some "foo")).
Proof.
  apply suspended_listener_skipped_and_kept.
  - by apply (bool_decide_unpack _); vm_compute.
  - intros x Hx _. vm_compute in Hx.
    repeat (apply elem_of_cons in Hx as [->|Hx]);
      [..|by apply elem_of_nil in Hx];
      apply demo_runs; vm_compute; eauto.
  - by apply (bool_decide_unpack _); vm_compute.
  - vm_compute. reflexivity.
Defined.

(** The total of the spec: two listeners on "foo" and three on "bar". *)
Example listenerCount_total_five :
  let w := run demo_code unlimited
             [OpOn "foo" (UserFn 0); OpOn "foo" (UserFn 1);
              OpOn "bar" (UserFn 0); OpOn "bar" (UserFn 1);
              OpOn "bar" (UserFn 2)] in
  listenerCount w None = 5 ∧ listenerCount w (Some "bar") = 3.
Proof. vm_compute. done. Qed.

(** * Further properties of the operations *)

(** ** Introspection: [hasListener] and [listenerCount] *)

Lemma hasListener_name (code : nat → Closure) w eventName :
  hasListener code w eventName None = true
  ↔ is_Some (listeners w !! eventName).
Proof. simpl. apply bool_decide_eq_true. Qed.

Lemma hasListener_text (code : nat → Closure) w eventName callback :
  hasListener code w eventName (Some callback) = true
  ↔ ∃ l, l ∈ collection w eventName
         ∧ ToString code (Some l) = ToString code (Some callback).
Proof.
  unfold hasListener, collection.
  destruct (listeners w !! eventName) as [loc|].
  - rewrite bool_decide_eq_true, list.Exists_exists. done.
  - split; [done|]. intros (l & Hl & _). by apply elem_of_nil in Hl.
Qed.

Lemma listenerCount_name w eventName :
  eventName ≠ "" →
  listenerCount w (Some eventName) = length (collection w eventName).
Proof.
  intros Hne. unfold listenerCount, collection.
  rewrite bool_decide_eq_true_2 by done.
  by destruct (listeners w !! eventName).
Qed.

(** In every world reached from a fresh dispatcher, [hasListener(name)]
    answers whether the collection of [name] is non-empty (for a name other
    than the empty string, whether [listenerCount(name)] is positive), and
    [hasListener(name, callback)] answers whether some member has the source
    text of [callback]: every member is found, and so is any other function
    with the text of a member. *)
Theorem hasListener_compares_text (code : nat → Closure) emitterOptions lims
    ops eventName :
  let w := run code (construct emitterOptions lims) ops in
  (hasListener code w eventName None = true ↔ collection w eventName ≠ [])
  ∧ (eventName ≠ "" →
     (hasListener code w eventName None = true
      ↔ 0 < listenerCount w (Some eventName)))
  ∧ (∀ callback,
       hasListener code w eventName (Some callback) = true
       ↔ ∃ l, l ∈ collection w eventName
              ∧ source_of code l = source_of code callback)
  ∧ (∀ l, l ∈ collection w eventName →
          hasListener code w eventName (Some l) = true
          ∧ hasListener code w eventName None = true).
Proof.
  cbv zeta. set (w := run code _ ops).
  assert (Hok : registry_ok w).
  { eapply evolves_registry_ok;
      [apply run_evolves | apply registry_ok_construct]. }
  pose proof (registry_ok_keys w Hok eventName) as Hkeys.
  split_and!.
  - by rewrite hasListener_name.
  - intros Hne. rewrite hasListener_name, Hkeys, listenerCount_name by done.
    destruct (collection w eventName); simpl; split; (done || lia).
  - intros callback. apply hasListener_text.
  - intros l Hl. split.
    + apply hasListener_text. eauto.
    + apply hasListener_name, Hkeys. intros E. rewrite E in Hl.
      by apply elem_of_nil in Hl.
Qed.

(** ** Registration on a dispatcher that has a limits object *)

Lemma defineProperty_value cur v s :
  defineProperty cur v = Some s → value s = v.
Proof.
  unfold defineProperty. destruct cur as [[b []]|]; simpl.
  - case_bool_decide; intros; by simplify_eq.
  - by intros [= <-].
  - by intros [= <-].
Qed.

Lemma once_slot_default w l :
  once_slot w l
  = ListenerData.once (default ListenerData.empty (listenerData w !! l)).
Proof. unfold once_slot. by destruct (listenerData w !! l). Qed.

(** The world [store_listener] produces when the [once] property can be
    defined. *)
Lemma store_listener_ok flag w eventName l s :
  defineProperty (once_slot w l) flag = Some s →
  store_listener flag w eventName l
  = (let d0 := default ListenerData.empty (listenerData w !! l) in
     let w1 :=
       with_listenerData
         (<[l := ListenerData.with_once (Some s) d0]> (listenerData w)) w in
     match listeners w !! eventName with
     | None =>
         with_listeners (<[eventName := length (setObjs w)]> (listeners w))
           (with_setObjs (setObjs w ++ [[Some l]]) w1)
     | Some loc =>
         with_listeners (<[eventName := loc]> (listeners w))
           (with_setObjs
              (<[loc := set_add l (get_set w loc)]> (setObjs w)) w1)
     end, Normal tt).
Proof.
  rewrite once_slot_default. intros Hs.
  unfold store_listener, define_once, ensure_listenerData.
  destruct (listenerData w !! l) as [d|] eqn:Ed; simpl in Hs |- *.
  - rewrite Ed, Hs. by destruct (listeners w !! eventName).
  - injection Hs as <-. rewrite lookup_insert_eq. simpl.
    rewrite insert_insert_eq. by destruct (listeners w !! eventName).
Qed.

Lemma store_listener_conflict flag w eventName l :
  defineProperty (once_slot w l) flag = None →
  store_listener flag w eventName l
  = (w, Abrupt (TypeError "Cannot redefine property: once")).
Proof.
  unfold once_slot, store_listener, define_once, ensure_listenerData.
  destruct (listenerData w !! l) as [d|] eqn:Ed; [|done]. simpl. intros Hs.
  destruct (listeners w !! eventName); by rewrite Ed, Hs.
Qed.

Lemma store_listener_collection flag w eventName l s :
  registry_ok w →
  defineProperty (once_slot w l) flag = Some s →
  let w2 := fst (store_listener flag w eventName l) in
  collection w2 eventName
  = (if bool_decide (l ∈ collection w eventName) then collection w eventName
     else collection w eventName ++ [l])
  ∧ (∀ n, n ≠ eventName → collection w2 n = collection w n)
  ∧ is_once w2 l = flag
  ∧ (∀ x, x ≠ l → listenerData w2 !! x = listenerData w !! x)
  ∧ (∀ x, is_suspended w2 x = is_suspended w x)
  ∧ (∀ x, is_listened w2 x = is_listened w x).
Proof.
  intros [Hinj Hpos] Hs. rewrite (store_listener_ok _ _ _ _ _ Hs).
  cbv zeta. cbn [fst].
  set (d0 := default ListenerData.empty (listenerData w !! l)).
  assert (Hdata : ∀ w0 : World,
            listenerData w0
            = <[l := ListenerData.with_once (Some s) d0]> (listenerData w) →
            is_once w0 l = flag
            ∧ (∀ x, x ≠ l → listenerData w0 !! x = listenerData w !! x)
            ∧ (∀ x, is_suspended w0 x = is_suspended w x)
            ∧ (∀ x, is_listened w0 x = is_listened w x)).
  { intros w0 E. unfold is_once, is_suspended, is_listened. rewrite E.
    split_and!.
    - rewrite lookup_insert_eq. simpl. by eapply defineProperty_value.
    - intros x Hx. by rewrite lookup_insert_ne.
    - intros x. destruct (decide (l = x)) as [<-|Hx].
      + rewrite lookup_insert_eq. unfold d0.
        by destruct (listenerData w !! l).
      + by rewrite lookup_insert_ne.
    - intros x. destruct (decide (l = x)) as [<-|Hx].
      + rewrite lookup_insert_eq. unfold d0.
        by destruct (listenerData w !! l).
      + by rewrite lookup_insert_ne. }
  destruct (listeners w !! eventName) as [loc|] eqn:Eloc.
  - split; [|split; [|by apply Hdata]].
    + unfold collection. rewrite Eloc. simpl. rewrite lookup_insert_eq.
      unfold get_set. simpl.
      rewrite list_lookup_insert_eq
        by (apply set_size_pos_lookup; by eapply Hpos).
      simpl. apply set_values_add.
    + intros n Hn. unfold collection. simpl.
      rewrite lookup_insert_ne by done.
      destruct (listeners w !! n) as [loc'|] eqn:En; [|done].
      unfold get_set. simpl. rewrite list_lookup_insert_ne; [done|].
      intros ->. by apply Hn, (Hinj _ _ _ En Eloc).
  - split; [|split; [|by apply Hdata]].
    + unfold collection. rewrite Eloc. simpl. rewrite lookup_insert_eq.
      unfold get_set. simpl.
      by rewrite lookup_app_r, Nat.sub_diag by lia.
    + intros n Hn. unfold collection. simpl.
      rewrite lookup_insert_ne by done.
      destruct (listeners w !! n) as [loc'|] eqn:En; [|done].
      unfold get_set. simpl. rewrite lookup_app_l; [done|].
      apply set_size_pos_lookup. by eapply Hpos.
Qed.

Lemma store_listener_listeners flag w eventName l s n :
  defineProperty (once_slot w l) flag = Some s →
  n ≠ eventName →
  listeners (fst (store_listener flag w eventName l)) !! n = listeners w !! n.
Proof.
  intros Hs Hn. rewrite (store_listener_ok _ _ _ _ _ Hs). cbv zeta. cbn [fst].
  destruct (listeners w !! eventName); simpl; by rewrite lookup_insert_ne.
Qed.

(** ** The total of [listenerCount] *)

Lemma count_fold_ext (g1 g2 : string → nat → nat) (m : gmap string nat) :
  (∀ n loc, m !! n = Some loc → g1 n loc = g2 n loc) →
  map_fold (λ n loc acc, acc + g1 n loc) 0 m
  = map_fold (λ n loc acc, acc + g2 n loc) 0 m.
Proof.
  intros H. rewrite !map_fold_foldr.
  assert (Hl : ∀ n loc, (n, loc) ∈ map_to_list m → g1 n loc = g2 n loc).
  { intros n loc Hin. by apply H, elem_of_map_to_list. }
  induction (map_to_list m) as [|[n loc] kvs IH]; [done|]. simpl.
  rewrite IH by (intros; apply Hl; by right).
  rewrite (Hl n loc) by left. done.
Qed.

Lemma count_fold_delete (g : string → nat → nat) (m : gmap string nat) n loc :
  m !! n = Some loc →
  map_fold (λ n loc acc, acc + g n loc) 0 m
  = map_fold (λ n loc acc, acc + g n loc) 0 (delete n m) + g n loc.
Proof.
  intros H.
  rewrite (map_fold_delete_L (λ n loc acc, acc + g n loc) 0 n loc m);
    [done | intros; lia | done].
Qed.

(** The total is the size of one collection plus the sizes of the
    collections of the other names. *)
Lemma total_count_split w name :
  total_count w
  = map_fold (λ n _ acc, acc + length (collection w n)) 0
      (delete name (listeners w))
    + length (collection w name).
Proof.
  unfold total_count.
  rewrite (count_fold_ext (λ _ loc, set_size (get_set w loc))
             (λ n _, length (collection w n))).
  2:{ intros n loc E. unfold collection. by rewrite E. }
  destruct (listeners w !! name) as [loc|] eqn:E.
  - by rewrite (count_fold_delete _ _ name loc).
  - rewrite delete_id by done. unfold collection at 3. rewrite E. simpl. lia.
Qed.

Lemma total_count_delta w w' name :
  (∀ n, n ≠ name → listeners w' !! n = listeners w !! n) →
  (∀ n, n ≠ name → collection w' n = collection w n) →
  total_count w' + length (collection w name)
  = total_count w + length (collection w' name).
Proof.
  intros Hl Hc. rewrite (total_count_split w name), (total_count_split w' name).
  assert (Hm : delete name (listeners w') = delete name (listeners w)).
  { apply map_eq. intros n. destruct (decide (n = name)) as [->|Hn].
    - by rewrite !lookup_delete_eq.
    - rewrite !lookup_delete_ne by done. by apply Hl. }
  rewrite Hm.
  rewrite (count_fold_ext (λ n _, length (collection w' n))
             (λ n _, length (collection w n))); [lia|].
  intros n loc E. rewrite Hc; [done|]. intros ->.
  by rewrite lookup_delete_eq in E.
Qed.

Lemma total_count_same w w' :
  listeners w' = listeners w → (∀ n, collection w' n = collection w n) →
  total_count w' = total_count w.
Proof.
  intros Hl Hc.
  pose proof (total_count_delta w w' "" (λ n _, f_equal (.!! n) Hl)
                (λ n _, Hc n)) as H.
  rewrite Hc in H. lia.
Qed.

(** The total is the sum of the sizes of the collections of the names
    that are keys. *)
Lemma total_count_sum w :
  total_count w
  = sum_list_with (λ n, length (collection w n))
      (map_to_list (listeners w)).*1.
Proof.
  unfold total_count.
  rewrite (count_fold_ext (λ _ loc, set_size (get_set w loc))
             (λ n _, length (collection w n))).
  2:{ intros n loc E. unfold collection. by rewrite E. }
  rewrite map_fold_foldr.
  induction (map_to_list (listeners w)) as [|[n loc] kvs IH]; [done|].
  rewrite fmap_cons. simpl. rewrite IH. lia.
Qed.

Lemma count_fold_sum (f : string → nat) (m : gmap string nat) :
  map_fold (λ n _ acc, acc + f n) 0 m = sum_list_with f (map_to_list m).*1.
Proof.
  rewrite map_fold_foldr.
  induction (map_to_list m) as [|[n loc] kvs IH]; [done|].
  rewrite fmap_cons. simpl. rewrite IH. lia.
Qed.

(** C10: [listenerCount] branches on the truthiness of its argument, not
    on its presence: for the empty string it returns the sum of the sizes
    of all the collections of the registry, which is what it returns with
    no argument, and not the size of the collection registered under the
    empty string: it exceeds that size by the sizes of the collections of
    the other names, so the two differ as soon as another name has a
    listener. *)
Theorem listenerCount_empty_name w :
  listenerCount w (Some "")
  = sum_list_with (λ n, length (collection w n))
      (map_to_list (listeners w)).*1
  ∧ listenerCount w (Some "") = listenerCount w None
  ∧ listenerCount w (Some "")
    = length (collection w "")
      + sum_list_with (λ n, length (collection w n))
          (map_to_list (delete "" (listeners w))).*1
  ∧ (∀ n, n ≠ "" → collection w n ≠ [] →
          length (collection w "") < listenerCount w (Some "")
          ∧ listenerCount w (Some "") ≠ length (collection w "")).
Proof.
  assert (Hsplit : listenerCount w (Some "")
                   = length (collection w "")
                     + map_fold (λ n _ acc, acc + length (collection w n)) 0
                         (delete "" (listeners w))).
  { change (listenerCount w (Some "")) with (total_count w).
    rewrite (total_count_split w ""). lia. }
  split_and!.
  - apply total_count_sum.
  - reflexivity.
  - by rewrite Hsplit, count_fold_sum.
  - intros n Hn Hne. rewrite Hsplit.
    destruct (listeners w !! n) as [loc|] eqn:E.
    2:{ unfold collection in Hne. by rewrite E in Hne. }
    rewrite (count_fold_delete (λ n _, length (collection w n)) _ n loc)
      by (by rewrite lookup_delete_ne).
    destruct (collection w n); [done|]. simpl. lia.
Qed.

Lemma collection_same w w' n :
  listeners w' = listeners w → setObjs w' = setObjs w →
  collection w' n = collection w n.
Proof. unfold collection, get_set. by intros -> ->. Qed.

Lemma limit_check_cases w eventName :
  fst (limit_check w eventName) = w
  ∨ ∃ m, fst (limit_check w eventName)
         = with_warned true (with_warnings (warnings w ++ [m]) w).
Proof.
  unfold limit_check. destruct (limits_guard _); [|by left].
  destruct (limits w); [|by left].
  match goal with |- context [if ?b then _ else _] => destruct b end;
    [right; by eexists | by left].
Qed.

Lemma limit_check_normal w eventName :
  is_Some (limits w) → snd (limit_check w eventName) = Normal tt.
Proof.
  intros [lim E]. unfold limit_check. rewrite E. simpl.
  by match goal with |- context [if ?b then _ else _] => destruct b end.
Qed.

Lemma register_flag (flag : bool) : (if flag then once else on) = register flag.
Proof. by destruct flag. Qed.

Lemma register_other_keys flag w eventName l n :
  n ≠ eventName →
  listeners (fst (register flag w eventName l)) !! n = listeners w !! n.
Proof.
  intros Hn. unfold register.
  destruct (store_listener flag w eventName l) as [w2 [[]|e]] eqn:Est.
  - assert (listeners w2 !! n = listeners w !! n) as <-.
    { unfold store_listener in Est.
      destruct (listeners w !! eventName);
        destruct (define_once flag (ensure_listenerData w l) l) as [w1|] eqn:E1;
        try done;
        apply define_once_inv in E1 as (d & s & _ & _ & ->);
        injection Est as <-; simpl; rewrite lookup_insert_ne by done;
        unfold ensure_listenerData; by destruct (listenerData w !! l). }
    destruct (limit_check_cases w2 eventName) as [->|[m ->]]; done.
  - cbn [fst]. unfold store_listener in Est.
    destruct (listeners w !! eventName);
      destruct (define_once flag (ensure_listenerData w l) l) as [w1|] eqn:E1;
      try done; injection Est as <- _;
      unfold ensure_listenerData; by destruct (listenerData w !! l).
Qed.

(** The effect of a registration that goes through. *)
Lemma register_spec (code : nat → Closure) (flag : bool) w eventName l
    (Hlim : is_Some (limits w))
    (Hreg : registry_ok w)
    (Hslot : defineProperty (once_slot w l) flag ≠ None) :
  let result := (if flag then once else on) w eventName l in
  let w' := fst result in
  snd result = Normal tt
  ∧ collection w' eventName
    = (if bool_decide (l ∈ collection w eventName) then collection w eventName
       else collection w eventName ++ [l])
  ∧ (∀ n, n ≠ eventName → collection w' n = collection w n)
  ∧ is_once w' l = flag
  ∧ hasListener code w' eventName (Some l) = true
  ∧ (∀ x, is_suspended w' x = is_suspended w x)
  ∧ calls w' = calls w ∧ promises w' = promises w
  ∧ resultSets w' = resultSets w
  ∧ listenerCount w' None
    = listenerCount w None
      + (if bool_decide (l ∈ collection w eventName) then 0 else 1).
Proof.
  rewrite register_flag. cbv zeta.
  destruct (defineProperty (once_slot w l) flag) as [s|] eqn:Es; [|done].
  pose proof (store_listener_collection flag w eventName l s Hreg Es) as Hc.
  pose proof (store_listener_inv flag w eventName l) as Hinv.
  pose proof (store_listener_ok flag w eventName l s Es) as Hok.
  unfold register.
  destruct (store_listener flag w eventName l) as [w2 r] eqn:Est.
  assert (r = Normal tt) as -> by (rewrite Hok in Est; congruence).
  cbv zeta in Hc. cbn [fst] in Hc.
  destruct Hc as (Hc1 & Hc2 & Ho & _ & Hsus & _).
  destruct (Hinv w2 eq_refl) as (Elim & _).
  assert (Hfr : calls w2 = calls w ∧ promises w2 = promises w
                ∧ resultSets w2 = resultSets w).
  { injection Hok as ->. cbv zeta. by destruct (listeners w !! eventName). }
  destruct Hfr as (Fc & Fp & Fr).
  split; [apply limit_check_normal; by rewrite Elim|].
  assert (Hsame : ∀ n, collection (fst (limit_check w2 eventName)) n
                       = collection w2 n).
  { intros n.
    destruct (limit_check_cases w2 eventName) as [->|[m ->]]; done. }
  assert (Hcoll : collection (fst (limit_check w2 eventName)) eventName
            = if bool_decide (l ∈ collection w eventName)
              then collection w eventName else collection w eventName ++ [l])
    by (by rewrite Hsame).
  split_and!.
  - done.
  - intros n Hn. rewrite Hsame. by apply Hc2.
  - destruct (limit_check_cases w2 eventName) as [->|[m ->]]; done.
  - apply hasListener_text. exists l. split; [|done]. rewrite Hcoll.
    case_bool_decide; [done|]. apply elem_of_app. right. left.
  - intros x. rewrite <- Hsus.
    destruct (limit_check_cases w2 eventName) as [->|[m ->]]; done.
  - destruct (limit_check_cases w2 eventName) as [->|[m ->]]; done.
  - destruct (limit_check_cases w2 eventName) as [->|[m ->]]; done.
  - destruct (limit_check_cases w2 eventName) as [->|[m ->]]; done.
  - unfold listenerCount.
    pose proof (total_count_delta w (fst (limit_check w2 eventName)) eventName)
      as Hd.
    rewrite Hcoll in Hd.
    assert (Hl2 : ∀ n, n ≠ eventName → listeners w2 !! n = listeners w !! n).
    { intros n Hn.
      pose proof (store_listener_listeners flag w eventName l s n Es Hn) as H.
      by rewrite Est in H. }
    lapply Hd.
    2:{ intros n Hn. rewrite <- Hl2 by done.
        destruct (limit_check_cases w2 eventName) as [->|[m ->]]; done. }
    clear Hd. intros Hd. lapply Hd.
    2:{ intros n Hn. rewrite Hsame. by apply Hc2. }
    clear Hd. intros Hd.
    case_bool_decide; [lia|]. rewrite length_app in Hd. simpl in Hd. lia.
Qed.

(** On a dispatcher with a limits object, [on] ([flag = false]) and [once]
    ([flag = true]) of a listener whose [once] property can be defined as
    [flag] return normally.  The listener is appended to the collection of
    the name unless it is a member already, in which case the collection is
    unchanged; the collections of other names, the suspension flags, the
    call log, the promises and the result sets are unchanged; its [once]
    reads [flag]; [hasListener] finds it; and the total of [listenerCount]
    grows by one exactly when the listener was not a member. *)
Theorem register_adds_listener (code : nat → Closure) (flag : bool) w eventName l
    (Hlim : is_Some (limits w))
    (Hreg : registry_ok w)
    (Hslot : defineProperty (once_slot w l) flag ≠ None) :
  let result := (if flag then once else on) w eventName l in
  let w' := fst result in
  snd result = Normal tt
  ∧ collection w' eventName
    = (if bool_decide (l ∈ collection w eventName) then collection w eventName
       else collection w eventName ++ [l])
  ∧ (∀ n, n ≠ eventName → collection w' n = collection w n)
  ∧ is_once w' l = flag
  ∧ hasListener code w' eventName (Some l) = true
  ∧ (∀ x, is_suspended w' x = is_suspended w x)
  ∧ calls w' = calls w ∧ promises w' = promises w
  ∧ resultSets w' = resultSets w
  ∧ listenerCount w' None
    = listenerCount w None
      + (if bool_decide (l ∈ collection w eventName) then 0 else 1).
Proof. exact (register_spec code flag w eventName l Hlim Hreg Hslot). Qed.

Lemma register_adds_listener_witness :
  collection (fst (on readme_world "foo" (UserFn 2))) "foo"
  = [UserFn 0; UserFn 1; UserFn 2]
  ∧ is_once (fst (on readme_world "foo" (UserFn 2))) (UserFn 2) = false.
Proof.
  assert (Hreg : registry_ok readme_world).
  { eapply evolves_registry_ok;
      [apply (run_evolves demo_code) | apply registry_ok_construct]. }
  assert (Hslot : defineProperty (once_slot readme_world (UserFn 2)) false
                  ≠ None) by (vm_compute; discriminate).
  destruct (register_adds_listener demo_code false readme_world "foo"
              (UserFn 2) (ex_intro _ _ eq_refl) Hreg Hslot)
    as (_ & Hc & _ & Ho & _).
  split; [exact Hc | exact Ho].
Defined.

(** On a dispatcher without a limits object, [on] and [once] of a listener
    whose [once] property can be defined throw their [TypeError] after the
    insertion: the listener is a member of the collection afterwards, its
    [once] property is set, [hasListener] finds it, and no warning is
    emitted. *)
Theorem registration_without_limits_still_stores (code : nat → Closure)
    (flag : bool) w eventName l
    (Habsent : limits w = None)
    (Hreg : registry_ok w)
    (Hslot : defineProperty (once_slot w l) flag ≠ None) :
  let result := (if flag then once else on) w eventName l in
  let w' := fst result in
  snd result = Abrupt (TypeError "Cannot read properties of undefined")
  ∧ collection w' eventName
    = (if bool_decide (l ∈ collection w eventName) then collection w eventName
       else collection w eventName ++ [l])
  ∧ is_once w' l = flag
  ∧ hasListener code w' eventName (Some l) = true
  ∧ warnings w' = warnings w.
Proof.
  rewrite register_flag. cbv zeta.
  destruct (defineProperty (once_slot w l) flag) as [s|] eqn:Es; [|done].
  pose proof (store_listener_collection flag w eventName l s Hreg Es) as Hc.
  pose proof (store_listener_inv flag w eventName l) as Hinv.
  pose proof (store_listener_ok flag w eventName l s Es) as Hok.
  unfold register.
  destruct (store_listener flag w eventName l) as [w2 r] eqn:Est.
  assert (r = Normal tt) as -> by (rewrite Hok in Est; congruence).
  cbv zeta in Hc. cbn [fst] in Hc.
  destruct Hc as (Hc1 & _ & Ho & _).
  destruct (Hinv w2 eq_refl) as (Elim & _ & _ & Ews & _).
  unfold limit_check. rewrite Elim, Habsent. cbn [limits_guard fst snd].
  split_and!; try done.
  apply hasListener_text. exists l. split; [|done]. rewrite Hc1.
  case_bool_decide; [done|]. apply elem_of_app. right. left.
Qed.

Lemma registration_without_limits_still_stores_witness :
  snd (on bare "foo" (UserFn 0))
  = Abrupt (TypeError "Cannot read properties of undefined")
  ∧ collection (fst (on bare "foo" (UserFn 0))) "foo" = [UserFn 0]
  ∧ is_once (fst (on bare "foo" (UserFn 0))) (UserFn 0) = false
  ∧ hasListener demo_code (fst (on bare "foo" (UserFn 0))) "foo"
      (Some (UserFn 0)) = true
  ∧ warnings (fst (on bare "foo" (UserFn 0))) = warnings bare.
Proof.
  apply (registration_without_limits_still_stores demo_code false bare "foo"
           (UserFn 0)).
  - reflexivity.
  - apply registry_ok_construct.
  - vm_compute. discriminate.
Defined.

Lemma evolves_once_frozen (code : nat → Closure) w w' x s :
  rtc (mutation code) w w' →
  once_slot w x = Some s → frozen s = true → once_slot w' x = Some s.
Proof.
  induction 1 as [|w1 w2 w3 Hm _ IH]; [done|]. intros Hs Hf.
  apply IH; [|done]. by eapply mutation_once_frozen.
Qed.

Lemma evolves_limits (code : nat → Closure) w w' :
  rtc (mutation code) w w' → limits w' = limits w ∧ options w' = options w.
Proof.
  induction 1 as [|w1 w2 w3 Hm _ [IH1 IH2]]; [done|].
  destruct (mutation_config code _ _ Hm) as (E1 & E2 & _).
  split; congruence.
Qed.

(** The mode of the first registration of a function is final.  After [on]
    ([flag = false]) or [once] ([flag = true]) of a function without a
    [once] property, whatever operations follow, the property stays [flag];
    registering the function in the other mode, under any name, throws
    "Cannot redefine property: once" and leaves the world as it is;
    registering it again in the same mode returns normally when the
    dispatcher has a limits object, and the property is still [flag]. *)
Theorem registration_mode_is_final (code : nat → Closure) (flag : bool) w
    eventName f
    (Hfresh : once_slot w f = None) :
  ∀ ops eventName',
    let w2 := run code (fst ((if flag then once else on) w eventName f)) ops in
    once_slot w2 f = Some {| value := flag; frozen := true |}
    ∧ (if flag then on else once) w2 eventName' f
      = (w2, Abrupt (TypeError "Cannot redefine property: once"))
    ∧ (is_Some (limits w) →
       snd ((if flag then once else on) w2 eventName' f) = Normal tt
       ∧ once_slot (fst ((if flag then once else on) w2 eventName' f)) f
         = Some {| value := flag; frozen := true |}).
Proof.
  intros ops eventName'. rewrite register_flag.
  replace (if flag then on else once) with (register (negb flag))
    by (by destruct flag).
  cbv zeta. set (w1 := fst (register flag w eventName f)).
  set (w2 := run code w1 ops).
  assert (H1 : once_slot w1 f = Some {| value := flag; frozen := true |}).
  { unfold w1, once_slot. rewrite register_listenerData.
    by apply store_listener_once_slot. }
  assert (H2 : once_slot w2 f = Some {| value := flag; frozen := true |}).
  { eapply evolves_once_frozen; [apply run_evolves|done|done]. }
  assert (Hl2 : limits w2 = limits w).
  { destruct (evolves_limits code w1 w2 (run_evolves code _ _)) as [-> _].
    by destruct (evolves_limits code w w1 (register_evolves code _ _ _ _))
      as [-> _]. }
  split_and!.
  - done.
  - unfold register. rewrite store_listener_conflict; [done|].
    rewrite H2. simpl. rewrite bool_decide_eq_false_2; [done|].
    by destruct flag.
  - intros Hlim.
    assert (Hs : defineProperty (once_slot w2 f) flag
                 = Some {| value := flag; frozen := true |}).
    { rewrite H2. simpl. by rewrite bool_decide_eq_true_2. }
    pose proof (store_listener_ok flag w2 eventName' f _ Hs) as Hok.
    pose proof (store_listener_inv flag w2 eventName' f) as Hinv.
    split.
    + unfold register. rewrite Hok. apply limit_check_normal.
      destruct (Hinv _ Hok) as (-> & _). by rewrite Hl2.
    + unfold once_slot. rewrite register_listenerData, Hok. cbv zeta.
      cbn [fst]. destruct (listeners w2 !! eventName'); simpl;
        by rewrite lookup_insert_eq.
Qed.

Lemma registration_mode_is_final_witness :
  let w2 := run demo_code (fst (on unlimited "a" (UserFn 0)))
              [OpEmit "a" []; OpOff "a" (Some (UserFn 0))] in
  once_slot w2 (UserFn 0) = Some {| value := false; frozen := true |}
  ∧ once w2 "b" (UserFn 0)
    = (w2, Abrupt (TypeError "Cannot redefine property: once"))
  ∧ (is_Some (limits unlimited) →
     snd (on w2 "b" (UserFn 0)) = Normal tt
     ∧ once_slot (fst (on w2 "b" (UserFn 0))) (UserFn 0)
       = Some {| value := false; frozen := true |}).
Proof.
  exact (registration_mode_is_final demo_code false unlimited "a" (UserFn 0)
           eq_refl [OpEmit "a" []; OpOff "a" (Some (UserFn 0))] "b").
Defined.

(** ** Removal after registration *)

Lemma collection_off_world (code : nat → Closure) w eventName listener n :
  registry_ok w →
  collection (off_world code w eventName listener) n
  = if decide (n = eventName)
    then match listener with
         | Some l => filter (λ x, x ≠ l) (collection w eventName)
         | None => collection w eventName
         end
    else collection w n.
Proof.
  intros [Hinj Hpos]. unfold collection.
  rewrite off_world_listeners. case_decide as Hn.
  - subst n. destruct (listeners w !! eventName) as [loc|] eqn:E.
    + case_bool_decide as Hsz.
      * rewrite off_world_get_set, decide_True by done.
        destruct listener as [l|]; [apply set_values_delete | done].
      * unfold set_size in Hsz.
        destruct listener as [l|].
        -- rewrite <- set_values_delete.
           destruct (set_values (set_delete (Some l) (get_set w loc)));
             [done | simpl in Hsz; lia].
        -- simpl in Hsz.
           destruct (set_values (get_set w loc)); [done | simpl in Hsz; lia].
    + by destruct listener.
  - destruct (listeners w !! n) as [loc'|] eqn:En; [|done].
    rewrite off_world_get_set. case_decide as E; [|done].
    exfalso. by apply Hn, (Hinj _ _ _ En E).
Qed.

Lemma filter_ne_absent (l : Listener) (ls : list Listener) :
  l ∉ ls → filter (λ x, x ≠ l) ls = ls.
Proof.
  intros Hl. induction ls as [|x ls IH]; [done|].
  apply not_elem_of_cons in Hl as [Hx Hl].
  rewrite filter_cons_True by done. by rewrite IH.
Qed.

Lemma hasListener_collection (code : nat → Closure) w w' n cb :
  (is_Some (listeners w' !! n) ↔ is_Some (listeners w !! n)) →
  collection w' n = collection w n →
  hasListener code w' n cb = hasListener code w n cb.
Proof.
  intros Hk Hc. destruct cb as [cb|].
  - destruct (hasListener code w n (Some cb)) eqn:E.
    + apply hasListener_text. rewrite Hc. by apply hasListener_text.
    + destruct (hasListener code w' n (Some cb)) eqn:E'; [|done].
      apply hasListener_text in E'. rewrite Hc in E'.
      apply hasListener_text in E'. congruence.
  - simpl. by apply bool_decide_ext.
Qed.

(** [off] undoes a registration: after [on] or [once] of a listener that
    was not a member of the collection, [off] with the same name and
    listener restores every collection, so that [hasListener] and
    [listenerCount] answer as before the registration, for every
    argument. *)
Theorem off_undoes_registration (code : nat → Closure) (flag : bool) w
    eventName l
    (Hlim : is_Some (limits w))
    (Hreg : registry_ok w)
    (Hslot : defineProperty (once_slot w l) flag ≠ None)
    (Hnew : l ∉ collection w eventName) :
  let w1 := fst ((if flag then once else on) w eventName l) in
  let w2 := fst (off code w1 eventName (Some l)) in
  l ∈ collection w1 eventName
  ∧ (∀ n, collection w2 n = collection w n)
  ∧ (∀ n cb, hasListener code w2 n cb = hasListener code w n cb)
  ∧ (∀ n, listenerCount w2 n = listenerCount w n).
Proof.
  cbv zeta.
  destruct (register_spec code flag w eventName l Hlim Hreg Hslot)
    as (_ & Hc & Hother & _).
  cbv zeta in Hc, Hother.
  rewrite bool_decide_eq_false_2 in Hc by done.
  set (w1 := fst ((if flag then once else on) w eventName l)) in *.
  assert (Hreg1 : registry_ok w1).
  { unfold w1. rewrite register_flag.
    eapply evolves_registry_ok; [apply (register_evolves code)|done]. }
  assert (Hcoll : ∀ n, collection (off_world code w1 eventName (Some l)) n
                       = collection w n).
  { intros n. rewrite collection_off_world by done. case_decide as Hn.
    - subst n. rewrite Hc, list.filter_app, filter_ne_absent by done.
      rewrite filter_cons_False by (intros H; by apply H).
      by rewrite app_nil_r.
    - by apply Hother. }
  assert (Hkeys : ∀ n, is_Some (listeners (off_world code w1 eventName (Some l))
                                  !! n)
                       ↔ is_Some (listeners w !! n)).
  { intros n. rewrite (registry_ok_keys _ (registry_ok_off code _ _ _ Hreg1)).
    rewrite (registry_ok_keys _ Hreg). by rewrite Hcoll. }
  cbn [off fst].
  split_and!.
  - rewrite Hc. apply elem_of_app. right. left.
  - done.
  - intros n cb. by apply hasListener_collection.
  - assert (Htot : total_count (off_world code w1 eventName (Some l))
                   = total_count w).
    { pose proof (total_count_delta w (off_world code w1 eventName (Some l))
                    eventName) as Hd.
      rewrite Hcoll in Hd. lapply Hd.
      2:{ intros n Hn. rewrite off_world_listeners, decide_False by done.
          unfold w1. rewrite register_flag. by apply register_other_keys. }
      clear Hd. intros Hd. specialize (Hd (λ n _, Hcoll n)). lia. }
    intros [n|]; [|done]. destruct (decide (n = "")) as [->|Hn]; [done|].
    by rewrite !listenerCount_name, Hcoll.
Qed.

Lemma off_undoes_registration_witness :
  let w1 := fst (once readme_world "bar" (UserFn 2)) in
  let w2 := fst (off demo_code w1 "bar" (Some (UserFn 2))) in
  UserFn 2 ∈ collection w1 "bar"
  ∧ (∀ n, collection w2 n = collection readme_world n)
  ∧ (∀ n cb, hasListener demo_code w2 n cb = hasListener demo_code readme_world n cb)
  ∧ (∀ n, listenerCount w2 n = listenerCount readme_world n).
Proof.
  apply (off_undoes_registration demo_code true readme_world "bar" (UserFn 2)).
  - by eexists.
  - eapply evolves_registry_ok;
      [apply (run_evolves demo_code) | apply registry_ok_construct].
  - vm_compute. discriminate.
  - vm_compute. apply not_elem_of_nil.
Defined.

(** ** Warnings over the life of a dispatcher *)

Lemma dispatch_mutation_warnings (code : nat → Closure) w w' :
  dispatch_mutation code w w' →
  warnings w' = warnings w ∧ warned w' = warned w.
Proof.
  intros [w0 c|w0 p ps|w0 js|w0 rs|w0 cb w1 Hd|w0 n l]; try done.
  - unfold resolve. by destruct (promises w0 !! p) as [[]|].
  - by apply define_listened_inv in Hd as (d & s & _ & _ & ->).
  - pose proof (off_world_frame code w0 n l) as F. cbv zeta in F.
    by destruct F as (_ & _ & -> & _ & _ & _ & _ & -> & _).
Qed.

Lemma dispatches_warnings (code : nat → Closure) w w' :
  rtc (dispatch_mutation code) w w' →
  warnings w' = warnings w ∧ warned w' = warned w.
Proof.
  induction 1 as [|w1 w2 w3 Hm _ [IH1 IH2]]; [done|].
  destruct (dispatch_mutation_warnings code _ _ Hm) as [E1 E2].
  split; congruence.
Qed.

Lemma register_warnings (code : nat → Closure) flag w eventName l :
  registry_ok w →
  let w' := fst (register flag w eventName l) in
  (warnings w' = warnings w ∧ warned w' = warned w)
  ∨ (warned w = false ∧ warned w' = true
     ∧ ∃ m, warnings w' = warnings w ++ [m] ∧ configured_warning w m).
Proof.
  intros Hreg. cbv zeta. unfold register.
  destruct (store_listener flag w eventName l) as [w2 [[]|e]] eqn:Est.
  2:{ left. cbn [fst]. unfold store_listener in Est.
      destruct (listeners w !! eventName);
        destruct (define_once flag (ensure_listenerData w l) l) as [w1|] eqn:E1;
        try done; injection Est as <- _;
        unfold ensure_listenerData; by destruct (listenerData w !! l). }
  destruct (store_listener_inv _ _ _ _ _ Est) as (El & Eo & Ew & Ews & [loc Ek]).
  assert (Hreg2 : registry_ok w2).
  { eapply evolves_registry_ok; [|exact Hreg].
    pose proof (store_listener_evolves code flag w eventName l) as H.
    by rewrite Est in H. }
  destruct (limits w) as [lim|] eqn:Elim.
  2:{ left. unfold limit_check. rewrite El. simpl. by rewrite Ews, Ew. }
  unfold limit_check. rewrite El, Ew, Eo. cbn [limits_guard].
  destruct (exceeds (lim !! eventName) (collection_size w2 eventName)) eqn:Hex;
    [|left; simpl; by rewrite Ews, Ew].
  destruct (warned w) eqn:Hw; [left; simpl; by rewrite Ews, Ew|].
  destruct (limitWarn (options w)) as [[]|] eqn:Hlw;
    [|left; simpl; by rewrite Ews, Ew..].
  right. simpl. rewrite Ews. split; [done|]. split; [done|].
  eexists. split; [done|].
  split; [done|]. exists lim. split; [done|]. simpl.
  unfold exceeds, collection_size in Hex. rewrite Ek in Hex. simpl in Hex.
  destruct (lim !! eventName) as [k|]; [|done]. simpl. split; [done|].
  apply bool_decide_eq_true in Hex.
  destruct Hreg2 as [_ Hpos]. specialize (Hpos _ _ Ek). lia.
Qed.

Lemma step_warnings (code : nat → Closure) w op :
  registry_ok w →
  let w' := step code w op in
  (warnings w' = warnings w ∧ warned w' = warned w)
  ∨ (warned w = false ∧ warned w' = true
     ∧ ∃ m, warnings w' = warnings w ++ [m] ∧ configured_warning w m).
Proof.
  intros Hreg. destruct op; cbn [step].
  - by apply (register_warnings code).
  - by apply (register_warnings code).
  - unfold onceAsync.
    set (w0 := with_promises (promises w ++ [Pending]) w).
    pose proof (register_warnings code true w0 eventName
                  (AsyncFn (length (promises w)))) as H.
    lapply H; [|by eapply registry_ok_same]. clear H. cbv zeta.
    fold (once w0 eventName (AsyncFn (length (promises w)))).
    destruct (once w0 eventName (AsyncFn (length (promises w))))
      as [w1 [[]|e]]; cbn [fst]; [done|].
    assert (Hrej : warnings (reject w1 (length (promises w)) e) = warnings w1
                   ∧ warned (reject w1 (length (promises w)) e) = warned w1).
    { unfold reject. by destruct (promises w1 !! _) as [[]|]. }
    destruct Hrej as [-> ->]. done.
  - left. pose proof (off_world_frame code w eventName listener) as F.
    cbv zeta in F. cbn [off fst].
    by destruct F as (_ & _ & -> & _ & _ & _ & _ & -> & _).
  - left. eapply dispatches_warnings, emit_dispatches.
  - left. eapply dispatches_warnings, run_then_dispatches.
  - by left.
  - by left.
  - by left.
  - by left.
Qed.

(** Over the whole life of a dispatcher, whatever is done with it: the
    limits and [limitWarn] stay those of the construction, [limitWarn]
    being [true] unless it was given; at most one warning is emitted, and
    [warned] is set exactly when one has been; none is emitted when the
    dispatcher was built with [limitWarn: false]; and a warning names an
    event that has a configured limit, carries that limit, and the limit is
    greater than 1. *)
Theorem warnings_are_rare (code : nat → Closure) emitterOptions lims ops :
  let w := run code (construct emitterOptions lims) ops in
  limits w = lims
  ∧ limitWarn (options w) = Some (default true (emitterOptions ≫= limitWarn))
  ∧ length (warnings w) ≤ 1
  ∧ (warned w = true ↔ length (warnings w) = 1)
  ∧ (emitterOptions ≫= limitWarn = Some false → warnings w = [])
  ∧ (∀ m, m ∈ warnings w →
          emitterOptions ≫= limitWarn ≠ Some false
          ∧ ∃ lim, lims = Some lim
                   ∧ lim !! warn_event m = Some (warn_limit m)
                   ∧ (1 < warn_limit m)%Z).
Proof.
  cbv zeta.
  set (inv := λ w : World,
         registry_ok w ∧ limits w = lims
         ∧ options w = handleEmitterOptions emitterOptions
         ∧ (warned w = false → warnings w = [])
         ∧ (warned w = true → length (warnings w) = 1)
         ∧ ∀ m, m ∈ warnings w → configured_warning w m).
  assert (Hstep : ∀ w op, inv w → inv (step code w op)).
  { intros w op (Hreg & Hl & Ho & Hf & Ht & Hm).
    assert (Hreg' : registry_ok (step code w op)).
    { eapply evolves_registry_ok; [apply step_evolves|done]. }
    destruct (evolves_limits code w _ (step_evolves code w op)) as [El Eo].
    destruct (step_warnings code w op Hreg) as [[Ews Ew]|(Hw & Hw' & m & Ews & Hwm)].
    - unfold inv, configured_warning in *. rewrite Ews, Ew, El, Eo. done.
    - unfold inv, configured_warning in *.
      rewrite Ews, Hw', El, Eo, (Hf Hw). simpl.
      split_and!; try done.
      intros m' Hm'. apply list_elem_of_singleton in Hm' as ->. done. }
  assert (Hrun : ∀ w, inv w → inv (run code w ops)).
  { unfold run. induction ops as [|op ops' IH]; intros w Hw; [done|].
    simpl. apply IH. by apply Hstep. }
  destruct (Hrun (construct emitterOptions lims))
    as (_ & Hl & Ho & Hf & Ht & Hm).
  { unfold inv. split_and!; try done.
    intros m Hin. by apply elem_of_nil in Hin. }
  set (w := run code (construct emitterOptions lims) ops) in *.
  unfold configured_warning in Hm.
  assert (Hno : emitterOptions ≫= limitWarn = Some false →
                limitWarn (options w) = Some false).
  { rewrite Ho. destruct emitterOptions as [[[[]|]]|]; simpl; congruence. }
  split_and!.
  - done.
  - rewrite Ho. by destruct emitterOptions as [[[[]|]]|].
  - destruct (warned w); [rewrite Ht by done; lia | rewrite Hf by done; simpl; lia].
  - split; [done|]. destruct (warned w); [done|]. by rewrite Hf.
  - intros Hfalse. destruct (warnings w) as [|m ms] eqn:E; [done|].
    destruct (Hm m) as [Hlw _]; [left|]. rewrite (Hno Hfalse) in Hlw. done.
  - intros m Hin. destruct (Hm m Hin) as (Hlw & lim & Hlim & Hk).
    split.
    + intros Hfalse. rewrite (Hno Hfalse) in Hlw. done.
    + exists lim. by rewrite <- Hl.
Qed.

(** ** The [listened] flag *)

Lemma define_listened_sets w callback w' :
  define_listened w callback = Normal w' → is_listened w' callback = true.
Proof.
  intros H. apply define_listened_inv in H as (d & s & Hd & Hs & ->).
  unfold is_listened. simpl. rewrite lookup_insert_eq. simpl.
  by eapply defineProperty_value.
Qed.

Lemma mutation_listened (code : nat → Closure) w w' x :
  mutation code w w' → is_listened w x = true → is_listened w' x = true.
Proof.
  intros H. unfold is_listened. mutation_cases H; simpl; try done.
  - unfold resolve. by destruct (promises w !! p) as [[]|].
  - apply define_listened_inv in Hd as (d & s & Hd' & Hs & ->). simpl.
    destruct (decide (cb = x)) as [->|Hne].
    + rewrite lookup_insert_eq. simpl. intros _.
      by eapply defineProperty_value.
    + by rewrite lookup_insert_ne.
  - pose proof (off_world_frame code w n l) as F. cbv zeta in F.
    by destruct F as (_ & _ & _ & -> & _).
  - unfold reject. by destruct (promises w !! p) as [[]|].
  - unfold ensure_listenerData.
    destruct (listenerData w !! l) eqn:E; [done|]. simpl.
    destruct (decide (l = x)) as [->|Hne]; [by rewrite E|].
    by rewrite lookup_insert_ne.
  - apply define_once_inv in Hd as (d & s & Hd' & Hs & ->). simpl.
    destruct (decide (l = x)) as [->|Hne].
    + rewrite lookup_insert_eq, Hd'. done.
    + by rewrite lookup_insert_ne.
  - destruct (decide (l = x)) as [->|Hne].
    + rewrite lookup_insert_eq. by destruct (listenerData w !! x).
    + by rewrite lookup_insert_ne.
Qed.

Lemma evolves_listened (code : nat → Closure) w w' x :
  rtc (mutation code) w w' → is_listened w x = true → is_listened w' x = true.
Proof. induction 1; eauto using mutation_listened. Qed.

Lemma settle_listened (code : nat → Closure) w eventName callback v returnVal
    w' :
  settle code w eventName callback v returnVal = (w', Normal tt) →
  is_listened w' callback = true.
Proof.
  unfold settle. intros H.
  destruct (define_listened w callback) as [w2|] eqn:Hd; [|done].
  injection H as <-. apply define_listened_sets in Hd.
  unfold is_listened in *. simpl.
  destruct (is_once w2 callback); [|done]. simpl.
  pose proof (off_world_frame code w2 eventName (Some callback)) as F.
  cbv zeta in F. by destruct F as (_ & _ & _ & -> & _).
Qed.

Lemma emit_body_listened (code : nat → Closure) w eventName args returnVal
    callback w' :
  emit_body code w eventName args returnVal callback = (w', Normal tt) →
  is_suspended w callback = false →
  settles_now code callback args = true →
  is_listened w' callback = true.
Proof.
  unfold emit_body, settles_now. intros H Hsus Hnow. rewrite Hsus in H.
  match type of H with context [call code ?w0 callback args] =>
    pose proof (call_spec code w0 callback args) as Hc;
    destruct (call code w0 callback args) as [w1 r]
  end.
  cbv zeta in Hc. simpl in Hc. destruct Hc as (-> & _).
  destruct (outcome code callback args) as [v|e]; [|done].
  destruct (isPromiseLike v).
  - rewrite call_then_unfold, Hnow in H.
    destruct (settle code w1 eventName callback v returnVal)
      as [w2 [[]|e]] eqn:Hs; [|done].
    apply settle_listened in Hs. cbv zeta in H.
    destruct (then_keeps (then_of code callback args)),
      (then_throws (then_of code callback args)); try done;
      by injection H as <-.
  - by eapply settle_listened.
Qed.

Lemma emit_body_set (code : nat → Closure) w eventName args returnVal
    callback loc :
  let w' := fst (emit_body code w eventName args returnVal callback) in
  get_set w' loc = get_set w loc
  ∨ get_set w' loc = set_delete (Some callback) (get_set w loc).
Proof.
  cbv zeta.
  destruct (emit_body_effect code w eventName args returnVal callback)
    as (_ & _ & [[_ Hs]|[_ Hs]]).
  - left. by apply get_set_same.
  - rewrite (get_set_same _ _ _ Hs), off_world_get_set.
    case_decide; [by right | by left].
Qed.

Lemma settle_suspended_same (code : nat → Closure) w eventName callback v
    returnVal x :
  is_suspended (fst (settle code w eventName callback v returnVal)) x
  = is_suspended w x.
Proof.
  unfold settle.
  destruct (define_listened w callback) as [w2|] eqn:Hd; [|done].
  apply define_listened_inv in Hd as (d & s & Hd' & Hs & ->).
  assert (Hlast : ∀ w3 : World,
            listenerData w3
            = <[callback := ListenerData.with_listened (Some s) d]>
                (listenerData w) →
            is_suspended w3 x = is_suspended w x).
  { intros w3 E. unfold is_suspended. rewrite E.
    destruct (decide (x = callback)) as [->|Hne].
    - by rewrite lookup_insert_eq, Hd'.
    - by rewrite lookup_insert_ne. }
  cbn [fst]. apply Hlast.
  match goal with |- context [if ?b then _ else _] => destruct b end;
    [|done].
  simpl.
  match goal with |- context [off_world code ?w2 eventName (Some callback)] =>
    pose proof (off_world_frame code w2 eventName (Some callback)) as F
  end.
  cbv zeta in F. by destruct F as (_ & _ & _ & -> & _).
Qed.

Lemma call_then_suspended_same (code : nat → Closure) w eventName callback v
    returnVal b x :
  is_suspended (fst (call_then code w eventName callback v returnVal b)) x
  = is_suspended w x.
Proof.
  rewrite call_then_unfold.
  pose proof (settle_suspended_same code w eventName callback v returnVal x)
    as H.
  destruct (bool_decide (0 < then_calls b)).
  - destruct (settle code w eventName callback v returnVal) as [w1 [[]|e]];
      simpl in H |- *; [|done].
    by destruct (then_keeps b), (then_throws b).
  - by destruct (then_keeps b), (then_throws b).
Qed.

Lemma emit_body_suspended_same (code : nat → Closure) w eventName args
    returnVal callback x :
  is_suspended (fst (emit_body code w eventName args returnVal callback)) x
  = is_suspended w x.
Proof.
  unfold emit_body. destruct (is_suspended w callback) eqn:Hsus; [done|].
  match goal with |- context [call code ?w0 callback args] =>
    pose proof (call_spec code w0 callback args) as Hc;
    destruct (call code w0 callback args) as [w1 r]
  end.
  cbv zeta in Hc. simpl in Hc. destruct Hc as (_ & _ & _ & Hd1 & _).
  assert (H1 : is_suspended w1 x = is_suspended w x).
  { unfold is_suspended. by rewrite Hd1. }
  destruct r as [v|e]; [|done].
  destruct (isPromiseLike v).
  - by rewrite call_then_suspended_same.
  - by rewrite settle_suspended_same.
Qed.

Lemma emit_body_length (code : nat → Closure) w eventName args returnVal
    callback loc :
  length (get_set (fst (emit_body code w eventName args returnVal callback)) loc)
  = length (get_set w loc).
Proof.
  destruct (emit_body_set code w eventName args returnVal callback loc)
    as [->| ->]; [done | apply set_delete_length].
Qed.

Lemma emit_body_keeps_later (code : nat → Closure) w eventName args returnVal
    callback loc i x :
  x ≠ callback →
  Some x ∈ drop i (get_set w loc) →
  Some x ∈ drop i
             (get_set (fst (emit_body code w eventName args returnVal callback))
                loc).
Proof.
  intros Hne Hin.
  destruct (emit_body_set code w eventName args returnVal callback loc)
    as [->| ->]; [done|].
  unfold set_delete. rewrite <- fmap_drop.
  apply list_elem_of_fmap. exists (Some x). split; [|done].
  rewrite bool_decide_eq_false_2; [done|]. congruence.
Qed.

Section LoopListened.

Variable code : nat → Closure.
Variables (eventName : string) (args : list Val) (returnVal loc : nat).

(** Every member the loop of [emit] reaches that is not suspended and
    whose result is settled during its turn is marked as listened when the
    loop ends normally. *)
Lemma emit_loop_listened k : ∀ i w w' x,
  i + k = length (get_set w loc) →
  emit_loop code k i loc w eventName args returnVal = (w', Normal tt) →
  Some x ∈ drop i (get_set w loc) →
  is_suspended w x = false →
  settles_now code x args = true →
  is_listened w' x = true.
Proof.
  induction k as [|k IH]; intros i w w' x Hlen Hrun Hin Hsus Hnow.
  { rewrite drop_ge in Hin by lia. by apply elem_of_nil in Hin. }
  cbn [emit_loop] in Hrun.
  destruct (lookup_lt_is_Some_2 (get_set w loc) i) as [entry Hi]; [lia|].
  rewrite Hi in Hrun. rewrite (drop_S _ _ _ Hi) in Hin.
  destruct entry as [callback|].
  2:{ apply elem_of_cons in Hin as [?|Hin]; [done|].
      eapply (IH (S i) w); eauto. lia. }
  destruct (emit_body code w eventName args returnVal callback)
    as [w1 [[]|e]] eqn:Hbody; [|done].
  assert (Hw1 : w1 = fst (emit_body code w eventName args returnVal callback))
    by (by rewrite Hbody).
  destruct (decide (x = callback)) as [->|Hne].
  - pose proof (emit_body_listened code _ _ _ _ _ _ Hbody Hsus Hnow) as Hl.
    eapply (evolves_listened code w1); [|done].
    apply dispatches_evolves.
    pose proof (emit_loop_dispatches code k (S i) loc w1 eventName args
                  returnVal) as Hd.
    by rewrite Hrun in Hd.
  - apply elem_of_cons in Hin as [?|Hin]; [congruence|].
    eapply (IH (S i) w1); eauto.
    + rewrite Hw1, emit_body_length. lia.
    + rewrite Hw1. by apply emit_body_keeps_later.
    + rewrite Hw1, emit_body_suspended_same. done.
Qed.

End LoopListened.

Lemma emit_listened (code : nat → Closure) w eventName args w' r x :
  emit code w eventName args = (w', Normal r) →
  x ∈ collection w eventName →
  is_suspended w x = false →
  settles_now code x args = true →
  is_listened w' x = true.
Proof.
  unfold emit, collection. intros Hrun Hin Hsus Hnow.
  set (w0 := with_resultSets (resultSets w ++ [[]]) w) in *.
  change (listeners w0) with (listeners w) in Hrun.
  destruct (listeners w !! eventName) as [loc|]; [|by apply elem_of_nil in Hin].
  destruct (emit_loop code (length (get_set w0 loc)) 0 loc w0 eventName args
              (length (resultSets w))) as [w1 [[]|e]] eqn:Hloop; [|done].
  injection Hrun as <- _.
  eapply (emit_loop_listened code eventName args _ loc _ 0 w0); eauto.
  rewrite drop_0. by apply elem_of_set_values.
Qed.

Lemma isListened_member (w : World) n x :
  x ∈ collection w n → is_listened w x = true → isListened w n = true.
Proof.
  unfold isListened, collection. intros Hin Hl.
  destruct (listeners w !! n) as [loc|]; [|by apply elem_of_nil in Hin].
  apply bool_decide_eq_true, list.Exists_exists. eauto.
Qed.

(** A listener that [emit] runs to an immediate value, in an [emit] whose
    listeners return (the [then] of a promise-like result returning too),
    is marked as listened.  [isListened] of the event is true afterwards when the
    listener is not a one-time listener; the mark is never taken back by
    any later operation; and [isListened] is true for every event name the
    listener is a member of: the mark belongs to the function, not to the
    event. *)
Theorem emit_marks_listened (code : nat → Closure) w eventName args l v
    (Hheap : heap_ok w)
    (Hret : ∀ x, x ∈ collection w eventName → is_suspended w x = false →
                 returns code args x)
    (Hin : l ∈ collection w eventName)
    (Hsus : is_suspended w l = false)
    (Hv : outcome code l args = Normal v)
    (Himm : isPromiseLike v = false) :
  let w' := fst (emit code w eventName args) in
  is_listened w' l = true
  ∧ (is_once w l = false → isListened w' eventName = true)
  ∧ ∀ ops n,
      is_listened (run code w' ops) l = true
      ∧ (l ∈ collection (run code w' ops) n →
         isListened (run code w' ops) n = true).
Proof.
  destruct (heap_ok_ready w eventName Hheap) as [Hnd Hrec].
  destruct (emit_spec code w eventName args Hnd)
    as (w' & Hemit & _ & _ & Hcoll & _).
  { intros x Hx Hs. apply completes_intro; [by apply Hret | by apply Hrec]. }
  cbv zeta. rewrite Hemit. cbn [fst].
  assert (Hl : is_listened w' l = true).
  { eapply emit_listened; [done..|].
    unfold settles_now. by rewrite Hv, Himm. }
  split_and!.
  - done.
  - intros Ho. apply (isListened_member _ _ l); [|done]. rewrite Hcoll.
    apply list_elem_of_filter. split; [|done].
    unfold removes. by rewrite Ho, andb_false_r.
  - intros ops n.
    assert (is_listened (run code w' ops) l = true) as Hl'.
    { eapply evolves_listened; [apply run_evolves|done]. }
    split; [done|]. intros Hn. by apply (isListened_member _ _ l).
Qed.

Lemma emit_marks_listened_witness :
  let w' := fst (emit demo_code readme_world "foo" [VStr "pide"]) in
  is_listened w' (UserFn 0) = true
  ∧ (is_once readme_world (UserFn 0) = false → isListened w' "foo" = true)
  ∧ ∀ ops n,
      is_listened (run demo_code w' ops) (UserFn 0) = true
      ∧ (UserFn 0 ∈ collection (run demo_code w' ops) n →
         isListened (run demo_code w' ops) n = true).
Proof.
  apply (emit_marks_listened demo_code readme_world "foo" [VStr "pide"]
           (UserFn 0) (VStr "doner")).
  - eapply evolves_heap_ok;
      [apply (run_evolves demo_code) | apply heap_ok_construct].
  - intros x Hx _. vm_compute in Hx.
    repeat (apply elem_of_cons in Hx as [->|Hx]);
      [..|by apply elem_of_nil in Hx]; by eexists.
  - by apply (bool_decide_unpack _); vm_compute.
  - reflexivity.
  - reflexivity.
  - reflexivity.
Defined.

Lemma store_listener_listened flag w eventName l x :
  is_listened (fst (store_listener flag w eventName l)) x = is_listened w x.
Proof.
  assert (Hens : is_listened (ensure_listenerData w l) x = is_listened w x).
  { unfold is_listened, ensure_listenerData.
    destruct (listenerData w !! l) eqn:E; [done|]. simpl.
    destruct (decide (l = x)) as [->|Hne];
      [by rewrite lookup_insert_eq, E | by rewrite lookup_insert_ne]. }
  assert (Hdef : ∀ w1, define_once flag (ensure_listenerData w l) l = Normal w1 →
                       ∀ w2 : World, listenerData w2 = listenerData w1 →
                       is_listened w2 x = is_listened w x).
  { intros w1 H w2 E. rewrite <- Hens.
    apply define_once_inv in H as (d & s & Hd & _ & ->).
    unfold is_listened. rewrite E. simpl.
    destruct (decide (l = x)) as [->|Hne];
      [by rewrite lookup_insert_eq, Hd | by rewrite lookup_insert_ne]. }
  unfold store_listener.
  destruct (listeners w !! eventName);
    destruct (define_once flag (ensure_listenerData w l) l) as [w1|] eqn:E1;
    cbn [fst]; try done; by eapply Hdef.
Qed.

Lemma register_listened flag w eventName l x :
  is_listened (fst (register flag w eventName l)) x = is_listened w x.
Proof.
  unfold is_listened. rewrite register_listenerData.
  apply store_listener_listened.
Qed.

Lemma step_listened (code : nat → Closure) w op x :
  delivers op = false → is_listened (step code w op) x = is_listened w x.
Proof.
  intros Hop. destruct op; try done; cbn [step].
  - apply register_listened.
  - apply register_listened.
  - unfold onceAsync.
    set (w0 := with_promises (promises w ++ [Pending]) w).
    pose proof (register_listened true w0 eventName
                  (AsyncFn (length (promises w))) x) as H.
    fold (once w0 eventName (AsyncFn (length (promises w)))) in H.
    destruct (once w0 eventName (AsyncFn (length (promises w))))
      as [w1 [[]|e]]; cbn [fst] in *; [done|].
    transitivity (is_listened w1 x); [|exact H]. unfold is_listened, reject.
    by destruct (promises w1 !! _) as [[]|].
  - unfold is_listened. cbn [off fst].
    pose proof (off_world_frame code w eventName listener) as F.
    cbv zeta in F. by destruct F as (_ & _ & _ & -> & _).
  - unfold is_listened, set_suspended. simpl.
    destruct (decide (listener = x)) as [->|Hne].
    + rewrite lookup_insert_eq. by destruct (listenerData w !! x).
    + by rewrite lookup_insert_ne.
Qed.

(** As long as no [emit] and no [then] callback has run, no listener is
    marked as listened and [isListened] is false for every name. *)
Theorem isListened_needs_delivery (code : nat → Closure) emitterOptions lims
    ops
    (Hops : Forall (λ op, delivers op = false) ops) :
  let w := run code (construct emitterOptions lims) ops in
  (∀ l, is_listened w l = false) ∧ (∀ n, isListened w n = false).
Proof.
  cbv zeta.
  assert (Hrun : ∀ w, (∀ l, is_listened w l = false) →
                      ∀ l, is_listened (run code w ops) l = false).
  { unfold run. induction Hops as [|op ops' Hop _ IH]; intros w Hw; [done|].
    simpl. apply IH. intros l. by rewrite step_listened. }
  assert (Hl : ∀ l, is_listened (run code (construct emitterOptions lims) ops) l
                    = false).
  { apply Hrun. intros l. unfold is_listened. simpl.
    by rewrite lookup_empty. }
  split; [done|]. intros n. unfold isListened.
  destruct (listeners _ !! n) as [loc|]; [|done].
  apply bool_decide_eq_false. rewrite list.Exists_exists.
  intros (l & _ & H). by rewrite Hl in H.
Qed.

Lemma isListened_needs_delivery_witness :
  (∀ l, is_listened readme_world l = false)
  ∧ (∀ n, isListened readme_world n = false).
Proof.
  apply (isListened_needs_delivery demo_code).
  repeat constructor.
Defined.

(** ** Promise-like results *)

Lemma settle_jobs (code : nat → Closure) w eventName callback v returnVal :
  thenJobs (fst (settle code w eventName callback v returnVal)) = thenJobs w
  ∧ calls (fst (settle code w eventName callback v returnVal)) = calls w.
Proof.
  unfold settle.
  destruct (define_listened w callback) as [w1|] eqn:Hd; [|done].
  apply define_listened_inv in Hd as (d & s & _ & _ & ->). cbn [fst].
  match goal with |- context [if ?b then _ else _] => destruct b end;
    [|done].
  simpl.
  match goal with |- context [off_world code ?w2 eventName (Some callback)] =>
    pose proof (off_world_frame code w2 eventName (Some callback)) as F
  end.
  cbv zeta in F. by destruct F as (_ & _ & _ & _ & _ & _ & -> & _ & -> & _).
Qed.

Lemma emit_body_jobs (code : nat → Closure) w eventName args returnVal callback
    w' :
  emit_body code w eventName args returnVal callback = (w', Normal tt) →
  ∃ cs, calls w' = calls w ++ cs
        ∧ thenJobs w' = thenJobs w ++ omap (job_of code returnVal) cs.
Proof.
  unfold emit_body.
  destruct (is_suspended w callback).
  { intros [= <-]. exists []. simpl. by rewrite !app_nil_r. }
  match goal with |- context [call code ?w0 callback args] =>
    pose proof (call_spec code w0 callback args) as Hc;
    destruct (call code w0 callback args) as [w1 r]
  end.
  cbv zeta in Hc. simpl in Hc.
  destruct Hc as (-> & _ & _ & _ & _ & Hj & Hcalls & _).
  intros Hbody.
  exists [{| call_event := eventName; call_listener := callback;
             call_args := args |}].
  unfold job_of. simpl.
  destruct (outcome code callback args) as [v|e]; [|done].
  pose proof (settle_jobs code w1 eventName callback v returnVal) as Hs.
  destruct (isPromiseLike v); simpl.
  - rewrite call_then_unfold in Hbody.
    destruct (bool_decide (0 < then_calls (then_of code callback args))).
    + destruct (settle code w1 eventName callback v returnVal)
        as [w2 [[]|e]]; [|done].
      cbn [fst] in Hs. destruct Hs as [Hs1 Hs2]. cbv zeta in Hbody.
      destruct (then_keeps (then_of code callback args)),
        (then_throws (then_of code callback args)); try done;
        injection Hbody as <-; simpl; by rewrite ?Hs1, ?Hs2, ?Hj, ?Hcalls,
          ?app_nil_r.
    + cbv zeta in Hbody.
      destruct (then_keeps (then_of code callback args)),
        (then_throws (then_of code callback args)); try done;
        injection Hbody as <-; simpl; by rewrite ?Hj, ?Hcalls, ?app_nil_r.
  - rewrite Hbody in Hs. cbn [fst] in Hs. destruct Hs as [-> ->].
    by rewrite Hj, Hcalls, app_nil_r.
Qed.

Lemma emit_loop_jobs (code : nat → Closure) eventName args returnVal loc k :
  ∀ i w w',
    emit_loop code k i loc w eventName args returnVal = (w', Normal tt) →
    ∃ cs, calls w' = calls w ++ cs
          ∧ thenJobs w' = thenJobs w ++ omap (job_of code returnVal) cs.
Proof.
  induction k as [|k IH]; intros i w w'.
  { intros [= <-]. exists []. simpl. by rewrite !app_nil_r. }
  cbn [emit_loop].
  destruct (get_set w loc !! i) as [[callback|]|]; [|apply IH..].
  destruct (emit_body code w eventName args returnVal callback)
    as [w1 [[]|e]] eqn:Hbody; [|done].
  destruct (emit_body_jobs code w eventName args returnVal callback w1 Hbody)
    as (cs1 & Hc1 & Hj1).
  intros Hloop. destruct (IH (S i) w1 w' Hloop) as (cs2 & Hc2 & Hj2).
  exists (cs1 ++ cs2).
  rewrite Hc2, Hj2, Hc1, Hj1, omap_app, <- !app_assoc. done.
Qed.

(** The continuations an [emit] that returns has attached mirror the calls
    it made. *)
Lemma emit_jobs (code : nat → Closure) w eventName args w' r :
  emit code w eventName args = (w', Normal r) →
  ∃ cs, calls w' = calls w ++ cs
        ∧ thenJobs w'
          = thenJobs w ++ omap (job_of code (length (resultSets w))) cs.
Proof.
  unfold emit.
  set (w0 := with_resultSets (resultSets w ++ [[]]) w).
  destruct (listeners w0 !! eventName) as [loc|].
  2:{ intros [= <- _]. exists []. simpl. by rewrite !app_nil_r. }
  destruct (emit_loop code _ 0 loc w0 eventName args _) as [w1 [[]|e]] eqn:Hl;
    [|done].
  intros [= <- _].
  by eapply (emit_loop_jobs code eventName args _ loc _ 0 w0).
Qed.

(** A listener whose result is not settled during its call keeps its
    [listenerData] through a turn of the loop. *)
Lemma emit_body_untouched (code : nat → Closure) w eventName args returnVal
    callback x :
  settles_now code x args = false →
  listenerData (fst (emit_body code w eventName args returnVal callback)) !! x
  = listenerData w !! x.
Proof.
  intros Hx. destruct (decide (x = callback)) as [->|Hne].
  2:{ destruct (emit_body_effect code w eventName args returnVal callback)
        as (_ & Hd & _). by apply Hd. }
  unfold emit_body. destruct (is_suspended w callback); [done|].
  match goal with |- context [call code ?w0 callback args] =>
    pose proof (call_spec code w0 callback args) as Hc;
    destruct (call code w0 callback args) as [w1 r]
  end.
  cbv zeta in Hc. simpl in Hc. destruct Hc as (-> & _ & _ & Hd1 & _).
  unfold settles_now in Hx.
  destruct (outcome code callback args) as [v|e] eqn:Hv;
    [|simpl; by rewrite Hd1].
  destruct (isPromiseLike v); [|done].
  rewrite call_then_unfold, Hx. cbv zeta.
  by destruct (then_keeps (then_of code callback args)),
    (then_throws (then_of code callback args)); simpl; rewrite Hd1.
Qed.

Lemma emit_loop_untouched (code : nat → Closure) eventName args returnVal loc
    x k : ∀ i w,
  settles_now code x args = false →
  listenerData (fst (emit_loop code k i loc w eventName args returnVal)) !! x
  = listenerData w !! x.
Proof.
  induction k as [|k IH]; intros i w Hx; [done|]. cbn [emit_loop].
  destruct (get_set w loc !! i) as [[callback|]|]; [|by apply IH..].
  pose proof (emit_body_untouched code w eventName args returnVal callback x Hx)
    as H1.
  destruct (emit_body code w eventName args returnVal callback)
    as [w1 [[]|e]]; cbn [fst] in *; [|done].
  by rewrite IH.
Qed.

Lemma emit_untouched (code : nat → Closure) w eventName args x :
  settles_now code x args = false →
  listenerData (fst (emit code w eventName args)) !! x = listenerData w !! x.
Proof.
  intros Hx. unfold emit.
  set (w0 := with_resultSets (resultSets w ++ [[]]) w).
  destruct (listeners w0 !! eventName) as [loc|]; [|done].
  pose proof (emit_loop_untouched code eventName args (length (resultSets w))
                loc x (length (get_set w0 loc)) 0 w0 Hx) as H.
  by destruct (emit_loop code _ 0 loc w0 eventName args _) as [w1 [[]|e]].
Qed.

Lemma elem_of_result_add v r : v ∈ result_add v r.
Proof.
  unfold result_add. case_bool_decide; [done|].
  apply elem_of_app. right. left.
Qed.

(** The [then] callback of a pending result. *)
Lemma run_then_spec (code : nat → Closure) w k j :
  registry_ok w → recordable w (job_callback j) → thenJobs w !! k = Some j →
  ∃ w', run_then code w k = (w', Normal tt)
    ∧ thenJobs w' = delete k (thenJobs w)
    ∧ is_listened w' (job_callback j) = true
    ∧ resultSets w'
      = alter (result_add (job_value j)) (job_result j) (resultSets w)
    ∧ (∀ n, collection w' n
            = if decide (n = job_event j)
              then (if is_once w (job_callback j)
                    then filter (λ x, x ≠ job_callback j) (collection w n)
                    else collection w n)
              else collection w n)
    ∧ calls w' = calls w.
Proof.
  intros Hreg (d & Hd & Hdef) Hk. unfold run_then. rewrite Hk.
  set (w0 := with_thenJobs (delete k (thenJobs w)) w).
  unfold settle, define_listened.
  change (listenerData w0) with (listenerData w). rewrite Hd.
  destruct (defineProperty (ListenerData.listened d) true) as [s|] eqn:Es;
    [|done].
  set (w1 := with_listenerData _ w0).
  assert (Ho : is_once w1 (job_callback j) = is_once w (job_callback j)).
  { unfold is_once, w1. simpl. by rewrite lookup_insert_eq, Hd. }
  assert (Hl : is_listened w1 (job_callback j) = true).
  { unfold is_listened, w1. simpl. rewrite lookup_insert_eq. simpl.
    by eapply defineProperty_value. }
  assert (Hreg1 : registry_ok w1) by (by eapply registry_ok_same).
  rewrite Ho. eexists. split; [done|].
  destruct (is_once w (job_callback j)); cbn [fst off].
  - pose proof (off_world_frame code w1 (job_event j) (Some (job_callback j)))
      as F.
    cbv zeta in F.
    destruct F as (_ & _ & _ & Fd & _ & Fr & Fj & _ & Fc & _).
    split_and!; simpl.
    + by rewrite Fj.
    + unfold is_listened in *. simpl. by rewrite Fd.
    + by rewrite Fr.
    + intros n.
      transitivity (collection (off_world code w1 (job_event j)
                                  (Some (job_callback j))) n); [done|].
      rewrite collection_off_world by done. case_decide; by subst.
    + by rewrite Fc.
  - split_and!; try done. intros n. by case_decide.
Qed.

Lemma calls_of_app e l cs1 cs2 :
  calls_of e l (cs1 ++ cs2) = calls_of e l cs1 + calls_of e l cs2.
Proof. unfold calls_of. by rewrite list.filter_app, length_app. Qed.

(** A listener whose result is promise-like, with a [then] that keeps the
    callback and does not run it before returning (a native promise), is
    not settled by [emit], provided no other listener has that same
    result settled.
    When [emit] returns, the listener is still a member, also when it is a
    one-time listener; its [listenerData] is untouched; the result set does
    not hold the result; and a [then] callback is pending for it.  When
    that callback runs (the promise fulfilled), it returns normally, marks
    the listener as listened, adds the promise-like value itself to the
    result set that [emit] returned, removes the listener if it is a
    one-time listener, and calls nothing. *)
Theorem promise_result_is_settled_later (code : nat → Closure) w eventName
    args l v
    (Hreg : registry_ok w)
    (Hheap : heap_ok w)
    (Hret : ∀ x, x ∈ collection w eventName → is_suspended w x = false →
                 returns code args x)
    (Hin : l ∈ collection w eventName)
    (Hsus : is_suspended w l = false)
    (Hv : outcome code l args = Normal v)
    (Hp : isPromiseLike v = true)
    (Hlater : then_calls (then_of code l args) = 0)
    (Hkeeps : then_keeps (then_of code l args) = true)
    (Hown : ∀ x, x ∈ collection w eventName →
                 outcome code x args = Normal v →
                 then_calls (then_of code x args) = 0) :
  let returnVal := length (resultSets w) in
  let w1 := fst (emit code w eventName args) in
  let job := {| job_event := eventName; job_callback := l; job_value := v;
                job_result := returnVal |} in
  snd (emit code w eventName args) = Normal returnVal
  ∧ l ∈ collection w1 eventName
  ∧ listenerData w1 !! l = listenerData w !! l
  ∧ (∃ results, resultSets w1 !! returnVal = Some results ∧ v ∉ results)
  ∧ job ∈ thenJobs w1
  ∧ ∀ k, thenJobs w1 !! k = Some job →
      let w2 := fst (run_then code w1 k) in
      snd (run_then code w1 k) = Normal tt
      ∧ is_listened w2 l = true
      ∧ (∃ results, resultSets w2 !! returnVal = Some results ∧ v ∈ results)
      ∧ (is_once w l = true → l ∉ collection w2 eventName)
      ∧ (is_once w l = false → l ∈ collection w2 eventName)
      ∧ calls w2 = calls w1.
Proof.
  destruct (heap_ok_ready w eventName Hheap) as [Hnd Hrec].
  destruct (emit_spec code w eventName args Hnd)
    as (w1 & Hemit & Hc & Hr & Hcoll & _ & Ho & _).
  { intros x Hx Hs. apply completes_intro; [by apply Hret | by apply Hrec]. }
  pose proof (emit_jobs code w eventName args w1 _ Hemit) as Hjobs.
  pose proof (emit_untouched code w eventName args l) as Hdata.
  pose proof (emit_dispatches code w eventName args) as Hev.
  cbv zeta. rewrite Hemit in Hdata, Hev |- *.
  cbn [fst snd] in *. apply dispatches_evolves in Hev.
  assert (Hact : l ∈ active w (collection w eventName))
    by (by apply list_elem_of_filter).
  assert (Hnow : settles_now code l args = false).
  { unfold settles_now. rewrite Hv, Hp, Hlater. done. }
  assert (Hl1 : l ∈ collection w1 eventName).
  { rewrite Hcoll. apply list_elem_of_filter. split; [|done].
    unfold removes. by rewrite Hnow, andb_false_r. }
  assert (Hres : resultSets w1 !! length (resultSets w)
                 = Some (add_all (settled_results code args
                                    (active w (collection w eventName))) [])).
  { rewrite Hr. by apply list_lookup_middle. }
  split_and!.
  - done.
  - done.
  - by apply Hdata.
  - eexists. split; [exact Hres|].
    rewrite elem_of_add_all, elem_of_settled_results.
    intros [Hn|(x & Hx & Hxv & Hxs)]; [by apply elem_of_nil in Hn|].
    apply list_elem_of_filter in Hx as [_ Hx].
    unfold settles_now in Hxs. rewrite Hxv, Hp in Hxs.
    rewrite (Hown x Hx Hxv) in Hxs. done.
  - destruct Hjobs as (cs & Hcs & ->). rewrite Hc in Hcs.
    apply app_inv_head in Hcs as <-.
    apply elem_of_app. right. apply list_elem_of_omap.
    eexists. split; [apply list_elem_of_fmap; by eexists|].
    unfold job_of. simpl. by rewrite Hv, Hp, Hkeeps.
  - intros k Hk.
    assert (Hrec1 : recordable w1 l).
    { by apply (heap_ok_ready w1 eventName
                  (evolves_heap_ok code _ _ Hev Hheap)). }
    destruct (run_then_spec code w1 k
                {| job_event := eventName; job_callback := l; job_value := v;
                   job_result := length (resultSets w) |}
                (evolves_registry_ok code _ _ Hev Hreg) Hrec1 Hk)
      as (w2 & Hrun & _ & Hl2 & Hr2 & Hc2 & Hcalls).
    simpl in *. rewrite Hrun. cbn [fst snd]. rewrite Ho in Hc2.
    split_and!; try done.
    + eexists. split.
      * rewrite Hr2, list_lookup_alter_eq, Hres. done.
      * apply elem_of_result_add.
    + intros Honce. rewrite Hc2, decide_True, Honce by done.
      rewrite list_elem_of_filter. intros [? _]. done.
    + intros Honce. by rewrite Hc2, decide_True, Honce.
Qed.

Lemma promise_result_is_settled_later_witness :
  let w := run demo_code unlimited [OpOnce "foo" (UserFn 4)] in
  let w1 := fst (emit demo_code w "foo" []) in
  snd (emit demo_code w "foo" []) = Normal 0
  ∧ UserFn 4 ∈ collection w1 "foo"
  ∧ {| job_event := "foo"; job_callback := UserFn 4;
       job_value := VThenable 0; job_result := 0 |} ∈ thenJobs w1.
Proof.
  cbv zeta.
  destruct (promise_result_is_settled_later demo_code
              (run demo_code unlimited [OpOnce "foo" (UserFn 4)]) "foo" []
              (UserFn 4) (VThenable 0))
    as (H1 & H2 & _ & _ & H3 & _).
  - eapply evolves_registry_ok;
      [apply (run_evolves demo_code) | apply registry_ok_construct].
  - eapply evolves_heap_ok;
      [apply (run_evolves demo_code) | apply heap_ok_construct].
  - intros x Hx _. vm_compute in Hx.
    repeat (apply elem_of_cons in Hx as [->|Hx]);
      [..|by apply elem_of_nil in Hx]; by eexists.
  - by apply (bool_decide_unpack _); vm_compute.
  - reflexivity.
  - reflexivity.
  - reflexivity.
  - reflexivity.
  - reflexivity.
  - intros x Hx _. vm_compute in Hx.
    repeat (apply elem_of_cons in Hx as [->|Hx]);
      [..|by apply elem_of_nil in Hx]; reflexivity.
  - split_and!; [exact H1 | exact H2 | exact H3].
Defined.

(** The whole life of a promise-like result, on the sample program. *)
Example async_once_listener :
  let w := run demo_code unlimited [OpOnce "foo" (UserFn 4)] in
  let w1 := step demo_code w (OpEmit "foo" []) in
  let w2 := step demo_code w1 (OpThen 0) in
  collection w1 "foo" = [UserFn 4] ∧ resultSets w1 = [[]]
  ∧ isListened w1 "foo" = false
  ∧ collection w2 "foo" = [] ∧ resultSets w2 = [[VThenable 0]]
  ∧ is_listened w2 (UserFn 4) = true.
Proof. vm_compute. done. Qed.

(** A one-time listener whose result is promise-like, with a [then] that
    does not run the callback before returning (a native promise), is
    still registered when [emit] returns, and a second [emit] before the
    [then] callback runs it again: it is called once by each of the
    two. *)
Theorem once_listener_with_promise_runs_again (code : nat → Closure) w
    eventName args args' l v
    (Hheap : heap_ok w)
    (Hret : ∀ x a, x ∈ collection w eventName → is_suspended w x = false →
                   a = args ∨ a = args' → returns code a x)
    (Hin : l ∈ collection w eventName)
    (Hsus : is_suspended w l = false)
    (Honce : is_once w l = true)
    (Hv : outcome code l args = Normal v)
    (Hp : isPromiseLike v = true)
    (Hlater : then_calls (then_of code l args) = 0) :
  let w1 := fst (emit code w eventName args) in
  let w2 := fst (emit code w1 eventName args') in
  l ∈ collection w1 eventName
  ∧ calls_of eventName l (calls w1) = calls_of eventName l (calls w) + 1
  ∧ calls_of eventName l (calls w2) = calls_of eventName l (calls w) + 2.
Proof.
  destruct (heap_ok_ready w eventName Hheap) as [Hnd Hrec].
  destruct (emit_spec code w eventName args Hnd)
    as (w1 & Hemit & Hc & _ & Hcoll & Hs & _).
  { intros x Hx Hxs.
    apply completes_intro; [apply Hret; auto | by apply Hrec]. }
  pose proof (emit_dispatches code w eventName args) as Hev.
  cbv zeta. rewrite Hemit in Hev |- *. cbn [fst] in *.
  apply dispatches_evolves in Hev.
  assert (Hl1 : l ∈ collection w1 eventName).
  { rewrite Hcoll. apply list_elem_of_filter. split; [|done].
    unfold removes, settles_now. by rewrite Hv, Hp, Hlater, andb_false_r. }
  destruct (heap_ok_ready w1 eventName (evolves_heap_ok code _ _ Hev Hheap))
    as [Hnd1 Hrec1].
  destruct (emit_spec code w1 eventName args' Hnd1)
    as (w2 & Hemit2 & Hc2 & _).
  { intros x Hx Hxs. apply completes_intro; [|by apply Hrec1].
    rewrite Hs in Hxs. rewrite Hcoll in Hx.
    apply list_elem_of_filter in Hx as [_ Hx]. apply Hret; auto. }
  rewrite Hemit2. cbn [fst].
  assert (Hone : ∀ w0 a,
            NoDup (collection w0 eventName) → l ∈ collection w0 eventName →
            is_suspended w0 l = false →
            calls_of eventName l
              ((λ x, {| call_event := eventName; call_listener := x;
                        call_args := a |})
                 <$> active w0 (collection w0 eventName)) = 1).
  { intros w0 a Hn Hi Hsu.
    rewrite calls_of_fmap, count_NoDup by (by apply list.NoDup_filter).
    rewrite bool_decide_eq_true_2; [done|]. by apply list_elem_of_filter. }
  split_and!.
  - done.
  - rewrite Hc, calls_of_app, Hone by done. done.
  - rewrite Hc2, Hc, !calls_of_app, !Hone by (done || by rewrite Hs). lia.
Qed.

Lemma once_listener_with_promise_runs_again_witness :
  let w := run demo_code unlimited [OpOnce "foo" (UserFn 4)] in
  let w1 := fst (emit demo_code w "foo" []) in
  let w2 := fst (emit demo_code w1 "foo" []) in
  UserFn 4 ∈ collection w1 "foo"
  ∧ calls_of "foo" (UserFn 4) (calls w1)
    = calls_of "foo" (UserFn 4) (calls w) + 1
  ∧ calls_of "foo" (UserFn 4) (calls w2)
    = calls_of "foo" (UserFn 4) (calls w) + 2.
Proof.
  apply (once_listener_with_promise_runs_again demo_code _ "foo" [] []
           (UserFn 4) (VThenable 0)).
  - eapply evolves_heap_ok;
      [apply (run_evolves demo_code) | apply heap_ok_construct].
  - intros x a Hx _ _. vm_compute in Hx.
    repeat (apply elem_of_cons in Hx as [->|Hx]);
      [..|by apply elem_of_nil in Hx]; by eexists.
  - by apply (bool_decide_unpack _); vm_compute.
  - reflexivity.
  - reflexivity.
  - reflexivity.
  - reflexivity.
  - reflexivity.
Defined.

(** ** What [emit] leaves alone *)

Lemma emit_body_other_names (code : nat → Closure) w eventName args returnVal
    callback :
  registry_ok w →
  let w' := fst (emit_body code w eventName args returnVal callback) in
  registry_ok w'
  ∧ ∀ n, n ≠ eventName →
         listeners w' !! n = listeners w !! n
         ∧ collection w' n = collection w n.
Proof.
  intros Hreg. cbv zeta. split.
  { eapply evolves_registry_ok; [|done].
    apply dispatches_evolves, emit_body_dispatches. }
  intros n Hn.
  destruct (emit_body_effect code w eventName args returnVal callback)
    as (_ & _ & [[Hl Hs]|[Hl Hs]]).
  - split; [by rewrite Hl | by apply collection_same].
  - split.
    + by rewrite Hl, off_world_listeners, decide_False.
    + rewrite (collection_same _ _ n Hl Hs), collection_off_world by done.
      by rewrite decide_False.
Qed.

Lemma emit_loop_other_names (code : nat → Closure) eventName args returnVal loc
    k : ∀ i w,
  registry_ok w →
  let w' := fst (emit_loop code k i loc w eventName args returnVal) in
  ∀ n, n ≠ eventName →
       listeners w' !! n = listeners w !! n ∧ collection w' n = collection w n.
Proof.
  cbv zeta. induction k as [|k IH]; intros i w Hreg n Hn; [done|].
  cbn [emit_loop].
  destruct (get_set w loc !! i) as [[callback|]|]; [|by apply IH..].
  destruct (emit_body_other_names code w eventName args returnVal callback Hreg)
    as [Hreg1 H1].
  destruct (H1 n Hn) as [Hl1 Hc1].
  destruct (emit_body code w eventName args returnVal callback)
    as [w1 [[]|e]]; cbn [fst] in *; [|done].
  destruct (IH (S i) w1 Hreg1 n Hn) as [-> ->]. done.
Qed.

Lemma emit_other_names (code : nat → Closure) w eventName args n :
  registry_ok w → n ≠ eventName →
  listeners (fst (emit code w eventName args)) !! n = listeners w !! n
  ∧ collection (fst (emit code w eventName args)) n = collection w n.
Proof.
  intros Hreg Hn. unfold emit.
  set (w0 := with_resultSets (resultSets w ++ [[]]) w).
  destruct (listeners w0 !! eventName) as [loc|]; [|done].
  pose proof (emit_loop_other_names code eventName args
                (length (resultSets w)) loc (length (get_set w0 loc)) 0 w0)
    as H.
  cbv zeta in H. lapply H; [|by eapply registry_ok_same]. clear H.
  intros H. specialize (H n Hn).
  by destruct (emit_loop code _ 0 loc w0 eventName args _) as [w1 [[]|e]].
Qed.

Lemma emit_total_count (code : nat → Closure) w eventName args :
  registry_ok w →
  total_count (fst (emit code w eventName args))
  + length (collection w eventName)
  = total_count w + length (collection (fst (emit code w eventName args))
                              eventName).
Proof.
  intros Hreg. apply total_count_delta; intros n Hn;
    by apply emit_other_names.
Qed.

(** [emit] acts on the emitted event only, whether its listeners return or
    throw: the collections of the other names are
    unchanged, no listener is called for another name, the collection of
    the event only loses members, no warning is emitted, and the total of
    [listenerCount] drops by the number of members removed. *)
Theorem emit_touches_one_event (code : nat → Closure) w eventName args
    (Hreg : registry_ok w) :
  let w' := fst (emit code w eventName args) in
  (∀ n, n ≠ eventName →
        collection w' n = collection w n
        ∧ hasListener code w' n None = hasListener code w n None
        ∧ ∀ x, calls_of n x (calls w') = calls_of n x (calls w))
  ∧ (∀ x, x ∈ collection w' eventName → x ∈ collection w eventName)
  ∧ warnings w' = warnings w
  ∧ listenerCount w' None + length (collection w eventName)
    = listenerCount w None + length (collection w' eventName).
Proof.
  cbv zeta. split_and!.
  - intros n Hn.
    destruct (emit_other_names code w eventName args n Hreg Hn) as [Hl Hc].
    split_and!; [done| |].
    + simpl. apply bool_decide_ext. by rewrite Hl.
    + intros x. by apply emit_calls_other.
  - intros x. by apply (dispatches_keeps code), emit_dispatches.
  - by apply (dispatches_warnings code), emit_dispatches.
  - by apply emit_total_count.
Qed.

Lemma emit_touches_one_event_witness :
  let w := run demo_code unlimited
             [OpOnce "foo" (UserFn 0); OpOn "bar" (UserFn 1)] in
  let w' := fst (emit demo_code w "foo" []) in
  (∀ n, n ≠ "foo" →
        collection w' n = collection w n
        ∧ hasListener demo_code w' n None = hasListener demo_code w n None
        ∧ ∀ x, calls_of n x (calls w') = calls_of n x (calls w))
  ∧ (∀ x, x ∈ collection w' "foo" → x ∈ collection w "foo")
  ∧ warnings w' = warnings w
  ∧ listenerCount w' None + length (collection w "foo")
    = listenerCount w None + length (collection w' "foo").
Proof.
  apply (emit_touches_one_event demo_code).
  eapply evolves_registry_ok;
    [apply (run_evolves demo_code) | apply registry_ok_construct].
Defined.

(** ** An event whose listeners are all one-time listeners *)

Lemma filter_none (P : Listener → Prop) `{!∀ x, Decision (P x)} ls :
  (∀ x, x ∈ ls → ¬ P x) → filter P ls = [].
Proof.
  induction ls as [|y ls IH]; [done|]. intros Hno.
  rewrite filter_cons_False by (apply Hno; left).
  apply IH. intros x Hx. apply Hno. by right.
Qed.

(** When all the members of an event are one-time listeners that are not
    suspended and return immediate values, [emit] empties the event: the
    name is no longer a key ([hasListener] is false for every argument,
    [listenerCount] is 0), the total drops by the size of the collection,
    and a further [emit] of the event calls nothing and returns a new empty
    set. *)
Theorem emit_retires_one_time_listeners (code : nat → Closure) w eventName args
    (Hreg : registry_ok w)
    (Hheap : heap_ok w)
    (Hall : ∀ x, x ∈ collection w eventName →
                 is_suspended w x = false ∧ is_once w x = true
                 ∧ ∃ u, outcome code x args = Normal u
                        ∧ isPromiseLike u = false) :
  let w1 := fst (emit code w eventName args) in
  collection w1 eventName = []
  ∧ (∀ callback, hasListener code w1 eventName callback = false)
  ∧ (eventName ≠ "" → listenerCount w1 (Some eventName) = 0)
  ∧ listenerCount w1 None + length (collection w eventName)
    = listenerCount w None
  ∧ ∀ args',
      emit code w1 eventName args'
      = (with_resultSets (resultSets w1 ++ [[]]) w1,
         Normal (length (resultSets w1))).
Proof.
  destruct (heap_ok_ready w eventName Hheap) as [Hnd Hrec].
  destruct (emit_spec code w eventName args Hnd)
    as (w1 & Hemit & _ & _ & Hcoll & _).
  { intros x Hx Hs. apply completes_intro; [|by apply Hrec].
    destruct (Hall x Hx) as (_ & _ & u & Hu & Hp). exists u.
    split; [done|]. intros. congruence. }
  pose proof (emit_dispatches code w eventName args) as Hev.
  pose proof (emit_total_count code w eventName args Hreg) as Htot.
  cbv zeta. rewrite Hemit in Hev, Htot |- *. cbn [fst] in *.
  apply dispatches_evolves in Hev.
  assert (Hnil : collection w1 eventName = []).
  { rewrite Hcoll. apply filter_none.
    intros x Hx. destruct (Hall x Hx) as (Hs & Ho & u & Hu & Hp).
    unfold removes, settles_now. by rewrite Hs, Ho, Hu, Hp. }
  assert (Hkey : listeners w1 !! eventName = None).
  { apply eq_None_not_Some.
    rewrite (registry_ok_keys w1 (evolves_registry_ok code _ _ Hev Hreg)).
    rewrite Hnil. intros Hne. by apply Hne. }
  split_and!.
  - done.
  - intros [cb|]; simpl; rewrite Hkey; [done|].
    apply bool_decide_eq_false. by intros [? [=]].
  - intros Hne. by rewrite listenerCount_name, Hnil.
  - unfold listenerCount. rewrite Hnil in Htot. simpl in Htot. lia.
  - intros args'. unfold emit. simpl. by rewrite Hkey.
Qed.

Lemma emit_retires_one_time_listeners_witness :
  let w := run demo_code unlimited
             [OpOnce "foo" (UserFn 2); OpOnce "foo" (UserFn 3)] in
  let w1 := fst (emit demo_code w "foo" []) in
  collection w1 "foo" = []
  ∧ (∀ callback, hasListener demo_code w1 "foo" callback = false)
  ∧ ("foo" ≠ "" → listenerCount w1 (Some "foo") = 0)
  ∧ listenerCount w1 None + length (collection w "foo") = listenerCount w None
  ∧ ∀ args',
      emit demo_code w1 "foo" args'
      = (with_resultSets (resultSets w1 ++ [[]]) w1,
         Normal (length (resultSets w1))).
Proof.
  apply (emit_retires_one_time_listeners demo_code).
  - eapply evolves_registry_ok;
      [apply (run_evolves demo_code) | apply registry_ok_construct].
  - eapply evolves_heap_ok;
      [apply (run_evolves demo_code) | apply heap_ok_construct].
  - intros x Hx. vm_compute in Hx.
    repeat (apply elem_of_cons in Hx as [->|Hx]);
      [..|by apply elem_of_nil in Hx];
      (split_and!; [reflexivity | reflexivity | by eexists]).
Defined.

(** ** A listener that throws *)

Section LoopAbort.

Variable code : nat → Closure.
Variables (eventName : string) (args : list Val) (returnVal loc : nat).

Local Abbreviation mk_call :=
  (λ l, {| call_event := eventName; call_listener := l; call_args := args |}).

(** One turn of the loop on a member that is not suspended and
    returns. *)
Lemma emit_body_turn i w callback :
  get_set w loc !! i = Some (Some callback) →
  still_registered eventName loc w →
  NoDup (set_values (get_set w loc)) →
  is_suspended w callback = false →
  runs code w args callback →
  ∃ w1, emit_body code w eventName args returnVal callback
        = (w1, turn_end code callback args)
    ∧ calls w1 = calls w ++ [mk_call callback]
    ∧ get_set w1 loc
      = <[i := after_emit code w args (Some callback)]> (get_set w loc)
    ∧ still_registered eventName loc w1
    ∧ NoDup (set_values (get_set w1 loc))
    ∧ (∀ l, is_suspended w1 l = is_suspended w l)
    ∧ (∀ l, is_once w1 l = is_once w l)
    ∧ (∀ l a, runs code w a l → runs code w1 a l).
Proof.
  intros Hi Hreg Hnd Hsus Hcb. destruct (Hcb) as [[v Hv] _].
  destruct (emit_body_returns code w eventName args returnVal callback v
              Hsus Hv Hcb)
    as (w1 & -> & Hc1 & _ & Hs1 & Ho1 & Hruns1 & Hl1 & Hset1 & _).
  assert (Hmem : callback ∈ set_values (get_set w loc)).
  { apply elem_of_set_values. by eapply list_elem_of_lookup_2. }
  assert (Hkey : listeners w !! eventName = Some loc).
  { destruct Hreg as [?|[_ Hz]]; [done|]. unfold set_size in Hz.
    destruct (set_values (get_set w loc)); [by apply elem_of_nil in Hmem|done]. }
  assert (Hg1 : get_set w1 loc
                = <[i := after_emit code w args (Some callback)]>
                    (get_set w loc)).
  { unfold get_set at 1. rewrite Hset1. simpl.
    destruct (removes code w args callback).
    - fold (get_set (off_world code w eventName (Some callback)) loc).
      rewrite off_world_get_set, decide_True by done. by apply set_delete_at.
    - fold (get_set w loc). by rewrite list_insert_id. }
  exists w1. split_and!; try done.
  - unfold still_registered. rewrite Hl1, Hg1. unfold after_emit.
    destruct (removes code w args callback) eqn:Hrm.
    + rewrite off_world_listeners, decide_True, Hkey by done.
      rewrite (set_delete_at _ i) by done.
      case_bool_decide as Hsz; [by left|]. right. split; [done|]. lia.
    + rewrite list_insert_id by done. by left.
  - rewrite Hg1. unfold after_emit.
    destruct (removes code w args callback).
    + rewrite <- (set_delete_at _ i callback) by done.
      by apply set_delete_NoDup.
    + by rewrite list_insert_id.
Qed.

(** The loop up to a member that leaves it, by throwing or because the
    [then] of its result throws. *)
Lemma emit_loop_abort l post ex k : ∀ i w pre,
  i + k = length (get_set w loc) →
  still_registered eventName loc w →
  NoDup (set_values (get_set w loc)) →
  set_values (drop i (get_set w loc)) = pre ++ l :: post →
  (∀ x, x ∈ pre → is_suspended w x = false → completes code w args x) →
  is_suspended w l = false →
  outcome code l args = Abrupt ex
  ∨ (runs code w args l ∧ turn_end code l args = Abrupt ex) →
  ∃ w', emit_loop code k i loc w eventName args returnVal = (w', Abrupt ex)
    ∧ calls w' = calls w ++ (mk_call <$> (active w pre ++ [l]))
    ∧ set_values (get_set w' loc)
      = set_values (take i (get_set w loc))
        ++ filter (λ x, removes code w args x = false) (pre ++ [l]) ++ post
    ∧ still_registered eventName loc w'.
Proof.
  induction k as [|k IH]; intros i w pre Hlen Hreg Hnd Hsplit Hruns Hsus Hex.
  { rewrite drop_ge in Hsplit by lia. by destruct pre. }
  cbn [emit_loop].
  destruct (lookup_lt_is_Some_2 (get_set w loc) i) as [entry Hi]; [lia|].
  rewrite Hi. rewrite (drop_S _ _ _ Hi) in Hsplit.
  destruct entry as [callback|].
  2:{ destruct (IH (S i) w pre) as (w' & Hrun & Hc & Hg & Hreg');
        [lia|done|done|done|done|done|done|].
      exists w'. split_and!; try done.
      rewrite Hg, (take_S_r _ _ _ Hi), set_values_app. simpl.
      by rewrite app_nil_r. }
  change (set_values (Some callback :: ?t)) with (callback :: set_values t)
    in Hsplit.
  destruct pre as [|p pre].
  - injection Hsplit as -> Hpost.
    destruct Hex as [Hex|[Hl Hend]].
    + exists (with_calls (calls w ++ [mk_call l]) w).
      assert (Hbody : emit_body code w eventName args returnVal l
                      = (with_calls (calls w ++ [mk_call l]) w, Abrupt ex)).
      { unfold emit_body. rewrite Hsus. destruct l as [f|q]; [|done].
        simpl in Hex |- *. by rewrite Hex. }
      rewrite Hbody. split_and!; try done.
      change (get_set (with_calls _ w) loc) with (get_set w loc).
      rewrite <- (take_drop i (get_set w loc)) at 1.
      rewrite set_values_app, (drop_S _ _ _ Hi).
      change (set_values (Some l :: ?t)) with (l :: set_values t).
      rewrite Hpost. simpl. rewrite filter_cons_True; [done|].
      unfold removes, settles_now. by rewrite Hex, andb_false_r.
    + destruct (emit_body_turn i w l Hi Hreg Hnd Hsus Hl)
        as (w1 & -> & Hc1 & Hg1 & Hreg1 & _).
      rewrite Hend. exists w1. split_and!; try done.
      rewrite Hg1.
      rewrite <- (take_drop_middle _ i (after_emit code w args (Some l)))
        by (apply list_lookup_insert_eq; by eapply lookup_lt_Some).
      rewrite take_insert_ge, drop_insert_lt by lia.
      rewrite set_values_app. f_equal.
      unfold after_emit. simpl. rewrite Hpost.
      destruct (removes code w args l) eqn:E.
      * by rewrite filter_cons_False by congruence.
      * by rewrite filter_cons_True by done.
  - injection Hsplit as -> Hrest.
    destruct (is_suspended w p) eqn:Hp.
    { rewrite emit_body_suspended by done.
      destruct (IH (S i) w pre) as (w' & Hrun & Hc & Hg & Hreg');
        [lia|done|done|done| |done|done|].
      { intros x Hx. apply Hruns. by right. }
      exists w'. unfold active in *. rewrite filter_cons_False by congruence.
      split_and!; try done.
      rewrite Hg, (take_S_r _ _ _ Hi), set_values_app. simpl.
      rewrite filter_cons_True by (unfold removes; by rewrite Hp).
      by rewrite <- app_assoc. }
    assert (Hcp : completes code w args p) by (apply Hruns; [left|done]).
    destruct (emit_body_turn i w p Hi Hreg Hnd Hp)
      as (w1 & -> & Hc1 & Hg1 & Hreg1 & Hnd1 & Hs1 & Ho1 & Hruns1).
    { by destruct Hcp. }
    rewrite (turn_end_completes code w args p Hcp).
    assert (Hdrop1 : drop (S i) (get_set w1 loc) = drop (S i) (get_set w loc)).
    { rewrite Hg1. apply drop_insert_lt. lia. }
    destruct (IH (S i) w1 pre) as (w' & Hrun & Hc & Hg & Hreg').
    { rewrite Hg1, length_insert. lia. }
    { done. }
    { done. }
    { by rewrite Hdrop1. }
    { intros x Hx Hxs.
      destruct (Hruns x) as [Hrx Hcx]; [by right|by rewrite <- Hs1|].
      split; [by apply Hruns1 | done]. }
    { by rewrite Hs1. }
    { destruct Hex as [?|[Hl Hend]]; [by left|right].
      split; [by apply Hruns1 | done]. }
    assert (Hact : ∀ ls, active w1 ls = active w ls).
    { intros ls. unfold active. apply list_filter_iff. intros x.
      by rewrite Hs1. }
    assert (Hrm : ∀ x, removes code w1 args x = removes code w args x).
    { intros x. unfold removes. by rewrite Hs1, Ho1. }
    exists w'. split_and!; try done.
    + rewrite Hc, Hc1, Hact. unfold active at 2.
      rewrite filter_cons_True by done. simpl.
      by rewrite <- app_assoc.
    + rewrite Hg, Hg1.
      rewrite (take_S_r _ i (after_emit code w args (Some p))).
      2:{ apply list_lookup_insert_eq. by eapply lookup_lt_Some. }
      rewrite take_insert_ge by lia.
      rewrite set_values_app, <- app_assoc. f_equal.
      rewrite (list_filter_iff _ (λ x, removes code w args x = false))
        by (intros x; by rewrite Hrm).
      unfold after_emit. destruct (removes code w args p) eqn:E; simpl.
      * by rewrite filter_cons_False by congruence.
      * by rewrite filter_cons_True by done.
Qed.

End LoopAbort.

Lemma count_absent (ls : list Listener) x :
  x ∉ ls → length (filter (λ y, y = x) ls) = 0.
Proof.
  induction ls as [|y ls IH]; [done|]. intros Hx.
  apply not_elem_of_cons in Hx as [Hne Hx].
  rewrite filter_cons_False by congruence. by apply IH.
Qed.

(** [emit] up to a member that leaves the loop. *)
Lemma emit_abort (code : nat → Closure) w eventName args pre l post ex :
  heap_ok w →
  collection w eventName = pre ++ l :: post →
  (∀ x, x ∈ pre → is_suspended w x = false → returns code args x) →
  is_suspended w l = false →
  turn_end code l args = Abrupt ex →
  let w' := fst (emit code w eventName args) in
  snd (emit code w eventName args) = Abrupt ex
  ∧ calls w'
    = calls w
      ++ ((λ x, {| call_event := eventName; call_listener := x;
                   call_args := args |})
            <$> (active w pre ++ [l]))
  ∧ (∀ x, x ∈ post →
          calls_of eventName x (drop (length (calls w)) (calls w')) = 0)
  ∧ collection w' eventName
    = filter (λ x, removes code w args x = false) (pre ++ [l]) ++ post.
Proof.
  intros Hheap Hcoll Hret Hsus Hend.
  destruct (heap_ok_ready w eventName Hheap) as [Hnd Hrec].
  cbv zeta. unfold emit.
  set (w0 := with_resultSets (resultSets w ++ [[]]) w).
  change (listeners w0) with (listeners w).
  assert (Hkey : is_Some (listeners w !! eventName)).
  { unfold collection in Hcoll. destruct (listeners w !! eventName); [done|].
    by destruct pre. }
  destruct Hkey as [loc Hloc]. rewrite Hloc.
  assert (Hvals : set_values (get_set w loc) = pre ++ l :: post).
  { unfold collection in Hcoll. by rewrite Hloc in Hcoll. }
  destruct (emit_loop_abort code eventName args (length (resultSets w)) loc
              l post ex (length (get_set w0 loc)) 0 w0 pre)
    as (w' & -> & Hc & Hg & Hreg).
  { done. }
  { by left. }
  { unfold collection in Hnd. by rewrite Hloc in Hnd. }
  { by rewrite drop_0. }
  { intros x Hx Hxs. apply completes_intro; [by apply Hret|].
    apply (Hrec x). rewrite Hcoll. apply elem_of_app. by left. }
  { done. }
  { unfold turn_end in Hend.
    destruct (outcome code l args) as [v|e] eqn:Hv.
    - right. split; [|by unfold turn_end; rewrite Hv].
      split; [by eexists|].
      apply (Hrec l). rewrite Hcoll. apply elem_of_app. right. left.
    - left. congruence. }
  cbn [fst snd]. rewrite take_0 in Hg. simpl in Hg.
  assert (Hnd' : NoDup (pre ++ l :: post)) by (by rewrite <- Hcoll).
  split_and!.
  - done.
  - done.
  - intros x Hx. rewrite Hc. simpl. rewrite drop_app_length, calls_of_fmap.
    apply list.NoDup_app in Hnd' as (_ & Hdisj & Hnd2).
    apply list.NoDup_cons in Hnd2 as [Hl _].
    apply count_absent. intros Hy. apply elem_of_app in Hy as [Hy|Hy].
    + apply list_elem_of_filter in Hy as [_ Hy].
      apply (Hdisj x Hy). by right.
    + apply list_elem_of_singleton in Hy as ->. done.
  - unfold collection.
    destruct Hreg as [->|[-> Hz]]; [done|].
    unfold set_size in Hz. rewrite Hg in Hz.
    symmetry. by apply nil_length_inv.
Qed.

(** When a listener throws, the members before it returning (the [then]
    of a promise-like result returning too), [emit] completes abruptly
    with that exception.
    The members before it that are not suspended have been called, in
    order, then the thrower; the members after it are not called; the
    one-time listeners before it whose result was settled by then (an
    immediate value, or a promise-like one whose [then] ran the callback
    before returning) are removed; the other members before it, the
    thrower and the members after it stay registered. *)
Theorem throwing_listener_aborts_emit (code : nat → Closure) w eventName args
    pre l post ex
    (Hheap : heap_ok w)
    (Hcoll : collection w eventName = pre ++ l :: post)
    (Hret : ∀ x, x ∈ pre → is_suspended w x = false →
                 returns code args x)
    (Hsus : is_suspended w l = false)
    (Hthrow : outcome code l args = Abrupt ex) :
  let w' := fst (emit code w eventName args) in
  snd (emit code w eventName args) = Abrupt ex
  ∧ calls w'
    = calls w
      ++ ((λ x, {| call_event := eventName; call_listener := x;
                   call_args := args |})
            <$> (active w pre ++ [l]))
  ∧ (∀ x, x ∈ post →
          calls_of eventName x (drop (length (calls w)) (calls w')) = 0)
  ∧ collection w' eventName
    = filter (λ x, removes code w args x = false) pre ++ l :: post.
Proof.
  assert (Hend : turn_end code l args = Abrupt ex)
    by (unfold turn_end; by rewrite Hthrow).
  destruct (emit_abort code w eventName args pre l post ex
              Hheap Hcoll Hret Hsus Hend) as (H1 & H2 & H3 & H4).
  cbv zeta. split_and!; [done..|].
  rewrite H4, list.filter_app, <- app_assoc. f_equal.
  rewrite filter_cons_True; [done|].
  unfold removes, settles_now. by rewrite Hthrow, andb_false_r.
Qed.

Lemma throwing_listener_aborts_emit_witness :
  let w := run demo_code unlimited
             [OpOnce "foo" (UserFn 0); OpOn "foo" (UserFn 7);
              OpOn "foo" (UserFn 1)] in
  let w' := fst (emit demo_code w "foo" []) in
  snd (emit demo_code w "foo" []) = Abrupt (Thrown (VNum 0))
  ∧ calls w'
    = calls w
      ++ ((λ x, {| call_event := "foo"; call_listener := x; call_args := [] |})
            <$> (active w [UserFn 0] ++ [UserFn 7]))
  ∧ (∀ x, x ∈ [UserFn 1] →
          calls_of "foo" x (drop (length (calls w)) (calls w')) = 0)
  ∧ collection w' "foo"
    = filter (λ x, removes demo_code w [] x = false) [UserFn 0]
      ++ UserFn 7 :: [UserFn 1].
Proof.
  apply (throwing_listener_aborts_emit demo_code _ "foo" [] [UserFn 0]
           (UserFn 7) [UserFn 1] (Thrown (VNum 0))).
  - eapply evolves_heap_ok;
      [apply (run_evolves demo_code) | apply heap_ok_construct].
  - reflexivity.
  - intros x Hx _. apply list_elem_of_singleton in Hx as ->. by eexists.
  - reflexivity.
  - reflexivity.
Defined.

Example emit_with_thrower :
  let w := run demo_code unlimited
             [OpOnce "foo" (UserFn 0); OpOn "foo" (UserFn 7);
              OpOn "foo" (UserFn 1)] in
  let w' := fst (emit demo_code w "foo" []) in
  call_listener <$> calls w' = [UserFn 0; UserFn 7]
  ∧ collection w' "foo" = [UserFn 7; UserFn 1].
Proof. vm_compute. done. Qed.

(** When the [then] of a listener's promise-like result throws, the
    members before that listener returning, [emit] completes abruptly with
    that exception, as it does when the listener itself throws: the
    members after the listener are not called.  The listener stays
    registered unless it is a one-time listener whose [then] ran the
    callback before throwing. *)
Theorem throwing_then_aborts_emit (code : nat → Closure) w eventName args
    pre l post v ex
    (Hheap : heap_ok w)
    (Hcoll : collection w eventName = pre ++ l :: post)
    (Hret : ∀ x, x ∈ pre → is_suspended w x = false →
                 returns code args x)
    (Hsus : is_suspended w l = false)
    (Hv : outcome code l args = Normal v)
    (Hp : isPromiseLike v = true)
    (Hthrow : then_throws (then_of code l args) = Some ex) :
  let w' := fst (emit code w eventName args) in
  snd (emit code w eventName args) = Abrupt ex
  ∧ calls w'
    = calls w
      ++ ((λ x, {| call_event := eventName; call_listener := x;
                   call_args := args |})
            <$> (active w pre ++ [l]))
  ∧ (∀ x, x ∈ post →
          calls_of eventName x (drop (length (calls w)) (calls w')) = 0)
  ∧ collection w' eventName
    = filter (λ x, removes code w args x = false) pre
      ++ (if is_once w l
             && bool_decide (0 < then_calls (then_of code l args))
          then [] else [l])
      ++ post.
Proof.
  assert (Hend : turn_end code l args = Abrupt ex)
    by (unfold turn_end; by rewrite Hv, Hp, Hthrow).
  destruct (emit_abort code w eventName args pre l post ex
              Hheap Hcoll Hret Hsus Hend) as (H1 & H2 & H3 & H4).
  cbv zeta. split_and!; [done..|].
  rewrite H4, list.filter_app, <- app_assoc. f_equal. f_equal.
  assert (Hrm : removes code w args l
                = is_once w l
                  && bool_decide (0 < then_calls (then_of code l args))).
  { unfold removes, settles_now. by rewrite Hsus, Hv, Hp. }
  rewrite <- Hrm. destruct (removes code w args l) eqn:E.
  - by rewrite filter_cons_False by congruence.
  - by rewrite filter_cons_True by done.
Qed.

Lemma throwing_then_aborts_emit_witness :
  let w := run demo_code unlimited
             [OpOn "foo" (UserFn 6); OpOn "foo" (UserFn 0)] in
  let w' := fst (emit demo_code w "foo" []) in
  snd (emit demo_code w "foo" []) = Abrupt (Thrown (VNum 0))
  ∧ calls w'
    = calls w
      ++ ((λ x, {| call_event := "foo"; call_listener := x; call_args := [] |})
            <$> (active w [] ++ [UserFn 6]))
  ∧ (∀ x, x ∈ [UserFn 0] →
          calls_of "foo" x (drop (length (calls w)) (calls w')) = 0)
  ∧ collection w' "foo"
    = filter (λ x, removes demo_code w [] x = false) []
      ++ (if is_once w (UserFn 6)
             && bool_decide (0 < then_calls (then_of demo_code (UserFn 6) []))
          then [] else [UserFn 6])
      ++ [UserFn 0].
Proof.
  apply (throwing_then_aborts_emit demo_code _ "foo" [] []
           (UserFn 6) [UserFn 0] (VThenable 2) (Thrown (VNum 0))).
  - eapply evolves_heap_ok;
      [apply (run_evolves demo_code) | apply heap_ok_construct].
  - reflexivity.
  - intros x Hx. by apply elem_of_nil in Hx.
  - reflexivity.
  - reflexivity.
  - reflexivity.
  - reflexivity.
Defined.

(** [listenerCount()] is the sum of the sizes of the collections of all
    the names that are keys; for a name other than the empty string
    [listenerCount(name)] is the size of its collection, 0 when the name
    is not a key, and never more than the total. *)
Theorem listenerCount_total_is_sum w :
  listenerCount w None
  = sum_list_with (λ n, length (collection w n))
      (map_to_list (listeners w)).*1
  ∧ ∀ n, n ≠ "" →
         listenerCount w (Some n) = length (collection w n)
         ∧ listenerCount w (Some n) ≤ listenerCount w None
         ∧ (listeners w !! n = None → listenerCount w (Some n) = 0).
Proof.
  split; [apply total_count_sum|]. intros n Hn.
  rewrite listenerCount_name by done. split_and!.
  - done.
  - unfold listenerCount. rewrite (total_count_split w n). lia.
  - intros E. unfold collection. by rewrite E.
Qed.

(** ** Listeners that are not registered *)

Lemma emit_loop_calls_absent (code : nat → Closure) eventName args returnVal
    loc l k : ∀ i w,
  Some l ∉ drop i (get_set w loc) →
  calls_of eventName l
    (calls (fst (emit_loop code k i loc w eventName args returnVal)))
  = calls_of eventName l (calls w).
Proof.
  induction k as [|k IH]; intros i w Hout; [done|]. cbn [emit_loop].
  destruct (get_set w loc !! i) as [entry|] eqn:Hi.
  2:{ apply IH. rewrite drop_ge; [apply not_elem_of_nil|].
      apply lookup_ge_None in Hi. lia. }
  rewrite (drop_S _ _ _ Hi) in Hout.
  apply not_elem_of_cons in Hout as [Hne Hout].
  destruct entry as [callback|]; [|by apply IH].
  assert (Hcb : callback ≠ l) by congruence.
  destruct (emit_body_effect code w eventName args returnVal callback)
    as (Hc & _).
  pose proof (emit_body_set code w eventName args returnVal callback loc) as Hs.
  cbv zeta in Hs.
  assert (Hcalls : calls_of eventName l
                     (calls (fst (emit_body code w eventName args returnVal
                                    callback)))
                   = calls_of eventName l (calls w)).
  { rewrite Hc. destruct (is_suspended w callback); [by rewrite app_nil_r|].
    rewrite calls_of_snoc. simpl. rewrite decide_False; [lia|].
    intros [_ ?]. done. }
  destruct (emit_body code w eventName args returnVal callback)
    as [w1 [[]|e]]; cbn [fst] in *; [|done].
  rewrite IH; [done|].
  destruct Hs as [->| ->]; [done|].
  unfold set_delete. rewrite <- fmap_drop. intros Hin.
  apply list_elem_of_fmap in Hin as (x & Hx & Hin).
  case_bool_decide; [done|]. by subst.
Qed.

Lemma emit_calls_absent (code : nat → Closure) w eventName args l :
  l ∉ collection w eventName →
  calls_of eventName l (calls (fst (emit code w eventName args)))
  = calls_of eventName l (calls w).
Proof.
  intros Hout. unfold emit.
  set (w0 := with_resultSets (resultSets w ++ [[]]) w).
  change (listeners w0) with (listeners w).
  unfold collection in Hout.
  destruct (listeners w !! eventName) as [loc|]; [|done].
  pose proof (emit_loop_calls_absent code eventName args
                (length (resultSets w)) loc l (length (get_set w0 loc)) 0 w0)
    as H.
  lapply H.
  2:{ rewrite drop_0. by rewrite <- elem_of_set_values. }
  clear H. intros H.
  by destruct (emit_loop code _ 0 loc w0 eventName args _) as [w1 [[]|e]].
Qed.

Lemma step_keeps_out (code : nat → Closure) w op e l :
  registers op = false →
  l ∉ collection w e →
  calls_of e l (calls (step code w op)) = calls_of e l (calls w)
  ∧ l ∉ collection (step code w op) e.
Proof.
  intros Hop Hout. destruct op; try done; cbn [step].
  - split.
    + cbn [off fst].
      pose proof (off_world_frame code w eventName listener) as F.
      cbv zeta in F. by destruct F as (_ & _ & _ & _ & _ & _ & _ & _ & -> & _).
    + intros Hin. by apply Hout, (off_world_shrinks code w eventName listener).
  - split.
    + destruct (decide (eventName = e)) as [->|Hne].
      * by apply emit_calls_absent.
      * by apply emit_calls_other.
    + intros Hin. apply Hout.
      by apply (dispatches_keeps code e l w _
                  (emit_dispatches code w eventName args)).
  - split.
    + by rewrite run_then_calls.
    + intros Hin. apply Hout.
      by apply (dispatches_keeps code e l w _ (run_then_dispatches code w k)).
Qed.

(** A function that is not a member of the collection of a name is not
    called for that name, and does not become a member, by any sequence of
    operations that register nothing: [off], [emit] of any event, [then]
    callbacks, introspection and suspension.  In particular a listener
    removed with [off] is not called again. *)
Theorem unregistered_listener_is_not_called (code : nat → Closure) w e l ops
    (Hout : l ∉ collection w e)
    (Hops : Forall (λ op, registers op = false) ops) :
  let w' := run code w ops in
  calls_of e l (calls w') = calls_of e l (calls w)
  ∧ l ∉ collection w' e.
Proof.
  cbv zeta. revert w Hout. unfold run.
  induction Hops as [|op ops' Hop _ IH]; intros w Hout.
  - done.
  - simpl. destruct (step_keeps_out code w op e l Hop Hout) as [Hc Hout'].
    destruct (IH _ Hout') as [Hc' Hn]. split; [congruence|done].
Qed.

Lemma unregistered_listener_is_not_called_witness :
  let w := fst (off demo_code readme_world "foo" (Some (UserFn 0))) in
  let w' := run demo_code w [OpEmit "foo" [VStr "pide"]; OpEmit "foo" []] in
  calls_of "foo" (UserFn 0) (calls w') = calls_of "foo" (UserFn 0) (calls w)
  ∧ UserFn 0 ∉ collection w' "foo".
Proof.
  apply (unregistered_listener_is_not_called demo_code).
  - vm_compute. intros Hin. apply list_elem_of_singleton in Hin. discriminate.
  - repeat constructor.
Defined.

(** ** Results settled inside [emit] *)

(** A listener whose result is promise-like with a [then] that runs the
    callback before returning (an object with a synchronous [then]) is
    settled inside [emit], like a listener returning an immediate value:
    in an [emit] whose listeners return, the result set holds the
    promise-like value itself, the listener is marked as listened, and a
    one-time listener is removed, so that the next [emit] does not call
    it. *)
Theorem thenable_result_is_settled_at_once (code : nat → Closure) w eventName
    args l v
    (Hheap : heap_ok w)
    (Hret : ∀ x, x ∈ collection w eventName → is_suspended w x = false →
                 returns code args x)
    (Hin : l ∈ collection w eventName)
    (Hsus : is_suspended w l = false)
    (Hv : outcome code l args = Normal v)
    (Hp : isPromiseLike v = true)
    (Hcalls : 0 < then_calls (then_of code l args)) :
  let returnVal := length (resultSets w) in
  let w1 := fst (emit code w eventName args) in
  snd (emit code w eventName args) = Normal returnVal
  ∧ (∃ results, resultSets w1 !! returnVal = Some results ∧ v ∈ results)
  ∧ is_listened w1 l = true
  ∧ calls_of eventName l (calls w1) = calls_of eventName l (calls w) + 1
  ∧ (is_once w l = false → l ∈ collection w1 eventName)
  ∧ (is_once w l = true →
     (l ∉ collection w1 eventName)
     ∧ ∀ args', calls_of eventName l
                  (calls (fst (emit code w1 eventName args')))
                = calls_of eventName l (calls w1)).
Proof.
  destruct (heap_ok_ready w eventName Hheap) as [Hnd Hrec].
  destruct (emit_spec code w eventName args Hnd)
    as (w1 & Hemit & Hc & Hr & Hcoll & _).
  { intros x Hx Hs. apply completes_intro; [by apply Hret | by apply Hrec]. }
  assert (Hnow : settles_now code l args = true).
  { unfold settles_now. rewrite Hv, Hp. by apply bool_decide_eq_true. }
  assert (Hact : l ∈ active w (collection w eventName))
    by (by apply list_elem_of_filter).
  assert (Hgone : is_once w l = true → l ∉ collection w1 eventName).
  { intros Ho. rewrite Hcoll, list_elem_of_filter. intros [Hrm _].
    unfold removes in Hrm. by rewrite Hsus, Ho, Hnow in Hrm. }
  pose proof (emit_listened code w eventName args w1 _ l Hemit Hin Hsus Hnow)
    as Hl.
  cbv zeta. rewrite Hemit. cbn [fst snd].
  split_and!.
  - done.
  - eexists. split; [rewrite Hr; by apply list_lookup_middle|].
    rewrite elem_of_add_all, elem_of_settled_results. right. by exists l.
  - done.
  - rewrite Hc, calls_of_app, calls_of_fmap, count_NoDup
      by (by apply list.NoDup_filter).
    by rewrite bool_decide_eq_true_2.
  - intros Ho. rewrite Hcoll. apply list_elem_of_filter. split; [|done].
    unfold removes. by rewrite Ho, andb_false_r.
  - intros Ho. split; [by apply Hgone|].
    intros args'. apply emit_calls_absent. by apply Hgone.
Qed.

Lemma thenable_result_is_settled_at_once_witness :
  let w := run demo_code unlimited [OpOnce "foo" (UserFn 5)] in
  let w1 := fst (emit demo_code w "foo" []) in
  snd (emit demo_code w "foo" []) = Normal 0
  ∧ (∃ results, resultSets w1 !! 0 = Some results ∧ VThenable 1 ∈ results)
  ∧ is_listened w1 (UserFn 5) = true
  ∧ (UserFn 5 ∉ collection w1 "foo").
Proof.
  cbv zeta.
  destruct (thenable_result_is_settled_at_once demo_code
              (run demo_code unlimited [OpOnce "foo" (UserFn 5)]) "foo" []
              (UserFn 5) (VThenable 1))
    as (H1 & H2 & H3 & _ & _ & H4).
  - eapply evolves_heap_ok;
      [apply (run_evolves demo_code) | apply heap_ok_construct].
  - intros x Hx _. vm_compute in Hx.
    repeat (apply elem_of_cons in Hx as [->|Hx]);
      [..|by apply elem_of_nil in Hx]; by eexists.
  - by apply (bool_decide_unpack _); vm_compute.
  - reflexivity.
  - reflexivity.
  - reflexivity.
  - simpl. lia.
  - split_and!; [exact H1 | exact H2 | exact H3 |].
    apply H4. reflexivity.
Defined.

(** A one-time listener returning an object whose [then] calls its
    argument on the spot: [emit] removes it, records the object in the
    result set and leaves no continuation pending. *)
Example thenable_once_listener :
  let w := run demo_code unlimited [OpOnce "foo" (UserFn 5)] in
  let w1 := step demo_code w (OpEmit "foo" []) in
  collection w1 "foo" = [] ∧ resultSets w1 = [[VThenable 1]]
  ∧ is_listened w1 (UserFn 5) = true ∧ thenJobs w1 = [].
Proof. vm_compute. done. Qed.

(** A future of [onceAsync] behind a listener returning an object whose
    [then] throws: the [emit] is left before the arrow function is
    reached, and the future stays pending. *)
Example onceAsync_behind_throwing_then :
  let w := run demo_code unlimited
             [OpOn "x" (UserFn 6); OpOnceAsync "x"; OpEmit "x" [VNum 42]] in
  promises w !! 0 = Some Pending ∧ collection w "x" = [UserFn 6; AsyncFn 0].
Proof. vm_compute. done. Qed.

(** A listener returning an object whose [then] throws: the exception
    leaves [emit], and the listener registered after it is not called. *)
Example emit_with_throwing_then :
  let w := run demo_code unlimited
             [OpOn "foo" (UserFn 6); OpOn "foo" (UserFn 0)] in
  let w' := fst (emit demo_code w "foo" []) in
  snd (emit demo_code w "foo" []) = Abrupt (Thrown (VNum 0))
  ∧ call_listener <$> calls w' = [UserFn 6]
  ∧ collection w' "foo" = [UserFn 6; UserFn 0]
  ∧ is_listened w' (UserFn 6) = false.
Proof. vm_compute. done. Qed.

(** ** Result sets *)

Lemma settle_results (code : nat → Closure) w eventName callback v returnVal i :
  i ≠ returnVal →
  resultSets (fst (settle code w eventName callback v returnVal)) !! i
  = resultSets w !! i.
Proof.
  intros Hi. unfold settle.
  destruct (define_listened w callback) as [w1|] eqn:Hd; [|done].
  apply define_listened_inv in Hd as (d & s & _ & _ & ->). cbn [fst].
  simpl. rewrite list_lookup_alter_ne by done.
  match goal with |- context [if ?b then _ else _] => destruct b end;
    [|done].
  simpl.
  match goal with |- context [off_world code ?w2 eventName (Some callback)] =>
    pose proof (off_world_frame code w2 eventName (Some callback)) as F
  end.
  cbv zeta in F. by destruct F as (_ & _ & _ & _ & _ & -> & _).
Qed.

Lemma settle_results_length (code : nat → Closure) w eventName callback v
    returnVal :
  length (resultSets (fst (settle code w eventName callback v returnVal)))
  = length (resultSets w).
Proof.
  unfold settle.
  destruct (define_listened w callback) as [w1|] eqn:Hd; [|done].
  apply define_listened_inv in Hd as (d & s & _ & _ & ->). cbn [fst].
  simpl. rewrite length_alter.
  match goal with |- context [if ?b then _ else _] => destruct b end;
    [|done].
  simpl.
  match goal with |- context [off_world code ?w2 eventName (Some callback)] =>
    pose proof (off_world_frame code w2 eventName (Some callback)) as F
  end.
  cbv zeta in F. by destruct F as (_ & _ & _ & _ & _ & -> & _).
Qed.

Lemma call_then_results (code : nat → Closure) w eventName callback v
    returnVal b :
  let w' := fst (call_then code w eventName callback v returnVal b) in
  length (resultSets w') = length (resultSets w)
  ∧ ∀ i, i ≠ returnVal → resultSets w' !! i = resultSets w !! i.
Proof.
  cbv zeta. rewrite call_then_unfold.
  pose proof (settle_results_length code w eventName callback v returnVal)
    as Hl.
  pose proof (settle_results code w eventName callback v returnVal) as Hr.
  destruct (bool_decide (0 < then_calls b)).
  - destruct (settle code w eventName callback v returnVal) as [w1 [[]|e]];
      cbn [fst] in *; [|done].
    by destruct (then_keeps b), (then_throws b).
  - by destruct (then_keeps b), (then_throws b).
Qed.

Lemma emit_body_results (code : nat → Closure) w eventName args returnVal
    callback :
  let w' := fst (emit_body code w eventName args returnVal callback) in
  length (resultSets w') = length (resultSets w)
  ∧ ∀ i, i ≠ returnVal → resultSets w' !! i = resultSets w !! i.
Proof.
  cbv zeta. unfold emit_body. destruct (is_suspended w callback); [done|].
  match goal with |- context [call code ?w0 callback args] =>
    pose proof (call_spec code w0 callback args) as Hc;
    destruct (call code w0 callback args) as [w1 r]
  end.
  cbv zeta in Hc. simpl in Hc. destruct Hc as (_ & _ & _ & _ & Hr & _).
  destruct r as [v|e]; [|simpl; by rewrite Hr].
  destruct (isPromiseLike v).
  - destruct (call_then_results code w1 eventName callback v returnVal
                (then_of code callback args)) as [Hl Hi].
    rewrite Hl, Hr. split; [done|].
    intros i Hne. by rewrite Hi, Hr.
  - rewrite settle_results_length, Hr. split; [done|].
    intros i Hi. by rewrite settle_results, Hr.
Qed.

Lemma emit_loop_results (code : nat → Closure) eventName args returnVal loc k :
  ∀ i w,
    let w' := fst (emit_loop code k i loc w eventName args returnVal) in
    length (resultSets w') = length (resultSets w)
    ∧ ∀ j, j ≠ returnVal → resultSets w' !! j = resultSets w !! j.
Proof.
  cbv zeta. induction k as [|k IH]; intros i w; [done|]. cbn [emit_loop].
  destruct (get_set w loc !! i) as [[callback|]|]; [|apply IH..].
  destruct (emit_body_results code w eventName args returnVal callback)
    as [Hl1 Hr1].
  destruct (emit_body code w eventName args returnVal callback)
    as [w1 [[]|e]]; cbn [fst] in *; [|done].
  destruct (IH (S i) w1) as [Hl Hr]. split; [congruence|].
  intros j Hj. by rewrite Hr, Hr1.
Qed.

(** Every [emit] allocates a result set of its own, whether its listeners
    return or throw: the set it returns is new, the result sets of earlier calls are not
    touched by it, and a [then] callback writes to no result set other than
    the one it was attached for. *)
Theorem emit_has_its_own_result_set (code : nat → Closure) w eventName args :
  let w' := fst (emit code w eventName args) in
  length (resultSets w') = S (length (resultSets w))
  ∧ (∀ returnVal, snd (emit code w eventName args) = Normal returnVal →
                  returnVal = length (resultSets w))
  ∧ (∀ i, i < length (resultSets w) → resultSets w' !! i = resultSets w !! i)
  ∧ ∀ k i,
      (∀ j, thenJobs w !! k = Some j → job_result j ≠ i) →
      resultSets (fst (run_then code w k)) !! i = resultSets w !! i.
Proof.
  cbv zeta.
  assert (Hemit :
    length (resultSets (fst (emit code w eventName args)))
    = S (length (resultSets w))
    ∧ (∀ r, snd (emit code w eventName args) = Normal r →
            r = length (resultSets w))
    ∧ ∀ i, i < length (resultSets w) →
           resultSets (fst (emit code w eventName args)) !! i
           = resultSets w !! i).
  { unfold emit.
    set (w0 := with_resultSets (resultSets w ++ [[]]) w).
    assert (H0 : length (resultSets w0) = S (length (resultSets w))).
    { unfold w0. simpl. rewrite length_app. simpl. lia. }
    assert (H1 : ∀ i, i < length (resultSets w) →
                      resultSets w0 !! i = resultSets w !! i).
    { intros i Hi. unfold w0. simpl. by rewrite lookup_app_l. }
    destruct (listeners w0 !! eventName) as [loc|].
    2:{ cbn [fst snd]. split_and!; [done| |done]. by intros r [= <-]. }
    destruct (emit_loop_results code eventName args (length (resultSets w)) loc
                (length (get_set w0 loc)) 0 w0) as [Hl Hr].
    destruct (emit_loop code _ 0 loc w0 eventName args _) as [w1 [[]|e]];
      cbn [fst snd] in *.
    - split_and!; [congruence| by intros r [= <-] |].
      intros i Hi. rewrite Hr by lia. by apply H1.
    - split_and!; [congruence|done|].
      intros i Hi. rewrite Hr by lia. by apply H1. }
  destruct Hemit as (H1 & H2 & H3). split_and!; [done..|].
  intros k i Hk. unfold run_then.
  destruct (thenJobs w !! k) as [j|] eqn:Ej; [|done].
  rewrite settle_results; [done|]. intros ->. by apply (Hk j).
Qed.
